(** * pg-basic: the line tokenizer and the statement parser

    A shallow embedding of [src/tokenizer.js] (class [Tokenizer]) and of the
    statement parser (class [Parser]), followed by the properties of the
    specification that concern them.

    Conventions of the embedding.
    - A JavaScript string is a [string]; its characters are the code units
      0..255.  The regular expressions of the tokenizer are written out as
      the prefix matchers they denote ([reLINE], [reKEY], ...), each returning
      the pair ([m0], [m1]) of the whole match [m[0]] and of the first group
      [m[1]].
    - A JavaScript number is a [JsNumber]: an integer, or the value that
      [parseFloat] gives to a decimal literal (kept as that literal).  The
      messages of the errors are kept as their template and the values it
      interpolates ([Message]).
    - A method that mutates [this] takes the object and returns the new one;
      a [throw] is the outcome [Throw].  The three loops of the code run on
      fuel; the outcome [OutOfFuel] is shown never to happen with the fuel
      the entry points give.
    - Two modules that the sources import are not among them and are
      parameters: the keys of [Functions] ([FUNCTIONS]) and the expression
      translator [exprToJS].  The node classes of [./nodes] are modelled as
      the data they carry. *)

From Stdlib Require Import String Ascii List ZArith Bool Arith Lia.
Import ListNotations.
Set Warnings "-register-all".
Open Scope string_scope.
Open Scope nat_scope.

(* ------------------------------------------------------------------ *)
(** ** Characters and strings *)

Definition code (c : ascii) : nat := nat_of_ascii c.

(** [\s]: TAB, LF, VT, FF, CR, SPACE and NBSP (the white space and line
    terminators below U+0100). *)
Definition isSpace (c : ascii) : bool :=
  let n := code c in
  ((9 <=? n) && (n <=? 13)) || (n =? 32) || (n =? 160).

(** [\d] and [[0-9]]. *)
Definition isDigit (c : ascii) : bool :=
  let n := code c in (48 <=? n) && (n <=? 57).

Definition isLower (c : ascii) : bool :=
  let n := code c in (97 <=? n) && (n <=? 122).

Definition isUpper (c : ascii) : bool :=
  let n := code c in (65 <=? n) && (n <=? 90).

(** [[a-z]] under the [i] flag. *)
Definition isLetter (c : ascii) : bool := isLower c || isUpper c.

(** The line terminators, which [.] does not match. *)
Definition isLineTerminator (c : ascii) : bool :=
  let n := code c in (n =? 10) || (n =? 13).

(** [toUpperCase] on the characters a pattern of the tokenizer can capture
    (ASCII letters and digits); it is also the canonical form the [i] flag
    compares characters by. *)
Definition upper (c : ascii) : ascii :=
  if isLower c then ascii_of_nat (code c - 32) else c.

Fixpoint toUpperCase (s : string) : string :=
  match s with
  | EmptyString => EmptyString
  | String c r => String (upper c) (toUpperCase r)
  end.

(** [s.slice(n)] for [0 <= n]. *)
Fixpoint slice (s : string) (n : nat) {struct n} : string :=
  match n, s with
  | O, _ => s
  | S n', String _ r => slice r n'
  | S _, EmptyString => EmptyString
  end.

(** The longest prefix of [s] whose characters satisfy [p], and the rest: a
    greedy [p*]. *)
Fixpoint span (p : ascii -> bool) (s : string) : string * string :=
  match s with
  | EmptyString => (EmptyString, EmptyString)
  | String c r =>
      if p c then let (a, b) := span p r in (String c a, b)
      else (EmptyString, s)
  end.

Definition isEmpty (s : string) : bool :=
  match s with EmptyString => true | _ => false end.

(** A literal pattern matched at the start of [s] under the [i] flag: the
    text it matched and the rest. *)
Fixpoint prefixCI (pat s : string) : option (string * string) :=
  match pat with
  | EmptyString => Some (EmptyString, s)
  | String p pat' =>
      match s with
      | EmptyString => None
      | String c s' =>
          if Ascii.eqb (upper c) (upper p) then
            match prefixCI pat' s' with
            | Some (a, b) => Some (String c a, b)
            | None => None
            end
          else None
      end
  end.

(** An alternation [(a1|a2|...)] of literals that is followed by [\s*]:
    the first alternative that matches is the one the match keeps. *)
Fixpoint altCI (alts : list string) (s : string) : option (string * string) :=
  match alts with
  | [] => None
  | a :: alts' =>
      match prefixCI a s with
      | Some r => Some r
      | None => altCI alts' s
      end
  end.

(** [parseInt] on a string of decimal digits: their decimal value.  The
    Number that [parseInt] returns is [Int] of this value (the value itself
    below 2^53, the double nearest to it above, [Infinity] from about 309
    digits on); the properties carry it as it is and do no arithmetic on
    it. *)
Fixpoint digitsValue (acc : Z) (s : string) : Z :=
  match s with
  | EmptyString => acc
  | String c r => digitsValue (10 * acc + Z.of_nat (code c - 48)) r
  end.

Definition parseInt (digits : string) : Z := digitsValue 0 digits.

(** Whether [parseFloat(s)] is [NaN]: after leading white space and an
    optional sign there is no [Infinity], no digit, and no [.] followed by
    a digit. *)
Definition parseFloat_isNaN (s : string) : bool :=
  let t := snd (span isSpace s) in
  let u := match t with
           | String "+" r => r
           | String "-" r => r
           | _ => t
           end in
  match u with
  | String c r =>
      if isDigit c then false
      else if Ascii.eqb c "." then
             match r with
             | String d _ => negb (isDigit d)
             | EmptyString => true
             end
      else
        match prefixCI "Infinity" u with
        | Some (m, _) => negb (String.eqb m "Infinity")
        | None => true
        end
  | EmptyString => true
  end.

(* ------------------------------------------------------------------ *)
(** ** The regular expressions of [tokenizer.js] *)

(** The result of [String.prototype.match] when it is not [null]. *)
Record Match := mkMatch { m0 : string; m1 : string }.

Definition KEYWORDS : list string :=
  [ "IF"; "THEN"; "ELSE"; "FOR"; "ON"; "TO"; "STEP"; "GOTO"; "GOSUB";
    "RETURN"; "NEXT"; "INPUT"; "LET"; "CLC"; "CLT"; "CLS"; "END"; "PRINT";
    "PLOT"; "DRAW"; "UNDRAW"; "ARRAY"; "DIM"; "DATA"; "READ"; "REM";
    "PAUSE"; "STOP" ].

Definition CONSTANTS : list string := [ "LEVEL"; "PI" ].

(** An alternation of literals under the [i] flag, then [\s*]. *)
Definition reAlt (alts : list string) (s : string) : option Match :=
  match altCI alts s with
  | Some (k, r) => Some (mkMatch (k ++ fst (span isSpace r)) k)
  | None => None
  end.

(** [LINE = /^\s*(\d+)\s*/] *)
Definition reLINE (s : string) : option Match :=
  let (w1, r1) := span isSpace s in
  let (ds, r2) := span isDigit r1 in
  if isEmpty ds then None
  else Some (mkMatch (w1 ++ ds ++ fst (span isSpace r2)) ds).

(** The double quote. *)
Definition dq : ascii := "034"%char.

(** The body of a string literal, [(\\.|[^Q\\])*], where Q stands for the
    double quote. *)
Fixpoint quoteBody (s : string) : string * string :=
  match s with
  | EmptyString => (EmptyString, EmptyString)
  | String c r =>
      if Ascii.eqb c "\" then
        match r with
        | String d r' =>
            if isLineTerminator d then (EmptyString, s)
            else let (a, b) := quoteBody r' in (String c (String d a), b)
        | EmptyString => (EmptyString, s)
        end
      else if Ascii.eqb c dq then (EmptyString, s)
      else let (a, b) := quoteBody r in (String c a, b)
  end.

(** [QUOTE]: a double quote, the body as group 1, a double quote, [\s*]. *)
Definition reQUOTE (s : string) : option Match :=
  match s with
  | String q r =>
      if Ascii.eqb q dq then
        let (body, r1) := quoteBody r in
        match r1 with
        | String q' r2 =>
            if Ascii.eqb q' dq then
              Some (mkMatch (String q (body ++ String q' (fst (span isSpace r2)))) body)
            else None
        | EmptyString => None
        end
      else None
  | EmptyString => None
  end.

(** [KEY = new RegExp('^(' + KEYWORDS.join('|') + ')\\s*', 'i')] *)
Definition reKEY (s : string) : option Match := reAlt KEYWORDS s.

(** [CONST = new RegExp('^(' + CONSTANTS.join('|') + ')\\s*', 'i')] *)
Definition reCONST (s : string) : option Match := reAlt CONSTANTS s.

(** [LOGIC = /^(AND|OR)\s*/i] *)
Definition reLOGIC (s : string) : option Match := reAlt ["AND"; "OR"] s.

(** [VAR]: group 1 is a letter [[a-z]] and digits [[0-9]*], then an optional
    dollar sign and [\s*]; flag [i]. *)
Definition reVAR (s : string) : option Match :=
  match s with
  | String c r =>
      if isLetter c then
        let (ds, r1) := span isDigit r in
        let (dollar, r2) :=
          match r1 with
          | String d r' => if Ascii.eqb d "$" then (String d EmptyString, r') else (EmptyString, r1)
          | EmptyString => (EmptyString, r1)
          end in
        Some (mkMatch (String c ds ++ dollar ++ fst (span isSpace r2)) (String c ds))
      else None
  | EmptyString => None
  end.

(** [NUM = /^(\d+(\.\d+)?)\s*/i] *)
Definition reNUM (s : string) : option Match :=
  let (ds, r1) := span isDigit s in
  if isEmpty ds then None
  else
    let (frac, r2) :=
      match r1 with
      | String d r' =>
          if Ascii.eqb d "." then
            let (fs, r'') := span isDigit r' in
            if isEmpty fs then (EmptyString, r1) else (String d fs, r'')
          else (EmptyString, r1)
      | EmptyString => (EmptyString, r1)
      end in
    Some (mkMatch ((ds ++ frac) ++ fst (span isSpace r2)) (ds ++ frac)).

(** The character class [[,\+\-\*\/%=<>\(\)\]\[]]. *)
Definition isOpChar (c : ascii) : bool :=
  existsb (Ascii.eqb c)
    [ ","; "+"; "-"; "*"; "/"; "%"; "="; "<"; ">"; "("; ")"; "]"; "[" ]%char.

(** [OP = /^(<>|>=|<=|[,\+\-\*\/%=<>\(\)\]\[])\s*/i] *)
Definition reOP (s : string) : option Match :=
  match altCI ["<>"; ">="; "<="] s with
  | Some (k, r) => Some (mkMatch (k ++ fst (span isSpace r)) k)
  | None =>
      match s with
      | String c r =>
          if isOpChar c then
            Some (mkMatch (String c (fst (span isSpace r))) (String c EmptyString))
          else None
      | EmptyString => None
      end
  end.

(** [LINEMOD = /^(;)\s*/i] *)
Definition reLINEMOD (s : string) : option Match := reAlt [";"] s.

(** [m && m[0]]: the match exists and is not the empty string. *)
Definition truthy (m : option Match) : option Match :=
  match m with
  | Some r => if isEmpty (m0 r) then None else Some r
  | None => None
  end.

(* ------------------------------------------------------------------ *)
(** ** Values, tokens and outcomes *)

(** A JavaScript number: [Int z] is the number that [parseInt] gives to the
    decimal digits of [z] (and the constant -1); it is [z] itself below
    2^53.  [Float literal] is the number that [parseFloat] gives to a decimal
    literal, which is kept as the literal that denotes it.  Equal integers
    and equal literals denote equal numbers. *)
Inductive JsNumber :=
| Int (z : Z)
| Float (literal : string).

(** The lexeme of a token is a number or a string. *)
Inductive Lexeme :=
| LNumber (n : JsNumber)
| LString (s : string).

(** The values of [Token.type]. *)
Inductive TokenType :=
| ty_lineno | ty_keyword | ty_comment | ty_string | ty_number | ty_variable
| ty_function | ty_constant | ty_operation | ty_logic | ty_linemod | ty_eof.

Record Token := mkToken { type : TokenType; lexeme : Lexeme }.

(** [const eof = new Token('eof', '')] *)
Definition eof : Token := mkToken ty_eof (LString "").

Definition TokenType_eq_dec (a b : TokenType) : {a = b} + {a <> b}.
Proof. decide equality. Defined.

Definition TokenType_eqb (a b : TokenType) : bool :=
  if TokenType_eq_dec a b then true else false.

(** [lexeme === s] for a string [s]. *)
Definition lexeme_is (l : Lexeme) (s : string) : bool :=
  match l with
  | LString x => String.eqb x s
  | LNumber _ => false
  end.

(** [token == Tokenizer.eof].  The sentinel is the one token of type [eof]:
    no method of the tokenizer builds another (lemma [tokenize_no_eof]); the
    only use of the test is in the scan of [expectExpr], which a token of
    type [eof] ends in any case, its type not being an expression type. *)
Definition isEof (t : Token) : bool :=
  TokenType_eqb (type t) ty_eof && lexeme_is (lexeme t) "".

(** The messages of the errors, one constructor per message text, with the
    values the text interpolates. *)
Inductive Message :=
| CallTokenizeFirst                        (* Call tokenize() first *)
| LineNumberMissing                        (* Every line must start with a line number *)
| InvalidSyntaxNear (rest : string)        (* Invalid syntax near: '<rest>' *)
| ErrorParsingNumber (text : string)       (* Error parsing number: <text> *)
| UnexpectedToken (got : Lexeme)           (* Unexpected token <got> *)
| ExpectedButGot (keyword : string) (got : Lexeme) (* Expected <keyword> but got <got> *)
| ExpectedOperation (op : string)          (* Expected operation <op> *)
| ExpectedExpression                       (* Expected expression *)
| ExpectedLineMod                          (* Expected ; *)
| ExpectTokenOfType (expected got : TokenType)
                                           (* Expect token of type <expected> but got <got> *)
| ExpectedTokenValue (value : string) (got : Lexeme)
                                           (* Expected token value to be <value> but got <got> *)
| LinenoShouldBeNumber                     (* lineno should be a number *)
| AssignmentToConstant.                    (* Assignment to constant variable. *)

(** What a [throw] carries: [new ParseError(lineno, message)] of
    [./errors], the built-in [new Error(message)], and the [TypeError] the
    engine raises itself. *)
Inductive Exn :=
| ParseError (lineno : JsNumber) (message : Message)
| Error (message : Message)
| TypeError (message : Message).

(** The line number an error carries, if it carries one. *)
Definition errLineno (e : Exn) : option JsNumber :=
  match e with
  | ParseError l _ => Some l
  | Error _ => None
  | TypeError _ => None
  end.


(** How a call ends: it returns, it throws, or the model ran out of fuel. *)
Inductive Outcome (A : Type) :=
| Return (a : A)
| Throw (e : Exn)
| OutOfFuel.
Arguments Return {A} a.
Arguments Throw {A} e.
Arguments OutOfFuel {A}.

Definition obind {A B : Type} (c : Outcome A) (k : A -> Outcome B) : Outcome B :=
  match c with
  | Return a => k a
  | Throw e => Throw e
  | OutOfFuel => OutOfFuel
  end.

(** How a call of code that is not modelled here ends: it returns or it
    throws. *)
Inductive Result (A : Type) :=
| Ok (a : A)
| Raised (e : Exn).
Arguments Ok {A} a.
Arguments Raised {A} e.

Definition ofResult {A : Type} (r : Result A) : Outcome A :=
  match r with
  | Ok a => Return a
  | Raised e => Throw e
  end.

(** An instance of the two parameters, to run the model on concrete lines:
    a registry with three names, and a translator that returns the tokens
    it is given. *)
Definition sampleFunctions : list string := [ "ABS"; "INT"; "RND" ].

Definition tokensOf (expr : list Token) : Result (list Token) := Ok expr.

(* ------------------------------------------------------------------ *)
(** ** class Tokenizer *)

Record Tokenizer := mkTokenizer {
  stmnt : string;
  tokens : list Token;
  index : nat;
  tokenized : bool;
  lineno : JsNumber
}.

(** [constructor(stmnt)] *)
Definition newTokenizer (line : string) : Tokenizer :=
  mkTokenizer line [] 0 false (Int (-1)).

(** [this.tokens.push(tok)] *)
Definition push (tok : Token) (t : Tokenizer) : Tokenizer :=
  mkTokenizer (stmnt t) (tokens t ++ [tok])%list (index t) (tokenized t) (lineno t).

(** [this.stmnt = s] *)
Definition setStmnt (s : string) (t : Tokenizer) : Tokenizer :=
  mkTokenizer s (tokens t) (index t) (tokenized t) (lineno t).

(** [static get expressionTypes()], as the test [includes(ty)]. *)
Definition expressionTypes : list TokenType :=
  [ ty_string; ty_function; ty_operation; ty_number; ty_variable; ty_logic;
    ty_constant ].

Definition isExpressionType (ty : TokenType) : bool :=
  existsb (TokenType_eqb ty) expressionTypes.

(** [assertTokenized()] *)
Definition assertTokenized (t : Tokenizer) : Outcome unit :=
  if tokenized t then Return tt
  else Throw (ParseError (lineno t) CallTokenizeFirst).

(** [peek(n = 0)]; [n] is a lookahead distance. *)
Definition peek (n : nat) (t : Tokenizer) : Outcome Token :=
  obind (assertTokenized t) (fun _ =>
  if length (tokens t) <=? index t + n then Return eof
  else Return (nth (index t + n) (tokens t) eof)).

(** [next()]: the token and the tokenizer after the call. *)
Definition next (t : Tokenizer) : Outcome (Token * Tokenizer) :=
  obind (assertTokenized t) (fun _ =>
  if length (tokens t) <=? index t then Return (eof, t)
  else Return (nth (index t) (tokens t) eof,
               mkTokenizer (stmnt t) (tokens t) (S (index t)) (tokenized t) (lineno t))).

(** An [eat] method returns the text it ate, or [null], and may have pushed
    tokens. *)
Definition Eat : Type := Tokenizer -> Outcome (option string * Tokenizer).

(** [a() || b()] *)
Definition orElse (a b : Eat) : Eat := fun t =>
  match a t with
  | Return (None, t') => b t'
  | r => r
  end.

Definition eatLogic : Eat := fun t =>
  match truthy (reLOGIC (stmnt t)) with
  | Some m =>
      let keyword := toUpperCase (m1 m) in
      Return (Some (m0 m), push (mkToken ty_logic (LString keyword)) t)
  | None => Return (None, t)
  end.

Definition eatKeyword : Eat := fun t =>
  match truthy (reKEY (stmnt t)) with
  | Some m =>
      let keyword := toUpperCase (m1 m) in
      let t1 := push (mkToken ty_keyword (LString keyword)) t in
      if String.eqb keyword "REM" then
        Return (Some (stmnt t),
                push (mkToken ty_comment (LString (slice (stmnt t) (String.length (m0 m))))) t1)
      else Return (Some (m0 m), t1)
  | None => Return (None, t)
  end.

Definition eatConstant : Eat := fun t =>
  match truthy (reCONST (stmnt t)) with
  | Some m =>
      let fun_ := toUpperCase (m1 m) in
      Return (Some (m0 m), push (mkToken ty_constant (LString fun_)) t)
  | None => Return (None, t)
  end.

Definition eatVariable : Eat := fun t =>
  match truthy (reVAR (stmnt t)) with
  | Some m =>
      let variable := toUpperCase (m1 m) in
      Return (Some (m0 m), push (mkToken ty_variable (LString variable)) t)
  | None => Return (None, t)
  end.

Definition eatNumber : Eat := fun t =>
  match truthy (reNUM (stmnt t)) with
  | Some m =>
      if parseFloat_isNaN (m1 m) then
        Throw (ParseError (lineno t) (ErrorParsingNumber (m1 m)))
      else Return (Some (m0 m), push (mkToken ty_number (LNumber (Float (m1 m)))) t)
  | None => Return (None, t)
  end.

Definition eatOperation : Eat := fun t =>
  match truthy (reOP (stmnt t)) with
  | Some m => Return (Some (m0 m), push (mkToken ty_operation (LString (m1 m))) t)
  | None => Return (None, t)
  end.

(** The lexeme of a string token keeps its quotes, and so does the lexeme
    of a line modifier, which is built by the same template. *)
Definition quoted (s : string) : string := String dq (s ++ String dq EmptyString).

Definition eatQuote : Eat := fun t =>
  match truthy (reQUOTE (stmnt t)) with
  | Some m => Return (Some (m0 m), push (mkToken ty_string (LString (quoted (m1 m)))) t)
  | None => Return (None, t)
  end.

Definition eatLineMod : Eat := fun t =>
  match truthy (reLINEMOD (stmnt t)) with
  | Some m => Return (Some (m0 m), push (mkToken ty_linemod (LString (quoted (m1 m)))) t)
  | None => Return (None, t)
  end.

Section Registry.

(** [Object.keys(Functions)]: the names of the built-in functions, in the
    order of the object's keys.  They are plain names (ASCII letters, digits,
    underscore), so that each is a literal of the pattern [FUN]. *)
Variable FUNCTIONS : list string.

(** [FUN = new RegExp('^(' + Object.keys(Functions).join('|') + ')\\s*', 'i')];
    joining no name leaves the empty group, which matches the empty text. *)
Definition reFUN (s : string) : option Match :=
  reAlt (match FUNCTIONS with [] => [EmptyString] | _ => FUNCTIONS end) s.

Definition eatFunction : Eat := fun t =>
  match truthy (reFUN (stmnt t)) with
  | Some m =>
      let fun_ := toUpperCase (m1 m) in
      Return (Some (m0 m), push (mkToken ty_function (LString fun_)) t)
  | None => Return (None, t)
  end.

(** The chain of [||] in the loop of [tokenize]. *)
Definition eatAny : Eat :=
  orElse eatKeyword (orElse eatQuote (orElse eatLogic (orElse eatFunction
  (orElse eatConstant (orElse eatVariable (orElse eatNumber
  (orElse eatOperation eatLineMod))))))).

(** [while (this.stmnt.length) { ... }] *)
Fixpoint tokenize_loop (fuel : nat) (t : Tokenizer) : Outcome Tokenizer :=
  if isEmpty (stmnt t) then Return t
  else
    match fuel with
    | O => OutOfFuel
    | S fuel' =>
        match eatAny t with
        | Return (Some eaten, t1) =>
            tokenize_loop fuel' (setStmnt (slice (stmnt t1) (String.length eaten)) t1)
        | Return (None, t1) =>
            Throw (ParseError (lineno t1) (InvalidSyntaxNear (stmnt t1)))
        | Throw e => Throw e
        | OutOfFuel => OutOfFuel
        end
    end.

(** [tokenize()] *)
Definition tokenize (t : Tokenizer) : Outcome Tokenizer :=
  match reLINE (stmnt t) with
  | None => Throw (ParseError (lineno t) LineNumberMissing)
  | Some linem =>
      let n := Int (parseInt (m1 linem)) in
      let t1 := mkTokenizer (slice (stmnt t) (String.length (m0 linem)))
                  (tokens t ++ [mkToken ty_lineno (LNumber n)])%list
                  (index t) (tokenized t) n in
      obind (tokenize_loop (String.length (stmnt t1)) t1) (fun t2 =>
      Return (mkTokenizer (stmnt t2) (tokens t2) (index t2) true (lineno t2)))
  end.

(** [static tokenizeLine(line)] *)
Definition tokenizeLine (line : string) : Outcome (list Token) :=
  obind (tokenize (newTokenizer line)) (fun t => Return (tokens t)).

End Registry.

(* ------------------------------------------------------------------ *)
(** ** The statement nodes *)

(** Modelled from the spec: the classes of [./nodes], which the parser
    imports and which are not among the sources.  The specification calls
    them plain data carriers: a variable reference with its line number, name
    and optional subscript, and a tagged variant over the ten statement
    kinds.  Each constructor keeps the arguments the parser passes to [new],
    in their order; [null] is [None]. *)
Inductive VariableNode (Expr : Type) :=
| Variable_ (lineno : JsNumber) (name : Lexeme) (subscript : option Expr).
Arguments Variable_ {Expr} lineno name subscript.

Inductive Node (Expr : Type) :=
| PRINT (lineno : JsNumber) (expr : Expr) (linemod : bool)
| LET (lineno : JsNumber) (variable : VariableNode Expr) (expr : Expr)
| REM (lineno : JsNumber) (comment : Lexeme)
| PAUSE (lineno : JsNumber) (expr : Expr)
| INPUT (lineno : JsNumber) (expr : Expr) (variable : VariableNode Expr)
| FOR (lineno : JsNumber) (variable : VariableNode Expr) (frm to : Expr) (step : option Expr)
| NEXT (lineno : JsNumber) (variable : VariableNode Expr)
| GOTO (lineno : JsNumber) (expr : Expr)
| END (lineno : JsNumber)
| IF (lineno : JsNumber) (cond : Expr) (then_ : Node Expr) (other : option (Node Expr)).
Arguments PRINT {Expr} lineno expr linemod.
Arguments LET {Expr} lineno variable expr.
Arguments REM {Expr} lineno comment.
Arguments PAUSE {Expr} lineno expr.
Arguments INPUT {Expr} lineno expr variable.
Arguments FOR {Expr} lineno variable frm to step.
Arguments NEXT {Expr} lineno variable.
Arguments GOTO {Expr} lineno expr.
Arguments END {Expr} lineno.
Arguments IF {Expr} lineno cond then_ other.

(** The expressions a variable reference and a node hold, children first to
    last. *)
Definition exprsOfVariable {Expr : Type} (v : VariableNode Expr) : list Expr :=
  match v with
  | Variable_ _ _ (Some e) => [e]
  | Variable_ _ _ None => []
  end.

Fixpoint exprsOf {Expr : Type} (n : Node Expr) : list Expr :=
  match n with
  | PRINT _ e _ => [e]
  | LET _ v e => exprsOfVariable v ++ [e]
  | REM _ _ => []
  | PAUSE _ e => [e]
  | INPUT _ e v => e :: exprsOfVariable v
  | FOR _ v f t s => exprsOfVariable v ++ f :: t :: match s with Some e => [e] | None => [] end
  | NEXT _ v => exprsOfVariable v
  | GOTO _ e => [e]
  | END _ => []
  | IF _ c t o => c :: exprsOf t ++ match o with Some n' => exprsOf n' | None => [] end
  end%list.

(* ------------------------------------------------------------------ *)
(** ** class Parser *)

(** A method of the parser works on [this.tokenizer]: it takes the tokenizer
    and, when it returns, gives its value and the tokenizer it leaves. *)
Definition M (A : Type) : Type := Tokenizer -> Outcome (A * Tokenizer).

Definition ret {A : Type} (a : A) : M A := fun t => Return (a, t).

Definition bind {A B : Type} (c : M A) (k : A -> M B) : M B := fun t =>
  match c t with
  | Return (a, t') => k a t'
  | Throw e => Throw e
  | OutOfFuel => OutOfFuel
  end.

Definition throw {A : Type} (e : Exn) : M A := fun _ => Throw e.

(** A call that does not touch the tokenizer. *)
Definition lift {A : Type} (o : Outcome A) : M A := fun t =>
  obind o (fun a => Return (a, t)).

Notation "x <- c ;; k" := (bind c (fun x => k))
  (at level 61, c at next level, right associativity).
Notation "c ;;; k" := (bind c (fun _ => k))
  (at level 61, right associativity).

(** [this.tokenizer.peek()] and [this.tokenizer.next()] *)
Definition peekM : M Token := fun t => lift (peek 0 t) t.
Definition nextM : M Token := next.

(** [function assertType(token, expected, value = null)] *)
Definition assertType (token : Token) (expected : TokenType) (value : option string)
  : Outcome unit :=
  if negb (TokenType_eqb (type token) expected) then
    Throw (Error (ExpectTokenOfType expected (type token)))
  else
    match value with
    | Some v =>
        if negb (lexeme_is (lexeme token) v) then
          Throw (Error (ExpectedTokenValue v (lexeme token)))
        else Return tt
    | None => Return tt
    end.

(** [function getLineNo(token)] *)
Definition getLineNo (token : Token) : Outcome JsNumber :=
  obind (assertType token ty_lineno None) (fun _ =>
  match lexeme token with
  | LNumber n => Return n
  | LString _ => Throw (Error LinenoShouldBeNumber)
  end).

(** [brackets++] and [brackets--] where [brackets] is declared [const]:
    the assignment throws a [TypeError]. *)
Definition assignToConst : M unit := throw (TypeError AssignmentToConstant).

(** [acceptKeyword(keyword)]: the parameter is not read. *)
Definition acceptKeyword (keyword : string) : M (option Token) :=
  p <- peekM ;;
  if TokenType_eqb (type p) ty_keyword then (t <- nextM ;; ret (Some t))
  else ret None.

(** [expectKeyword(keyword)] *)
Definition expectKeyword (keyword : string) : M Lexeme :=
  t <- acceptKeyword keyword ;;
  match t with
  | None => p <- peekM ;; throw (Error (ExpectedButGot keyword (lexeme p)))
  | Some t => ret (lexeme t)
  end.

(** [expectComment()] *)
Definition expectComment : M Lexeme :=
  t <- nextM ;;
  if TokenType_eqb (type t) ty_comment then
    e <- nextM ;;
    lift (assertType e ty_eof None) ;;;
    ret (lexeme t)
  else
    lift (assertType t ty_eof None) ;;;
    ret (LString "").

(** [expectOperation(op)] *)
Definition expectOperation (op : string) : M Lexeme :=
  t <- nextM ;;
  lift (assertType t ty_operation None) ;;;
  if negb (lexeme_is (lexeme t) op) then throw (Error (ExpectedOperation op))
  else ret (lexeme t).

(** [acceptLineMod()] and [expectLineMod()] *)
Definition acceptLineMod : M bool :=
  p <- peekM ;;
  if TokenType_eqb (type p) ty_linemod then (nextM ;;; ret true)
  else ret false.

Definition expectLineMod : M bool :=
  b <- acceptLineMod ;;
  if negb b then throw (Error ExpectedLineMod) else ret true.

Section Parser.

(** The expression representation, and [exprToJS] of [./expr], which turns
    the tokens of an expression into it or throws. *)
Variable Expr : Type.
Variable exprToJS : list Token -> Result Expr.

(** The loop of [expectExpr()], from the state [expr] of the array. *)
Fixpoint expectExpr_loop (fuel : nat) (expr : list Token) : M (list Token) :=
  let brackets := 0%Z in
  match fuel with
  | O => fun _ => OutOfFuel
  | S fuel' =>
      p <- peekM ;;
      if isEof p then ret expr
      else
        p' <- peekM ;;
        if negb (isExpressionType (type p')) then ret expr
        else
          t <- peekM ;;
          if (brackets =? 0)%Z && (lexeme_is (lexeme t) "]" || lexeme_is (lexeme t) ")")
          then ret expr
          else
            nextM ;;;
            (if lexeme_is (lexeme t) "[" || lexeme_is (lexeme t) "(" then assignToConst
             else ret tt) ;;;
            (if lexeme_is (lexeme t) "]" || lexeme_is (lexeme t) "]" then assignToConst
             else ret tt) ;;;
            expectExpr_loop fuel' (expr ++ [t])%list
  end.

(** [expectExpr()] *)
Definition expectExpr : M Expr := fun t =>
  (expr <- expectExpr_loop (S (length (tokens t) - index t)) [] ;;
   if (length expr =? 0) then throw (Error ExpectedExpression)
   else lift (ofResult (exprToJS expr))) t.

(** [acceptSubscript()] *)
Definition acceptSubscript : M (option Expr) :=
  p <- peekM ;;
  if negb (lexeme_is (lexeme p) "[") then ret None
  else
    o <- nextM ;;
    lift (assertType o ty_operation (Some "[")) ;;;
    expr <- expectExpr ;;
    c <- nextM ;;
    lift (assertType c ty_operation (Some "]")) ;;;
    ret (Some expr).

(** [expectVariable()] *)
Definition expectVariable (lineno : JsNumber) : M (VariableNode Expr) :=
  t <- nextM ;;
  lift (assertType t ty_variable None) ;;;
  sub <- acceptSubscript ;;
  ret (Variable_ lineno (lexeme t) sub).

(** [parse()] *)
Fixpoint parse (fuel : nat) (lineno : JsNumber) : M (Node Expr) :=
  match fuel with
  | O => fun _ => OutOfFuel
  | S fuel' =>
      top <- nextM ;;
      lift (assertType top ty_keyword None) ;;;
      if lexeme_is (lexeme top) "PRINT" then
        e <- expectExpr ;;
        lm <- acceptLineMod ;;
        ret (PRINT lineno e lm)
      else if lexeme_is (lexeme top) "LET" then
        variable <- expectVariable lineno ;;
        expectOperation "=" ;;;
        e <- expectExpr ;;
        ret (LET lineno variable e)
      else if lexeme_is (lexeme top) "REM" then
        c <- expectComment ;;
        ret (REM lineno c)
      else if lexeme_is (lexeme top) "PAUSE" then
        e <- expectExpr ;;
        ret (PAUSE lineno e)
      else if lexeme_is (lexeme top) "INPUT" then
        expr <- expectExpr ;;
        expectLineMod ;;;
        v <- expectVariable lineno ;;
        ret (INPUT lineno expr v)
      else if lexeme_is (lexeme top) "FOR" then
        variable <- expectVariable lineno ;;
        expectOperation "=" ;;;
        frm <- expectExpr ;;
        expectKeyword "TO" ;;;
        to <- expectExpr ;;
        k <- acceptKeyword "STEP" ;;
        step <- match k with
                | Some _ => (e <- expectExpr ;; ret (Some e))
                | None => ret None
                end ;;
        ret (FOR lineno variable frm to step)
      else if lexeme_is (lexeme top) "NEXT" then
        v <- expectVariable lineno ;;
        ret (NEXT lineno v)
      else if lexeme_is (lexeme top) "GOTO" then
        e <- expectExpr ;;
        ret (GOTO lineno e)
      else if lexeme_is (lexeme top) "END" then
        ret (END lineno)
      else if lexeme_is (lexeme top) "IF" then
        cond <- expectExpr ;;
        expectKeyword "THEN" ;;;
        then_ <- parse fuel' lineno ;;
        k <- acceptKeyword "else" ;;
        other <- match k with
                 | Some _ => (n <- parse fuel' lineno ;; ret (Some n))
                 | None => ret None
                 end ;;
        ret (IF lineno cond then_ other)
      else throw (Error (UnexpectedToken (lexeme top)))
  end.

(** The statement parser on a tokenized line whose line-number token has
    been read: [new Parser(t, lineno).parse()]. *)
Definition parseStatement (lineno : JsNumber) (t : Tokenizer) : Outcome (Node Expr) :=
  obind (parse (S (length (tokens t) - index t)) lineno t) (fun r => Return (fst r)).

Variable FUNCTIONS : list string.

(** [static parseLine(line)] *)
Definition parseLine (line : string) : Outcome (Node Expr) :=
  obind (tokenize FUNCTIONS (newTokenizer line)) (fun t =>
  obind (next t) (fun r =>
  obind (getLineNo (fst r)) (fun lineno =>
  parseStatement lineno (snd r)))).

End Parser.

Arguments parseLine {Expr} exprToJS FUNCTIONS line.
Arguments parseStatement {Expr} exprToJS lineno t.
Arguments parse {Expr} exprToJS fuel lineno.
Arguments expectExpr {Expr} exprToJS.
Arguments expectVariable {Expr} exprToJS lineno.
Arguments acceptSubscript {Expr} exprToJS.

(** A tokenized line, given by its tokens, with the cursor after the line
    number: what [parseLine] hands to the parser. *)
Definition tokenizerAt (lineno : Z) (toks : list Token) : Tokenizer :=
  mkTokenizer EmptyString (mkToken ty_lineno (LNumber (Int lineno)) :: toks) 1 true (Int lineno).

Definition kw (s : string) : Token := mkToken ty_keyword (LString s).
Definition var (s : string) : Token := mkToken ty_variable (LString s).
Definition op (s : string) : Token := mkToken ty_operation (LString s).
Definition num (s : string) : Token := mkToken ty_number (LNumber (Float s)).
Definition str (s : string) : Token := mkToken ty_string (LString (quoted s)).

(* ------------------------------------------------------------------ *)
(** ** The vocabulary of the properties *)

(** The pattern classes, in the order the loop tries them. *)
Inductive PatternClass :=
| KeyC | QuoteC | LogicC | FunC | ConstC | VarC | NumC | OpC | LineModC.

(** The classes whose lexeme is put in upper case: keywords, the logical
    operators, function names, constants and variables. *)
Definition isWord (c : PatternClass) : bool :=
  match c with
  | KeyC | LogicC | FunC | ConstC | VarC => true
  | QuoteC | NumC | OpC | LineModC => false
  end.

(** The match is the keyword [REM]. *)
Definition isRem (c : PatternClass) (m : Match) : bool :=
  match c with
  | KeyC => String.eqb (toUpperCase (m1 m)) "REM"
  | _ => false
  end.

(** What precedes group 1 in the match. *)
Definition lead (c : PatternClass) : string :=
  match c with
  | QuoteC => String dq EmptyString
  | _ => EmptyString
  end.

(** The tokens the [eat] method of a class pushes for a match at [s], and
    the text it returns. *)
Definition tokensOfMatch (c : PatternClass) (m : Match) (s : string) : list Token :=
  match c with
  | KeyC =>
      if String.eqb (toUpperCase (m1 m)) "REM" then
        [ mkToken ty_keyword (LString (toUpperCase (m1 m)));
          mkToken ty_comment (LString (slice s (String.length (m0 m)))) ]
      else [ mkToken ty_keyword (LString (toUpperCase (m1 m))) ]
  | QuoteC => [ mkToken ty_string (LString (quoted (m1 m))) ]
  | LogicC => [ mkToken ty_logic (LString (toUpperCase (m1 m))) ]
  | FunC => [ mkToken ty_function (LString (toUpperCase (m1 m))) ]
  | ConstC => [ mkToken ty_constant (LString (toUpperCase (m1 m))) ]
  | VarC => [ mkToken ty_variable (LString (toUpperCase (m1 m))) ]
  | NumC => [ mkToken ty_number (LNumber (Float (m1 m))) ]
  | OpC => [ mkToken ty_operation (LString (m1 m)) ]
  | LineModC => [ mkToken ty_linemod (LString (quoted (m1 m))) ]
  end.

Definition eatenOf (c : PatternClass) (m : Match) (s : string) : string :=
  if isRem c m then s else m0 m.

(** [this.tokens.push] of several tokens in a row. *)
Definition pushAll (toks : list Token) (t : Tokenizer) : Tokenizer :=
  mkTokenizer (stmnt t) (tokens t ++ toks)%list (index t) (tokenized t) (lineno t).

Section Patterns.

Variable FUNCTIONS : list string.

(** The first class of the chain that matches at [s], with its match. *)
Definition firstMatch (s : string) : option (PatternClass * Match) :=
  match truthy (reKEY s) with Some m => Some (KeyC, m) | None =>
  match truthy (reQUOTE s) with Some m => Some (QuoteC, m) | None =>
  match truthy (reLOGIC s) with Some m => Some (LogicC, m) | None =>
  match truthy (reFUN FUNCTIONS s) with Some m => Some (FunC, m) | None =>
  match truthy (reCONST s) with Some m => Some (ConstC, m) | None =>
  match truthy (reVAR s) with Some m => Some (VarC, m) | None =>
  match truthy (reNUM s) with Some m => Some (NumC, m) | None =>
  match truthy (reOP s) with Some m => Some (OpC, m) | None =>
  match truthy (reLINEMOD s) with Some m => Some (LineModC, m) | None =>
  None
  end end end end end end end end end.

(** No pattern class matches at [s]. *)
Definition noPatternMatches (s : string) : Prop :=
  truthy (reKEY s) = None /\ truthy (reQUOTE s) = None /\
  truthy (reLOGIC s) = None /\ truthy (reFUN FUNCTIONS s) = None /\
  truthy (reCONST s) = None /\ truthy (reVAR s) = None /\
  truthy (reNUM s) = None /\ truthy (reOP s) = None /\
  truthy (reLINEMOD s) = None.

(** The positions the loop of [tokenize] visits when it starts at [s]:
    [s] itself and, when [s] is not empty and a turn of the loop eats some
    text there, the positions it visits from the rest. *)
Inductive scanPosition : string -> string -> Prop :=
| scan_here (s : string) : scanPosition s s
| scan_eat (s eaten s' : string) (t1 : Tokenizer) :
    isEmpty s = false ->
    eatAny FUNCTIONS (newTokenizer s) = Return (Some eaten, t1) ->
    scanPosition (slice s (String.length eaten)) s' ->
    scanPosition s s'.

(** Two statement texts that differ only in the letter case of their
    keywords and identifiers: they are read along the first one, pattern
    by pattern.  Where a word pattern matches, the second text has a
    spelling of the same match; where the keyword is [REM], the comment
    that follows is the same text; where a literal pattern matches (string,
    number, operator, line modifier), the second text has the same match;
    where nothing matches, the texts are the same. *)
Inductive SameButCase : string -> string -> Prop :=
| sbc_end : SameButCase EmptyString EmptyString
| sbc_unrecognized (s : string) :
    firstMatch s = None -> SameButCase s s
| sbc_comment (s p : string) (c : PatternClass) (m : Match) :
    firstMatch s = Some (c, m) -> isRem c m = true ->
    toUpperCase p = toUpperCase (m0 m) ->
    SameButCase s (p ++ slice s (String.length (m0 m)))
| sbc_word (s p r : string) (c : PatternClass) (m : Match) :
    firstMatch s = Some (c, m) -> isWord c = true -> isRem c m = false ->
    toUpperCase p = toUpperCase (m0 m) ->
    SameButCase (slice s (String.length (m0 m))) r ->
    SameButCase s (p ++ r)
| sbc_literal (s r : string) (c : PatternClass) (m : Match) :
    firstMatch s = Some (c, m) -> isWord c = false ->
    SameButCase (slice s (String.length (m0 m))) r ->
    SameButCase s (m0 m ++ r).

End Patterns.

(** The state of the loop after a turn that matched. *)
Definition afterMatch (c : PatternClass) (m : Match) (t : Tokenizer) : Tokenizer :=
  mkTokenizer (slice (stmnt t) (String.length (eatenOf c m (stmnt t))))
    (tokens t ++ tokensOfMatch c m (stmnt t))%list (index t) (tokenized t) (lineno t).

(** A token the loop of [tokenize] can push: not the line number, not the
    end of input. *)
Definition isLoopToken (tok : Token) : Prop :=
  type tok <> ty_eof /\ type tok <> ty_lineno.

(** A match at [s]: group 1 sits in the match after [pre], and the match is
    a prefix of [s]. *)
Definition shaped (pre s : string) (m : Match) : Prop :=
  exists tail r, m0 m = pre ++ m1 m ++ tail /\ s = m0 m ++ r.

(** The upper case of the two parts of a split, and of a match. *)
Definition upPair (r : string * string) : string * string :=
  (toUpperCase (fst r), toUpperCase (snd r)).

Definition upMatch (m : Match) : Match :=
  mkMatch (toUpperCase (m0 m)) (toUpperCase (m1 m)).

(** [next()] called [k] times in a row: the tokens it returned and the
    tokenizer it leaves. *)
Fixpoint nextTimes (k : nat) (t : Tokenizer) : Outcome (list Token * Tokenizer) :=
  match k with
  | O => Return ([], t)
  | S k' =>
      obind (next t) (fun r =>
      obind (nextTimes k' (snd r)) (fun r' =>
      Return (fst r :: fst r', snd r')))
  end.

(** [this.index++] *)
Definition advance (t : Tokenizer) : Tokenizer :=
  mkTokenizer (stmnt t) (tokens t) (S (index t)) (tokenized t) (lineno t).

(** The tokens that are left to read. *)
Definition remaining (t : Tokenizer) : nat := length (tokens t) - index t.

(** A method of the parser only moves the cursor forward. *)
Definition Adv (t t' : Tokenizer) : Prop :=
  tokens t' = tokens t /\ tokenized t' = tokenized t /\ index t <= index t'.

Section ParserVocabulary.

Variable Expr : Type.
Variable exprToJS : list Token -> Result Expr.

(** An error of the parser: it carries no line number, or it is the
    translator that threw it. *)
Definition parserError (e : Exn) : Prop :=
  errLineno e = None \/ exists ts, exprToJS ts = Raised e.

(** An expression that is the translation of at least one token. *)
Definition translated (e : Expr) : Prop :=
  exists ts, ts <> [] /\ exprToJS ts = Ok e.

(** From a tokenized state that satisfies [P], the method [c] returns with
    the cursor moved forward only and [Q] true of the state before, the value
    and the state after, or it throws an error of the parser; it does not
    run out of fuel. *)
Definition Spec {A : Type} (P : Tokenizer -> Prop) (c : M A)
  (Q : Tokenizer -> A -> Tokenizer -> Prop) : Prop :=
  forall t, tokenized t = true -> P t ->
  match c t with
  | Return (a, t') => Adv t t' /\ Q t a t'
  | Throw e => parserError e
  | OutOfFuel => False
  end.

Definition translatedOpt (o : option Expr) : Prop :=
  match o with
  | Some e => translated e
  | None => True
  end.

Definition nodeOk (n : Node Expr) : Prop := Forall translated (exprsOf n).

Definition nodeOptOk (o : option (Node Expr)) : Prop :=
  match o with
  | Some n => nodeOk n
  | None => True
  end.

End ParserVocabulary.

Arguments Spec {Expr} exprToJS {A} P c Q.
Arguments parserError {Expr} exprToJS e.
Arguments translated {Expr} exprToJS e.
Arguments translatedOpt {Expr} exprToJS o.
Arguments nodeOk {Expr} exprToJS n.
Arguments nodeOptOk {Expr} exprToJS o.

(* ------------------------------------------------------------------ *)
(** ** More vocabulary: the registry, the lexemes, the scan *)

(** A character of a plain name: a letter, a digit or the underscore. *)
Definition isNameChar (c : ascii) : bool :=
  isLetter c || isDigit c || Ascii.eqb c "_".

Fixpoint allChars (p : ascii -> bool) (s : string) : bool :=
  match s with
  | EmptyString => true
  | String c r => p c && allChars p r
  end.

(** The keys of [Functions] are plain names. *)
Definition plainRegistry (FUNCTIONS : list string) : Prop :=
  Forall (fun name => allChars isNameChar name = true) FUNCTIONS.

(** The alternatives of the pattern [FUN]. *)
Definition funAlternatives (FUNCTIONS : list string) : list string :=
  match FUNCTIONS with [] => [EmptyString] | _ => FUNCTIONS end.

(** The operators of two characters, and all the operators of [OP]. *)
Definition OPERATORS2 : list string := [ "<>"; ">="; "<=" ].

Definition OPERATORS : list string :=
  OPERATORS2 ++ [ ","; "+"; "-"; "*"; "/"; "%"; "="; "<"; ">"; "("; ")"; "]"; "[" ].

(** A decimal literal: digits, then possibly a point and digits. *)
Definition isDecimalLiteral (s : string) : bool :=
  let (ds, r) := span isDigit s in
  negb (isEmpty ds) &&
  match r with
  | EmptyString => true
  | String d r' => Ascii.eqb d "." && negb (isEmpty r') && allChars isDigit r'
  end.

(** What the lexeme of a token of each type is, on a tokenized line. *)
Definition wellFormed (FUNCTIONS : list string) (tok : Token) : Prop :=
  match type tok with
  | ty_lineno => exists z, (0 <= z)%Z /\ lexeme tok = LNumber (Int z)
  | ty_keyword => exists k, In k KEYWORDS /\ lexeme tok = LString k
  | ty_comment => exists text, lexeme tok = LString text
  | ty_string => exists body, lexeme tok = LString (quoted body)
  | ty_number =>
      exists literal, isDecimalLiteral literal = true /\
                      lexeme tok = LNumber (Float literal)
  | ty_variable =>
      exists c ds, isUpper c = true /\ allChars isDigit ds = true /\
                   lexeme tok = LString (String c ds)
  | ty_function =>
      exists name, In name (funAlternatives FUNCTIONS) /\
                   lexeme tok = LString (toUpperCase name)
  | ty_constant => exists k, In k CONSTANTS /\ lexeme tok = LString k
  | ty_operation => exists o, In o OPERATORS /\ lexeme tok = LString o
  | ty_logic => lexeme tok = LString "AND" \/ lexeme tok = LString "OR"
  | ty_linemod => lexeme tok = LString (quoted ";")
  | ty_eof => False
  end.

(** The keyword token [REM]. *)
Definition isRemToken (tok : Token) : bool :=
  TokenType_eqb (type tok) ty_keyword && lexeme_is (lexeme tok) "REM".

(** In a list of tokens, [REM] is followed by one comment token, which is
    the last token, and there is no other comment token. *)
Fixpoint commentsFollowRem (toks : list Token) : bool :=
  match toks with
  | [] => true
  | tok :: rest =>
      if isRemToken tok then
        match rest with
        | [c] => TokenType_eqb (type c) ty_comment
        | _ => false
        end
      else negb (TokenType_eqb (type tok) ty_comment) && commentsFollowRem rest
  end.

(** A line and the tokenizer that [tokenize] returns for it with the sample
    registry. *)
Definition sampleLine : string := "10 if a1 <> 2.5 then rem  so it goes".

Definition sampleTokenized : Tokenizer :=
  mkTokenizer EmptyString
    [ mkToken ty_lineno (LNumber (Int 10)); kw "IF"; var "A1"; op "<>"; num "2.5";
      kw "THEN"; kw "REM"; mkToken ty_comment (LString "so it goes") ]
    0 true (Int 10).


(** The tokens from the cursor on. *)
Definition unread (t : Tokenizer) : list Token := skipn (index t) (tokens t).

(** [this.index = i] *)
Definition atIndex (i : nat) (t : Tokenizer) : Tokenizer :=
  mkTokenizer (stmnt t) (tokens t) i (tokenized t) (lineno t).

(** The tests of the scan of [expectExpr] on a token: it is not the sentinel
    and its type is an expression type; its lexeme is an opening bracket or
    parenthesis; a closing one. *)
Definition scannable (tok : Token) : bool :=
  negb (isEof tok) && isExpressionType (type tok).

Definition isOpener (tok : Token) : bool :=
  lexeme_is (lexeme tok) "[" || lexeme_is (lexeme tok) "(".

Definition isCloser (tok : Token) : bool :=
  lexeme_is (lexeme tok) "]" || lexeme_is (lexeme tok) ")".

(** A token the scan takes into the expression. *)
Definition scanned (tok : Token) : bool :=
  scannable tok && negb (isOpener tok) && negb (isCloser tok).

(** The longest run of such tokens at the head of a list, and whether the
    token after the run is an opening bracket that the scan reads. *)
Fixpoint scanRun (toks : list Token) : list Token :=
  match toks with
  | tok :: rest => if scanned tok then tok :: scanRun rest else []
  | [] => []
  end.

Fixpoint stopsAtOpener (toks : list Token) : bool :=
  match toks with
  | tok :: rest =>
      if scanned tok then stopsAtOpener rest
      else scannable tok && negb (isCloser tok) && isOpener tok
  | [] => false
  end.

(** The tokens of a list after its run of scanned tokens. *)
Definition afterRun (toks : list Token) : list Token :=
  skipn (length (scanRun toks)) toks.

(** The keywords that begin a statement. *)
Definition STATEMENTS : list string :=
  [ "PRINT"; "LET"; "REM"; "PAUSE"; "INPUT"; "FOR"; "NEXT"; "GOTO"; "END"; "IF" ].

(** The token at the head of a list is a line modifier. *)
Definition headIsLineMod (toks : list Token) : bool :=
  match toks with
  | tok :: _ => TokenType_eqb (type tok) ty_linemod
  | [] => false
  end.

(** The line numbers a node holds: its own, the ones of its variable
    references and the ones of the statements inside it. *)
Definition linenoOfVariable {Expr : Type} (v : VariableNode Expr) : JsNumber :=
  match v with
  | Variable_ l _ _ => l
  end.

Fixpoint linenosOf {Expr : Type} (n : Node Expr) : list JsNumber :=
  match n with
  | PRINT l _ _ => [l]
  | LET l v _ => [l; linenoOfVariable v]
  | REM l _ => [l]
  | PAUSE l _ => [l]
  | INPUT l _ v => [l; linenoOfVariable v]
  | FOR l v _ _ _ => [l; linenoOfVariable v]
  | NEXT l v => [l; linenoOfVariable v]
  | GOTO l _ => [l]
  | END l => [l]
  | IF l _ t o => l :: linenosOf t ++ match o with Some n' => linenosOf n' | None => [] end
  end%list.

(** The class of a node, by its name in [./nodes]. *)
Definition kindOf {Expr : Type} (n : Node Expr) : string :=
  match n with
  | PRINT _ _ _ => "PRINT"
  | LET _ _ _ => "LET"
  | REM _ _ => "REM"
  | PAUSE _ _ => "PAUSE"
  | INPUT _ _ _ => "INPUT"
  | FOR _ _ _ _ _ => "FOR"
  | NEXT _ _ => "NEXT"
  | GOTO _ _ => "GOTO"
  | END _ => "END"
  | IF _ _ _ _ => "IF"
  end.

(** A method that returns has left the tokens as they were and has not moved
    the cursor back. *)
Definition Mono {A : Type} (c : M A) : Prop :=
  forall t a t', tokenized t = true -> c t = Return (a, t') -> Adv t t'.

(** A text that begins with a character with which no pattern begins when
    the registry holds plain names: it is not white space, not a character of
    a name, not an operator character and not the semicolon, and if it is the
    double quote no closing quote ends the literal. *)
Definition beginsNoToken (s : string) : bool :=
  match s with
  | String c _ =>
      negb (isSpace c || isNameChar c || isOpChar c || Ascii.eqb c ";") &&
      match reQUOTE s with Some _ => false | None => true end
  | EmptyString => false
  end.

(** A comment line and the tokenizer that [tokenize] returns for it. *)
Definition sampleRemLine : string := "20 rem  a note".

Definition sampleRemTokenized : Tokenizer :=
  mkTokenizer EmptyString
    [ mkToken ty_lineno (LNumber (Int 20)); kw "REM";
      mkToken ty_comment (LString "a note") ]
    0 true (Int 20).

(** The line modifier token. *)
Definition linemod : Token := mkToken ty_linemod (LString (quoted ";")).

(* ------------------------------------------------------------------ *)
(** ** More vocabulary: the words, the errors of the parser, the operands *)

(** The type of the token that the [eat] method of a word class pushes. *)
Definition wordType (c : PatternClass) : TokenType :=
  match c with
  | KeyC => ty_keyword
  | LogicC => ty_logic
  | FunC => ty_function
  | ConstC => ty_constant
  | VarC => ty_variable
  | QuoteC => ty_string
  | NumC => ty_number
  | OpC => ty_operation
  | LineModC => ty_linemod
  end.

(** The types of the tokens whose lexeme is put in upper case. *)
Definition isWordType (ty : TokenType) : bool :=
  match ty with
  | ty_keyword | ty_logic | ty_function | ty_constant | ty_variable => true
  | _ => false
  end.

(** A token that [peek] or [next] returns on the tokens [toks]: the sentinel
    or one of them. *)
Definition found (toks : list Token) (tok : Token) : Prop :=
  tok = eof \/ In tok toks.

Section ParserErrors.

Variable Expr : Type.
Variable exprToJS : list Token -> Result Expr.

(** The tokens of an operand: a run of scanned tokens of the token array,
    one at least. *)
Definition isRunOf (toks ts : list Token) : Prop :=
  (exists before after, toks = before ++ ts ++ after)%list /\
  ts <> [] /\ forallb scanned ts = true.

(** An operand of a node: the translation of a run of scanned tokens of the
    token array. *)
Definition operand (toks : list Token) (e : Expr) : Prop :=
  exists ts, isRunOf toks ts /\ exprToJS ts = Ok e.

Definition operandOpt (toks : list Token) (o : option Expr) : Prop :=
  match o with
  | Some e => operand toks e
  | None => True
  end.

(** The errors of the statement parser on the tokens [toks], each with the
    token it found, which is a token of the array or the sentinel:
    - [assertType] on a token of another type than the one expected, and on
      a token of another value than the closing square bracket expected;
    - the end of [parse] on a keyword that begins no statement;
    - [expectKeyword] on a token that is no keyword;
    - [expectOperation] on an operation other than [=];
    - [expectExpr] on a token that the scan does not take;
    - [expectLineMod] on a token that is no line modifier;
    all of them a plain [Error] with its message; then the [TypeError] of
    the engine where the scan reads an opening bracket or parenthesis, and
    whatever the translator throws on a run of scanned tokens. *)
Inductive parserThrow (toks : list Token) : Exn -> Prop :=
| pt_type (expected : TokenType) (tok : Token) :
    found toks tok ->
    In expected [ty_keyword; ty_operation; ty_variable; ty_eof] ->
    type tok <> expected ->
    parserThrow toks (Error (ExpectTokenOfType expected (type tok)))
| pt_value (tok : Token) :
    found toks tok -> type tok = ty_operation ->
    lexeme_is (lexeme tok) "]" = false ->
    parserThrow toks (Error (ExpectedTokenValue "]" (lexeme tok)))
| pt_unexpected (tok : Token) :
    found toks tok -> type tok = ty_keyword ->
    forallb (fun s => negb (lexeme_is (lexeme tok) s)) STATEMENTS = true ->
    parserThrow toks (Error (UnexpectedToken (lexeme tok)))
| pt_keyword (keyword : string) (tok : Token) :
    found toks tok -> In keyword ["TO"; "THEN"] ->
    type tok <> ty_keyword ->
    parserThrow toks (Error (ExpectedButGot keyword (lexeme tok)))
| pt_operation (tok : Token) :
    found toks tok -> type tok = ty_operation ->
    lexeme_is (lexeme tok) "=" = false ->
    parserThrow toks (Error (ExpectedOperation "="))
| pt_expression (tok : Token) :
    found toks tok -> scanned tok = false ->
    parserThrow toks (Error ExpectedExpression)
| pt_linemod (tok : Token) :
    found toks tok -> type tok <> ty_linemod ->
    parserThrow toks (Error ExpectedLineMod)
| pt_const (tok : Token) :
    In tok toks -> isOpener tok = true ->
    parserThrow toks (TypeError AssignmentToConstant)
| pt_translator (ts : list Token) (e : Exn) :
    isRunOf toks ts -> exprToJS ts = Raised e ->
    parserThrow toks e.

(** On a tokenized tokenizer with the tokens [toks], the method [c] leaves
    the tokens as they are and returns a value that satisfies [Q], or it
    throws an error of the parser. *)
Definition SpecT {A : Type} (toks : list Token) (c : M A) (Q : A -> Prop) : Prop :=
  forall t, tokenized t = true -> tokens t = toks ->
  match c t with
  | Return (a, t') => tokens t' = toks /\ tokenized t' = true /\ Q a
  | Throw e => parserThrow toks e
  | OutOfFuel => True
  end.

End ParserErrors.

Arguments operand {Expr} exprToJS toks e.
Arguments operandOpt {Expr} exprToJS toks o.
Arguments parserThrow {Expr} exprToJS toks _.
Arguments SpecT {Expr} exprToJS {A} toks c Q.

Section OperandPositions.

Variable Expr : Type.
Variable exprToJS : list Token -> Result Expr.

(** The tokens of an operand that the parser reads whole and the translator
    accepts: scanned tokens, one at least. *)
Definition Run (run : list Token) : Prop :=
  forallb scanned run = true /\ run <> [] /\ exists e, exprToJS run = Ok e.

(** A scan that takes no token and throws no [TypeError]: there is no
    token, or the first one is not scanned and is no opening bracket or
    parenthesis that the scan reads. *)
Definition emptyScan (rest : list Token) : Prop :=
  scanRun rest = [] /\ stopsAtOpener rest = false.

(** The tokens after a run: the first one stops the scan and is no opening
    bracket or parenthesis that the scan reads. *)
Definition stops (rest : list Token) : Prop :=
  match rest with [] => True | y :: _ => scanned y = false end /\
  stopsAtOpener rest = false.

(** The tokens of a variable reference that [expectVariable] reads whole:
    a variable alone, or a variable and its subscript. *)
Inductive VarRef : list Token -> Prop :=
| vr_plain (x : string) : VarRef [var x]
| vr_subscript (x : string) (inner : list Token) :
    Run inner -> VarRef (var x :: op "[" :: inner ++ [op "]"])%list.

(** The tokens of a statement that [parse] reads whole when a keyword
    follows it. *)
Definition Parses (s : list Token) : Prop :=
  forall (fuel : nat) (ln : JsNumber) (t : Tokenizer) (b : string) (rest : list Token),
    tokenized t = true -> unread t = (s ++ kw b :: rest)%list -> length s <= fuel ->
    exists n, parse exprToJS fuel ln t = Return (n, atIndex (index t + length s) t).

(** The tokens that lead [parse] to an operand, that is to a call of
    [expectExpr]: one constructor for each call in [parse],
    [acceptSubscript] and [expectVariable], in the order of the cases of
    [parse].  The keywords at the places of [TO], [STEP], [THEN] and [ELSE]
    are any keywords, as [acceptKeyword] has it. *)
Inductive Leads : list Token -> Prop :=
| leads_keyword (k : string) :
    In k ["PRINT"; "PAUSE"; "INPUT"; "GOTO"; "IF"] -> Leads [kw k]
| leads_subscript (k x : string) :
    In k ["LET"; "FOR"; "NEXT"] -> Leads [kw k; var x; op "["]
| leads_assigned (k : string) (v : list Token) :
    In k ["LET"; "FOR"] -> VarRef v -> Leads (kw k :: v ++ [op "="])%list
| leads_input (run : list Token) (l : Lexeme) (x : string) :
    Run run ->
    Leads (kw "INPUT" :: run ++ [mkToken ty_linemod l; var x; op "["])%list
| leads_to (v frm : list Token) (a : string) :
    VarRef v -> Run frm ->
    Leads (kw "FOR" :: v ++ op "=" :: frm ++ [kw a])%list
| leads_step (v frm to : list Token) (a b : string) :
    VarRef v -> Run frm -> Run to ->
    Leads (kw "FOR" :: v ++ op "=" :: frm ++ kw a :: to ++ [kw b])%list
| leads_then (cond pre : list Token) (a : string) :
    Run cond -> Leads pre ->
    Leads (kw "IF" :: cond ++ kw a :: pre)%list
| leads_else (cond s pre : list Token) (a b : string) :
    Run cond -> Parses s -> Leads pre ->
    Leads (kw "IF" :: cond ++ kw a :: s ++ kw b :: pre)%list.

End OperandPositions.

Arguments Run {Expr} exprToJS run.
Arguments VarRef {Expr} exprToJS _.
Arguments Parses {Expr} exprToJS s.
Arguments Leads {Expr} exprToJS _.

(* ------------------------------------------------------------------ *)
(** ** The model on some lines *)

Example reLINE_ex : reLINE "  10  PRINT" = Some (mkMatch "  10  " "10").
Proof. reflexivity. Qed.
Example reKEY_ex : reKEY "print  x" = Some (mkMatch "print  " "print").
Proof. reflexivity. Qed.
Example reQUOTE_ex :
  reQUOTE (String dq "a\" ++ String dq "b" ++ String dq " ; X")
  = Some (mkMatch (String dq "a\" ++ String dq "b" ++ String dq " ") ("a\" ++ String dq "b")).
Proof. reflexivity. Qed.
Example reNUM_ex : reNUM "12.x" = Some (mkMatch "12" "12").
Proof. reflexivity. Qed.
Example reNUM_ex2 : reNUM "12.50 +" = Some (mkMatch "12.50 " "12.50").
Proof. reflexivity. Qed.
Example reVAR_ex : reVAR "a1$ = 3" = Some (mkMatch "a1$ " "a1").
Proof. reflexivity. Qed.
Example reOP_ex : reOP "<>B" = Some (mkMatch "<>" "<>").
Proof. reflexivity. Qed.

Example tokenizeLine_ex1 :
  tokenizeLine sampleFunctions "10 let a1 = abs(b[1], 2.5) <> pi"
  = Return [ mkToken ty_lineno (LNumber (Int 10)); mkToken ty_keyword (LString "LET");
             mkToken ty_variable (LString "A1"); mkToken ty_operation (LString "=");
             mkToken ty_function (LString "ABS"); mkToken ty_operation (LString "(");
             mkToken ty_variable (LString "B"); mkToken ty_operation (LString "[");
             mkToken ty_number (LNumber (Float "1")); mkToken ty_operation (LString "]");
             mkToken ty_operation (LString ","); mkToken ty_number (LNumber (Float "2.5"));
             mkToken ty_operation (LString ")"); mkToken ty_operation (LString "<>");
             mkToken ty_constant (LString "PI") ].
Proof. reflexivity. Qed.

Example tokenizeLine_ex2 :
  tokenizeLine sampleFunctions "10 PRINT #"
  = Throw (ParseError (Int 10) (InvalidSyntaxNear "#")).
Proof. reflexivity. Qed.

Example parseLine_ex1 :
  parseLine tokensOf sampleFunctions "10 LET A = B + 1"
  = Return (LET (Int 10) (Variable_ (Int 10) (LString "A") None) [var "B"; op "+"; num "1"]).
Proof. reflexivity. Qed.

Example parseLine_ex2 :
  parseLine tokensOf sampleFunctions "10 FOR I = 1 TO 10 STEP 2"
  = Return (FOR (Int 10) (Variable_ (Int 10) (LString "I") None) [num "1"] [num "10"]
              (Some [num "2"])).
Proof. reflexivity. Qed.

Example parseLine_ex3 :
  parseLine tokensOf sampleFunctions "10 LET A = (1)"
  = Throw (TypeError AssignmentToConstant).
Proof. reflexivity. Qed.

(* ------------------------------------------------------------------ *)
(** ** Characters: case and classes *)

Ltac all_chars c := destruct c as [[] [] [] [] [] [] [] []]; try reflexivity.

Lemma upper_idem (c : ascii) : upper (upper c) = upper c.
Proof. all_chars c. Qed.

Lemma isSpace_upper (c : ascii) : isSpace (upper c) = isSpace c.
Proof. all_chars c. Qed.

Lemma isDigit_upper (c : ascii) : isDigit (upper c) = isDigit c.
Proof. all_chars c. Qed.

Lemma isLetter_upper (c : ascii) : isLetter (upper c) = isLetter c.
Proof. all_chars c. Qed.

Lemma isLineTerminator_upper (c : ascii) : isLineTerminator (upper c) = isLineTerminator c.
Proof. all_chars c. Qed.

Lemma isOpChar_upper (c : ascii) : isOpChar (upper c) = isOpChar c.
Proof. all_chars c. Qed.

Lemma isLower_letter (c : ascii) : isLower c = true -> isLetter c = true.
Proof. unfold isLetter. intros ->. reflexivity. Qed.

Lemma upper_cases (c : ascii) :
  (isLower c = false /\ upper c = c) \/ (isLower c = true /\ isUpper (upper c) = true).
Proof. all_chars c; (left; split; reflexivity) || (right; split; reflexivity). Qed.

Lemma upper_nonletter (c : ascii) : isLetter c = false -> upper c = c.
Proof.
  intros H. destruct (upper_cases c) as [[_ E] | [L _]]; [exact E|].
  apply isLower_letter in L. congruence.
Qed.

(** Two characters with the same upper case, one of which is not a letter,
    are the same character. *)
Lemma upper_nonletter_inj (c d : ascii) :
  upper c = upper d -> isLetter c = false -> c = d.
Proof.
  intros E H. rewrite (upper_nonletter c H) in E.
  destruct (upper_cases d) as [[_ E'] | [_ U]]; [congruence|].
  rewrite <- E in U. unfold isLetter in H. rewrite U in H.
  rewrite orb_true_r in H. discriminate.
Qed.

Lemma eqb_upper_nonletter (c d : ascii) :
  isLetter d = false -> Ascii.eqb (upper c) d = Ascii.eqb c d.
Proof.
  intros H. destruct (Ascii.eqb_spec c d) as [->|N].
  - rewrite (upper_nonletter d H). apply Ascii.eqb_refl.
  - destruct (Ascii.eqb_spec (upper c) d) as [E|]; [|reflexivity].
    exfalso. apply N. symmetry. apply upper_nonletter_inj; [|exact H].
    rewrite (upper_nonletter d H). symmetry. exact E.
Qed.

(* ------------------------------------------------------------------ *)
(** ** Strings: prefixes, slices and case *)

Lemma isEmpty_true (s : string) : isEmpty s = true -> s = EmptyString.
Proof. destruct s; [reflexivity|discriminate]. Qed.

Lemma isEmpty_length (s : string) : isEmpty s = false -> 0 < String.length s.
Proof. destruct s; [discriminate|simpl; lia]. Qed.

Lemma append_nil_r (s : string) : s ++ EmptyString = s.
Proof. induction s; simpl; congruence. Qed.

Lemma append_assoc (a b c : string) : (a ++ b) ++ c = a ++ (b ++ c).
Proof. induction a; simpl; congruence. Qed.

Lemma append_length (a b : string) :
  String.length (a ++ b) = String.length a + String.length b.
Proof. induction a; simpl; congruence. Qed.

Lemma slice_app (a b : string) : slice (a ++ b) (String.length a) = b.
Proof. induction a; simpl; [destruct b; reflexivity|exact IHa]. Qed.

Lemma slice_all (s : string) : slice s (String.length s) = EmptyString.
Proof. rewrite <- (append_nil_r s) at 1. apply slice_app. Qed.

Lemma slice_length (s : string) (n : nat) :
  String.length (slice s n) = String.length s - n.
Proof.
  revert s. induction n; intros s; simpl; [lia|].
  destruct s; simpl; [reflexivity|apply IHn].
Qed.

(** Two splits of one string at the same length are the same split. *)
Lemma append_inj (a a' b b' : string) :
  a ++ b = a' ++ b' -> String.length a = String.length a' -> a = a' /\ b = b'.
Proof.
  revert a'. induction a as [|c a IH]; intros [|c' a'] E L; simpl in *; try discriminate.
  - split; [reflexivity|exact E].
  - injection E as -> E. injection L as L. destruct (IH _ E L) as [-> ->].
    split; reflexivity.
Qed.

Lemma span_app (p : ascii -> bool) (s : string) :
  s = fst (span p s) ++ snd (span p s).
Proof.
  induction s as [|c r IH]; simpl; [reflexivity|].
  destruct (p c); [|reflexivity].
  destruct (span p r) as [a b]. simpl in *. congruence.
Qed.

Lemma span_forall (p : ascii -> bool) (s : string) (c : ascii) :
  In c (list_ascii_of_string (fst (span p s))) -> p c = true.
Proof.
  induction s as [|d r IH]; simpl; [tauto|].
  destruct (p d) eqn:E; simpl; [|tauto].
  destruct (span p r) as [a b]. simpl in *. intros [<-|H]; [exact E|auto].
Qed.

(** A greedy [p*] directly followed by another one of the same class
    matches nothing more. *)
Lemma span_span (p : ascii -> bool) (s : string) :
  span p (snd (span p s)) = (EmptyString, snd (span p s)).
Proof.
  induction s as [|c r IH]; simpl; [reflexivity|].
  destruct (p c) eqn:E.
  - destruct (span p r) as [a b]. exact IH.
  - simpl. rewrite E. reflexivity.
Qed.

Lemma toUpperCase_app (a b : string) :
  toUpperCase (a ++ b) = toUpperCase a ++ toUpperCase b.
Proof. induction a; simpl; congruence. Qed.

Lemma toUpperCase_length (s : string) :
  String.length (toUpperCase s) = String.length s.
Proof. induction s; simpl; congruence. Qed.

Lemma toUpperCase_idem (s : string) : toUpperCase (toUpperCase s) = toUpperCase s.
Proof. induction s; simpl; [reflexivity|]. rewrite upper_idem. congruence. Qed.

Lemma toUpperCase_eq_length (a b : string) :
  toUpperCase a = toUpperCase b -> String.length a = String.length b.
Proof. intros E. rewrite <- (toUpperCase_length a), E. apply toUpperCase_length. Qed.

Lemma isEmpty_upper (s : string) : isEmpty (toUpperCase s) = isEmpty s.
Proof. destruct s; reflexivity. Qed.

(** A string without letters is determined by its upper case. *)
Lemma toUpperCase_nonletters_inj (a b : string) :
  toUpperCase a = toUpperCase b ->
  (forall c, In c (list_ascii_of_string a) -> isLetter c = false) ->
  a = b.
Proof.
  revert b. induction a as [|c a IH]; intros [|d b] E H; simpl in *; try discriminate.
  - reflexivity.
  - injection E as E1 E2. f_equal.
    + apply upper_nonletter_inj; auto.
    + apply IH; auto.
Qed.

Lemma span_upper (p : ascii -> bool) (s : string) :
  (forall c, p (upper c) = p c) ->
  span p (toUpperCase s) = upPair (span p s).
Proof.
  intros Hp. induction s as [|c r IH]; simpl; [reflexivity|].
  rewrite Hp. destruct (p c); [|reflexivity].
  rewrite IH. destruct (span p r). reflexivity.
Qed.

Lemma prefixCI_upper (pat s : string) :
  prefixCI pat (toUpperCase s) = option_map upPair (prefixCI pat s).
Proof.
  revert s. induction pat as [|p pat IH]; intros s; simpl; [reflexivity|].
  destruct s as [|c s]; simpl; [reflexivity|].
  rewrite upper_idem. destruct (Ascii.eqb (upper c) (upper p)); [|reflexivity].
  rewrite IH. destruct (prefixCI pat s) as [[a b]|]; reflexivity.
Qed.

Lemma altCI_upper (alts : list string) (s : string) :
  altCI alts (toUpperCase s) = option_map upPair (altCI alts s).
Proof.
  induction alts as [|a alts IH]; simpl; [reflexivity|].
  rewrite prefixCI_upper. destruct (prefixCI a s) as [[x y]|]; [reflexivity|exact IH].
Qed.

Lemma prefixCI_app (pat s a b : string) :
  prefixCI pat s = Some (a, b) ->
  s = a ++ b /\ toUpperCase a = toUpperCase pat.
Proof.
  revert s a b. induction pat as [|p pat IH]; intros s a b; simpl.
  - intros [= <- <-]. split; reflexivity.
  - destruct s as [|c s]; [discriminate|].
    destruct (Ascii.eqb_spec (upper c) (upper p)) as [E|]; [|discriminate].
    destruct (prefixCI pat s) as [[x y]|] eqn:P; [|discriminate].
    intros [= <- <-]. destruct (IH _ _ _ P) as [-> U]. simpl. split; congruence.
Qed.

Lemma altCI_app (alts : list string) (s a b : string) :
  altCI alts s = Some (a, b) ->
  s = a ++ b /\ exists pat, In pat alts /\ toUpperCase a = toUpperCase pat.
Proof.
  induction alts as [|p alts IH]; simpl; [discriminate|].
  destruct (prefixCI p s) as [[x y]|] eqn:P.
  - intros [= <- <-]. destruct (prefixCI_app _ _ _ _ P) as [-> U].
    split; [reflexivity|]. exists p. auto.
  - intros H. destruct (IH H) as [-> [pat [I U]]]. split; [reflexivity|].
    exists pat. auto.
Qed.

(** A spelling of a literal, followed by anything, matches the literal and
    leaves what follows. *)
Lemma prefixCI_spelling (pat k rest : string) :
  toUpperCase k = toUpperCase pat -> prefixCI pat (k ++ rest) = Some (k, rest).
Proof.
  revert k. induction pat as [|p pat IH]; intros [|c k] E; simpl in *; try discriminate.
  - reflexivity.
  - injection E as E1 E2. rewrite E1, Ascii.eqb_refl, (IH _ E2). reflexivity.
Qed.

(* ------------------------------------------------------------------ *)
(** ** The patterns do not see letter case *)

Lemma span_space_upper (s : string) :
  span isSpace (toUpperCase s) = upPair (span isSpace s).
Proof. apply span_upper, isSpace_upper. Qed.

Lemma span_digit_upper (s : string) :
  span isDigit (toUpperCase s) = upPair (span isDigit s).
Proof. apply span_upper, isDigit_upper. Qed.

Lemma reAlt_upper (alts : list string) (s : string) :
  reAlt alts (toUpperCase s) = option_map upMatch (reAlt alts s).
Proof.
  unfold reAlt. rewrite altCI_upper.
  destruct (altCI alts s) as [[k r]|]; simpl; [|reflexivity].
  rewrite span_space_upper. unfold upMatch. simpl.
  rewrite toUpperCase_app. reflexivity.
Qed.

Lemma reLINE_upper (s : string) :
  reLINE (toUpperCase s) = option_map upMatch (reLINE s).
Proof.
  unfold reLINE. rewrite span_space_upper.
  destruct (span isSpace s) as [w1 r1]. unfold upPair at 1. simpl.
  rewrite span_digit_upper. destruct (span isDigit r1) as [ds r2].
  unfold upPair at 1. simpl. rewrite isEmpty_upper.
  destruct (isEmpty ds); simpl; [reflexivity|].
  rewrite span_space_upper. unfold upMatch. simpl.
  rewrite !toUpperCase_app. reflexivity.
Qed.

Lemma quoteBody_upper (s : string) :
  quoteBody (toUpperCase s) = upPair (quoteBody s).
Proof.
  (* two characters at a time: induction on the length *)
  remember (String.length s) as n eqn:L.
  revert s L. induction n as [n IH] using lt_wf_ind. intros s L.
  destruct s as [|c r]; [reflexivity|].
  simpl. rewrite (eqb_upper_nonletter c "\" eq_refl).
  destruct (Ascii.eqb c "\").
  - destruct r as [|d r']; [reflexivity|].
    simpl. rewrite isLineTerminator_upper.
    destruct (isLineTerminator d); [reflexivity|].
    rewrite (IH (String.length r')) by (subst n; simpl; lia || reflexivity).
    destruct (quoteBody r'). reflexivity.
  - rewrite (eqb_upper_nonletter c dq eq_refl).
    destruct (Ascii.eqb c dq); [reflexivity|].
    rewrite (IH (String.length r)) by (subst n; simpl; lia || reflexivity).
    destruct (quoteBody r). reflexivity.
Qed.

Lemma reQUOTE_upper (s : string) :
  reQUOTE (toUpperCase s) = option_map upMatch (reQUOTE s).
Proof.
  unfold reQUOTE. destruct s as [|q r]; [reflexivity|].
  simpl. rewrite (eqb_upper_nonletter q dq eq_refl).
  destruct (Ascii.eqb_spec q dq) as [->|]; [|reflexivity].
  rewrite quoteBody_upper. destruct (quoteBody r) as [body r1].
  unfold upPair at 1. simpl.
  destruct r1 as [|q' r2]; [reflexivity|].
  simpl. rewrite (eqb_upper_nonletter q' dq eq_refl).
  destruct (Ascii.eqb_spec q' dq) as [->|]; [|reflexivity].
  simpl. rewrite span_space_upper. unfold upMatch. simpl.
  rewrite toUpperCase_app. reflexivity.
Qed.

Lemma reVAR_upper (s : string) :
  reVAR (toUpperCase s) = option_map upMatch (reVAR s).
Proof.
  unfold reVAR. destruct s as [|c r]; [reflexivity|].
  simpl. rewrite isLetter_upper. destruct (isLetter c); [|reflexivity].
  rewrite span_digit_upper. destruct (span isDigit r) as [ds r1].
  unfold upPair at 1. simpl.
  destruct r1 as [|d r']; simpl.
  - unfold upMatch. simpl. rewrite toUpperCase_app. reflexivity.
  - rewrite (eqb_upper_nonletter d "$" eq_refl).
    destruct (Ascii.eqb_spec d "$") as [->|]; simpl.
    + rewrite span_space_upper. unfold upMatch. simpl.
      rewrite toUpperCase_app. reflexivity.
    + rewrite isSpace_upper. destruct (isSpace d).
      * rewrite span_space_upper. destruct (span isSpace r').
        unfold upMatch. simpl. rewrite toUpperCase_app. reflexivity.
      * unfold upMatch. simpl. rewrite toUpperCase_app. reflexivity.
Qed.


Lemma reNUM_upper (s : string) :
  reNUM (toUpperCase s) = option_map upMatch (reNUM s).
Proof.
  unfold reNUM. rewrite span_digit_upper.
  destruct (span isDigit s) as [ds r1]. unfold upPair at 1. simpl.
  rewrite isEmpty_upper. destruct (isEmpty ds); [reflexivity|].
  destruct r1 as [|d r']; simpl.
  - unfold upMatch. simpl. rewrite !toUpperCase_app. reflexivity.
  - rewrite (eqb_upper_nonletter d "." eq_refl).
    destruct (Ascii.eqb_spec d ".") as [->|].
    + rewrite span_digit_upper. destruct (span isDigit r') as [fs r''].
      unfold upPair at 1. simpl. rewrite isEmpty_upper.
      destruct (isEmpty fs); simpl.
      * unfold upMatch. simpl. rewrite !toUpperCase_app. reflexivity.
      * rewrite span_space_upper. unfold upMatch. simpl.
        rewrite !toUpperCase_app. reflexivity.
    + simpl. rewrite isSpace_upper. destruct (isSpace d).
      * rewrite span_space_upper. destruct (span isSpace r').
        unfold upMatch. simpl. rewrite !toUpperCase_app. reflexivity.
      * unfold upMatch. simpl. rewrite !toUpperCase_app. reflexivity.
Qed.

Lemma reOP_upper (s : string) :
  reOP (toUpperCase s) = option_map upMatch (reOP s).
Proof.
  unfold reOP. rewrite altCI_upper.
  destruct (altCI _ s) as [[k r]|]; simpl.
  - rewrite span_space_upper. unfold upMatch. simpl.
    rewrite toUpperCase_app. reflexivity.
  - destruct s as [|c r]; [reflexivity|].
    simpl. rewrite isOpChar_upper. destruct (isOpChar c); [|reflexivity].
    simpl. rewrite span_space_upper. reflexivity.
Qed.

Lemma truthy_upper (o : option Match) :
  truthy (option_map upMatch o) = option_map upMatch (truthy o).
Proof.
  destruct o as [m|]; [|reflexivity]. simpl. rewrite isEmpty_upper.
  destruct (isEmpty (m0 m)); reflexivity.
Qed.

(* ------------------------------------------------------------------ *)
(** ** The shape of a match *)

Lemma truthy_Some (o : option Match) (m : Match) :
  truthy o = Some m -> o = Some m /\ isEmpty (m0 m) = false.
Proof.
  destruct o as [x|]; simpl; [|discriminate].
  destruct (isEmpty (m0 x)) eqn:E; [discriminate|].
  intros [= <-]. auto.
Qed.

Lemma truthy_None_Some (o : option Match) (m : Match) :
  truthy o = None -> o = Some m -> m0 m = EmptyString.
Proof.
  intros H ->. simpl in H. destruct (isEmpty (m0 m)) eqn:E; [|discriminate].
  apply isEmpty_true, E.
Qed.

Lemma reAlt_shaped (alts : list string) (s : string) (m : Match) :
  reAlt alts s = Some m ->
  shaped EmptyString s m /\
  exists pat, In pat alts /\ toUpperCase (m1 m) = toUpperCase pat.
Proof.
  unfold reAlt. destruct (altCI alts s) as [[k r]|] eqn:A; [|discriminate].
  intros [= <-]. destruct (altCI_app _ _ _ _ A) as [-> P]. split; [|exact P].
  exists (fst (span isSpace r)), (snd (span isSpace r)). simpl. split; [reflexivity|].
  rewrite append_assoc, <- span_app. reflexivity.
Qed.

Lemma reLINE_shaped (s : string) (m : Match) :
  reLINE s = Some m -> exists r, s = m0 m ++ r.
Proof.
  unfold reLINE. pose proof (span_app isSpace s) as E1.
  destruct (span isSpace s) as [w1 r1]. simpl in E1.
  pose proof (span_app isDigit r1) as E2.
  destruct (span isDigit r1) as [ds r2]. simpl in E2.
  destruct (isEmpty ds); [discriminate|]. intros [= <-]. simpl.
  exists (snd (span isSpace r2)).
  rewrite !append_assoc, <- span_app. congruence.
Qed.

Lemma quoteBody_app (s : string) :
  s = fst (quoteBody s) ++ snd (quoteBody s).
Proof.
  remember (String.length s) as n eqn:L.
  revert s L. induction n as [n IH] using lt_wf_ind. intros s L.
  destruct s as [|c r]; [reflexivity|].
  simpl. destruct (Ascii.eqb c "\").
  - destruct r as [|d r']; [reflexivity|].
    destruct (isLineTerminator d); [reflexivity|].
    pose proof (IH (String.length r') ltac:(subst n; simpl; lia) r' eq_refl) as E.
    destruct (quoteBody r'). simpl in *. congruence.
  - destruct (Ascii.eqb c dq); [reflexivity|].
    pose proof (IH (String.length r) ltac:(subst n; simpl; lia) r eq_refl) as E.
    destruct (quoteBody r). simpl in *. congruence.
Qed.

Lemma reQUOTE_shaped (s : string) (m : Match) :
  reQUOTE s = Some m -> shaped (String dq EmptyString) s m.
Proof.
  unfold reQUOTE. destruct s as [|q r]; [discriminate|].
  destruct (Ascii.eqb_spec q dq) as [->|]; [|discriminate].
  pose proof (quoteBody_app r) as E. destruct (quoteBody r) as [body r1]. simpl in E.
  destruct r1 as [|q' r2]; [discriminate|].
  destruct (Ascii.eqb_spec q' dq) as [->|]; [|discriminate].
  intros [= <-]. exists (String dq (fst (span isSpace r2))), (snd (span isSpace r2)).
  simpl. split; [reflexivity|]. f_equal.
  rewrite append_assoc. simpl. rewrite <- span_app. exact E.
Qed.

Lemma reVAR_shaped (s : string) (m : Match) :
  reVAR s = Some m -> shaped EmptyString s m.
Proof.
  unfold reVAR. destruct s as [|c r]; [discriminate|].
  destruct (isLetter c); [|discriminate].
  pose proof (span_app isDigit r) as E. destruct (span isDigit r) as [ds r1]. simpl in E.
  destruct r1 as [|d r'].
  - intros [= <-]. exists EmptyString, EmptyString. simpl. split; [reflexivity|].
    rewrite append_nil_r in E. rewrite !append_nil_r. congruence.
  - destruct (Ascii.eqb_spec d "$") as [->|].
    + intros [= <-]. exists (String "$" (fst (span isSpace r'))), (snd (span isSpace r')).
      simpl. split; [reflexivity|]. f_equal. rewrite append_assoc. simpl.
      rewrite <- span_app. exact E.
    + intros [= <-].
      exists (fst (span isSpace (String d r'))), (snd (span isSpace (String d r'))).
      split; [reflexivity|]. cbn [m0 append]. f_equal.
      rewrite append_assoc, E. f_equal. exact (span_app isSpace (String d r')).
Qed.

Lemma reNUM_shaped (s : string) (m : Match) :
  reNUM s = Some m ->
  shaped EmptyString s m /\ exists c r, m1 m = String c r /\ isDigit c = true.
Proof.
  unfold reNUM. pose proof (span_app isDigit s) as E.
  pose proof (span_forall isDigit s) as F.
  destruct (span isDigit s) as [ds r1]. simpl in E, F.
  destruct ds as [|c ds]; [discriminate|]. cbn [isEmpty].
  assert (D : isDigit c = true) by (apply F; simpl; auto).
  match goal with |- context [let (frac, r2) := ?X in _] => remember X as fr eqn:FR end.
  destruct fr as [frac r2].
  assert (R : r1 = frac ++ r2).
  { destruct r1 as [|d r']; [injection FR as -> ->; reflexivity|].
    destruct (Ascii.eqb_spec d ".") as [->|]; [|injection FR as -> ->; reflexivity].
    pose proof (span_app isDigit r') as E'. destruct (span isDigit r') as [fs r''].
    simpl in E'. destruct (isEmpty fs); injection FR as -> ->; [reflexivity|].
    simpl. congruence. }
  intros [= <-]. split.
  - exists (fst (span isSpace r2)), (snd (span isSpace r2)). cbn [m0 m1].
    split; [reflexivity|].
    rewrite E, R. simpl. f_equal. rewrite !append_assoc. do 2 f_equal.
    apply span_app.
  - exists c, (ds ++ frac). simpl. auto.
Qed.

Lemma reOP_shaped (s : string) (m : Match) :
  reOP s = Some m -> shaped EmptyString s m.
Proof.
  unfold reOP. destruct (altCI _ s) as [[k r]|] eqn:A.
  - intros [= <-]. destruct (altCI_app _ _ _ _ A) as [-> _].
    exists (fst (span isSpace r)), (snd (span isSpace r)). simpl. split; [reflexivity|].
    rewrite append_assoc, <- span_app. reflexivity.
  - destruct s as [|c r]; [discriminate|]. destruct (isOpChar c); [|discriminate].
    intros [= <-]. exists (fst (span isSpace r)), (snd (span isSpace r)).
    simpl. split; [reflexivity|]. f_equal. apply span_app.
Qed.

Lemma shaped_slice (pre s : string) (m : Match) :
  shaped pre s m -> s = m0 m ++ slice s (String.length (m0 m)).
Proof.
  intros [tail [r [_ E]]]. rewrite E at 2. rewrite slice_app. exact E.
Qed.

(** The literal a number token carries is never [NaN] for [parseFloat]. *)
Lemma parseFloat_digit (c : ascii) (r : string) :
  isDigit c = true -> parseFloat_isNaN (String c r) = false.
Proof.
  destruct c as [[] [] [] [] [] [] [] []]; intros H; vm_compute in H;
    (discriminate H || reflexivity).
Qed.

Lemma reNUM_not_NaN (s : string) (m : Match) :
  reNUM s = Some m -> parseFloat_isNaN (m1 m) = false.
Proof.
  intros H. destruct (reNUM_shaped _ _ H) as [_ [c [r [-> D]]]].
  apply parseFloat_digit, D.
Qed.

(* ------------------------------------------------------------------ *)
(** ** The loop of [tokenize], one turn at a time *)

Section TokenizerFacts.

Variable FUNCTIONS : list string.

Lemma reFUN_upper (s : string) :
  reFUN FUNCTIONS (toUpperCase s) = option_map upMatch (reFUN FUNCTIONS s).
Proof. apply reAlt_upper. Qed.

Lemma firstMatch_upper (s : string) :
  firstMatch FUNCTIONS (toUpperCase s)
  = option_map (fun cm => (fst cm, upMatch (snd cm))) (firstMatch FUNCTIONS s).
Proof.
  unfold firstMatch, reKEY, reLOGIC, reCONST, reLINEMOD.
  rewrite !reAlt_upper, reQUOTE_upper, reFUN_upper, reVAR_upper, reNUM_upper,
    reOP_upper, !truthy_upper.
  repeat match goal with
         | |- context [truthy ?o] => destruct (truthy o); [reflexivity|]; simpl
         end.
  reflexivity.
Qed.

Lemma firstMatch_shaped (s : string) (c : PatternClass) (m : Match) :
  firstMatch FUNCTIONS s = Some (c, m) ->
  shaped (lead c) s m /\ isEmpty (m0 m) = false.
Proof.
  unfold firstMatch.
  destruct (truthy (reKEY s)) as [x|] eqn:T;
    [intros [= <- <-]; apply truthy_Some in T; destruct T as [T NE];
     split; [apply reAlt_shaped in T; apply T|exact NE]|clear T].
  destruct (truthy (reQUOTE s)) as [x|] eqn:T;
    [intros [= <- <-]; apply truthy_Some in T; destruct T as [T NE];
     split; [apply reQUOTE_shaped, T|exact NE]|clear T].
  destruct (truthy (reLOGIC s)) as [x|] eqn:T;
    [intros [= <- <-]; apply truthy_Some in T; destruct T as [T NE];
     split; [apply reAlt_shaped in T; apply T|exact NE]|clear T].
  destruct (truthy (reFUN FUNCTIONS s)) as [x|] eqn:T;
    [intros [= <- <-]; apply truthy_Some in T; destruct T as [T NE];
     split; [apply reAlt_shaped in T; apply T|exact NE]|clear T].
  destruct (truthy (reCONST s)) as [x|] eqn:T;
    [intros [= <- <-]; apply truthy_Some in T; destruct T as [T NE];
     split; [apply reAlt_shaped in T; apply T|exact NE]|clear T].
  destruct (truthy (reVAR s)) as [x|] eqn:T;
    [intros [= <- <-]; apply truthy_Some in T; destruct T as [T NE];
     split; [apply reVAR_shaped, T|exact NE]|clear T].
  destruct (truthy (reNUM s)) as [x|] eqn:T;
    [intros [= <- <-]; apply truthy_Some in T; destruct T as [T NE];
     split; [apply reNUM_shaped in T; apply T|exact NE]|clear T].
  destruct (truthy (reOP s)) as [x|] eqn:T;
    [intros [= <- <-]; apply truthy_Some in T; destruct T as [T NE];
     split; [apply reOP_shaped, T|exact NE]|clear T].
  destruct (truthy (reLINEMOD s)) as [x|] eqn:T;
    [intros [= <- <-]; apply truthy_Some in T; destruct T as [T NE];
     split; [apply reAlt_shaped in T; apply T|exact NE]|discriminate].
Qed.

Lemma firstMatch_slice (s : string) (c : PatternClass) (m : Match) :
  firstMatch FUNCTIONS s = Some (c, m) ->
  s = m0 m ++ slice s (String.length (m0 m)).
Proof. intros H. eapply shaped_slice, firstMatch_shaped, H. Qed.

Lemma firstMatch_None (s : string) :
  firstMatch FUNCTIONS s = None <-> noPatternMatches FUNCTIONS s.
Proof.
  unfold firstMatch, noPatternMatches. split.
  - repeat match goal with
           | |- context [match truthy ?o with _ => _ end] =>
               destruct (truthy o); [discriminate|]
           end.
    intros _. repeat split; reflexivity.
  - intros (H1 & H2 & H3 & H4 & H5 & H6 & H7 & H8 & H9).
    rewrite H1, H2, H3, H4, H5, H6, H7, H8, H9. reflexivity.
Qed.

Lemma firstMatch_empty : firstMatch FUNCTIONS EmptyString = None.
Proof.
  unfold firstMatch, reFUN. simpl.
  destruct (truthy (reAlt _ EmptyString)) as [m|] eqn:T; [|reflexivity].
  apply truthy_Some in T. destruct T as [T NE].
  destruct (reAlt_shaped _ _ _ T) as [[tail [r [_ E]]] _].
  destruct (m0 m); [discriminate NE|discriminate E].
Qed.

(** What the chain of [eat] methods does is what the first matching class
    says. *)
Lemma eatAny_firstMatch (t : Tokenizer) :
  eatAny FUNCTIONS t =
  match firstMatch FUNCTIONS (stmnt t) with
  | Some (c, m) =>
      Return (Some (eatenOf c m (stmnt t)), pushAll (tokensOfMatch c m (stmnt t)) t)
  | None => Return (None, t)
  end.
Proof.
  unfold eatAny, orElse, firstMatch, eatKeyword, eatQuote, eatLogic, eatFunction,
    eatConstant, eatVariable, eatNumber, eatOperation, eatLineMod.
  destruct (truthy (reKEY (stmnt t))) as [m|] eqn:T1.
  { unfold eatenOf, tokensOfMatch, isRem.
    destruct (String.eqb (toUpperCase (m1 m)) "REM"); unfold push, pushAll; simpl;
      rewrite <- ?app_assoc; reflexivity. }
  destruct (truthy (reQUOTE (stmnt t))) as [m|]; [reflexivity|].
  destruct (truthy (reLOGIC (stmnt t))) as [m|]; [reflexivity|].
  destruct (truthy (reFUN FUNCTIONS (stmnt t))) as [m|]; [reflexivity|].
  destruct (truthy (reCONST (stmnt t))) as [m|]; [reflexivity|].
  destruct (truthy (reVAR (stmnt t))) as [m|]; [reflexivity|].
  destruct (truthy (reNUM (stmnt t))) as [m|] eqn:T7.
  { apply truthy_Some in T7. destruct T7 as [T7 _].
    rewrite (reNUM_not_NaN _ _ T7). reflexivity. }
  destruct (truthy (reOP (stmnt t))) as [m|]; [reflexivity|].
  destruct (truthy (reLINEMOD (stmnt t))) as [m|]; reflexivity.
Qed.

Lemma tokenize_loop_step (fuel : nat) (t : Tokenizer) :
  isEmpty (stmnt t) = false ->
  tokenize_loop FUNCTIONS (S fuel) t =
  match firstMatch FUNCTIONS (stmnt t) with
  | Some (c, m) => tokenize_loop FUNCTIONS fuel (afterMatch c m t)
  | None => Throw (ParseError (lineno t) (InvalidSyntaxNear (stmnt t)))
  end.
Proof.
  intros NE. simpl. rewrite NE, eatAny_firstMatch.
  destruct (firstMatch FUNCTIONS (stmnt t)) as [[c m]|]; reflexivity.
Qed.

Lemma tokenize_loop_done (fuel : nat) (t : Tokenizer) :
  isEmpty (stmnt t) = true -> tokenize_loop FUNCTIONS fuel t = Return t.
Proof. intros E. destruct fuel; simpl; rewrite E; reflexivity. Qed.

(** Every turn eats at least one character. *)
Lemma eatenOf_progress (s : string) (c : PatternClass) (m : Match) :
  isEmpty s = false -> firstMatch FUNCTIONS s = Some (c, m) ->
  String.length (slice s (String.length (eatenOf c m s))) < String.length s.
Proof.
  intros NE H. apply firstMatch_shaped in H. destruct H as [_ H].
  rewrite slice_length. apply isEmpty_length in NE, H.
  unfold eatenOf. destruct (isRem c m); lia.
Qed.

End TokenizerFacts.

(* ------------------------------------------------------------------ *)
(** ** Keywords *)

(** A keyword followed by anything matches [KEY] as itself: no keyword is
    the beginning of another one. *)
Lemma altCI_KEYWORDS_exact (kw R : string) :
  In kw KEYWORDS -> altCI KEYWORDS (kw ++ R) = Some (kw, R).
Proof.
  unfold KEYWORDS. intros H.
  repeat (destruct H as [<-|H]; [reflexivity|]). destruct H.
Qed.

Lemma KEYWORDS_upper (kw : string) : In kw KEYWORDS -> toUpperCase kw = kw.
Proof.
  unfold KEYWORDS. intros H.
  repeat (destruct H as [<-|H]; [reflexivity|]). destruct H.
Qed.

Lemma KEYWORDS_nonempty (kw : string) : In kw KEYWORDS -> isEmpty kw = false.
Proof.
  unfold KEYWORDS. intros H.
  repeat (destruct H as [<-|H]; [reflexivity|]). destruct H.
Qed.

(** Any spelling of a keyword, followed by anything, matches [KEY] as that
    spelling. *)
Lemma altCI_KEYWORDS_spelling (kw k rest : string) :
  In kw KEYWORDS -> toUpperCase k = kw ->
  altCI KEYWORDS (k ++ rest) = Some (k, rest).
Proof.
  intros I U.
  pose proof (altCI_upper KEYWORDS (k ++ rest)) as E.
  rewrite toUpperCase_app, U, (altCI_KEYWORDS_exact kw _ I) in E.
  destruct (altCI KEYWORDS (k ++ rest)) as [[a b]|] eqn:A; [|discriminate E].
  simpl in E. injection E as Ea Eb.
  destruct (altCI_app _ _ _ _ A) as [S _].
  assert (L : String.length k = String.length a).
  { apply toUpperCase_eq_length. congruence. }
  destruct (append_inj _ _ _ _ S L) as [-> ->]. reflexivity.
Qed.

Lemma reKEY_spelling (kw k rest : string) :
  In kw KEYWORDS -> toUpperCase k = kw ->
  truthy (reKEY (k ++ rest)) = Some (mkMatch (k ++ fst (span isSpace rest)) k).
Proof.
  intros I U. unfold reKEY, reAlt. rewrite (altCI_KEYWORDS_spelling kw k rest I U).
  simpl. pose proof (KEYWORDS_nonempty kw I) as NE. rewrite <- U in NE.
  destruct k; [discriminate NE|reflexivity].
Qed.

Section KeywordTurn.

Variable FUNCTIONS : list string.

(** A turn of the loop at a spelling of a keyword: the keyword token is
    pushed, in upper case; after [REM] the rest of the line, without the
    white space that follows the keyword, is pushed as one comment token and
    the loop is over; after another keyword the loop goes on with what
    follows the keyword and the white space after it. *)
Lemma keyword_turn (fuel : nat) (t : Tokenizer) (kw k rest : string) :
  In kw KEYWORDS -> toUpperCase k = kw ->
  tokenize_loop FUNCTIONS (S fuel) (setStmnt (k ++ rest) t) =
  if String.eqb kw "REM" then
    Return (setStmnt EmptyString
              (pushAll [ mkToken ty_keyword (LString kw);
                         mkToken ty_comment (LString (snd (span isSpace rest))) ] t))
  else
    tokenize_loop FUNCTIONS fuel
      (setStmnt (snd (span isSpace rest)) (push (mkToken ty_keyword (LString kw)) t)).
Proof.
  intros I U.
  assert (NE : isEmpty (k ++ rest) = false).
  { pose proof (KEYWORDS_nonempty kw I) as NE. rewrite <- U in NE.
    destruct k; [discriminate NE|reflexivity]. }
  rewrite tokenize_loop_step by exact NE.
  unfold firstMatch. cbn [stmnt setStmnt].
  rewrite (reKEY_spelling kw k rest I U).
  unfold afterMatch, eatenOf, tokensOfMatch, isRem. cbn [m0 m1 stmnt setStmnt].
  rewrite U.
  assert (S1 : slice (k ++ rest) (String.length (k ++ fst (span isSpace rest)))
               = snd (span isSpace rest)).
  { rewrite (span_app isSpace rest) at 1. rewrite <- append_assoc. apply slice_app. }
  destruct (String.eqb kw "REM").
  - rewrite slice_all, S1. apply tokenize_loop_done. reflexivity.
  - rewrite S1. reflexivity.
Qed.

End KeywordTurn.

(* ------------------------------------------------------------------ *)
(** ** The outcomes of [tokenize] *)

Lemma tokensOfMatch_types (c : PatternClass) (m : Match) (s : string) :
  Forall isLoopToken (tokensOfMatch c m s).
Proof.
  unfold isLoopToken.
  destruct c; simpl; try destruct (String.eqb _ _);
    repeat constructor; simpl; discriminate.
Qed.

Section TokenizeOutcomes.

Variable FUNCTIONS : list string.

Lemma scan_turn (s s' : string) (c : PatternClass) (m : Match) :
  isEmpty s = false ->
  firstMatch FUNCTIONS s = Some (c, m) ->
  scanPosition FUNCTIONS (slice s (String.length (eatenOf c m s))) s' ->
  scanPosition FUNCTIONS s s'.
Proof.
  intros NE F H.
  eapply scan_eat; [exact NE| |exact H].
  rewrite eatAny_firstMatch. cbn [stmnt newTokenizer]. rewrite F. reflexivity.
Qed.

(** With as much fuel as the statement has characters, the loop ends. *)
Lemma tokenize_loop_total (fuel : nat) (t : Tokenizer) :
  String.length (stmnt t) <= fuel -> tokenize_loop FUNCTIONS fuel t <> OutOfFuel.
Proof.
  revert t. induction fuel as [|fuel IH]; intros t L.
  - destruct (stmnt t) eqn:E; [|simpl in L; lia].
    rewrite tokenize_loop_done; [discriminate|rewrite E; reflexivity].
  - destruct (isEmpty (stmnt t)) eqn:NE.
    + rewrite tokenize_loop_done by exact NE. discriminate.
    + rewrite tokenize_loop_step by exact NE.
      destruct (firstMatch FUNCTIONS (stmnt t)) as [[c m]|] eqn:F; [|discriminate].
      apply IH. pose proof (eatenOf_progress FUNCTIONS _ _ _ NE F). simpl. lia.
Qed.

(** When the loop returns, the statement is used up and the tokenizer has
    gained tokens only. *)
Lemma tokenize_loop_Return (fuel : nat) (t t' : Tokenizer) :
  tokenize_loop FUNCTIONS fuel t = Return t' ->
  stmnt t' = EmptyString /\ lineno t' = lineno t /\ index t' = index t /\
  tokenized t' = tokenized t /\
  exists toks, tokens t' = (tokens t ++ toks)%list /\ Forall isLoopToken toks.
Proof.
  revert t. induction fuel as [|fuel IH]; intros t H.
  - simpl in H. destruct (isEmpty (stmnt t)) eqn:E; [|discriminate].
    injection H as <-. apply isEmpty_true in E. repeat split; auto.
    exists []. rewrite app_nil_r. auto.
  - destruct (isEmpty (stmnt t)) eqn:NE.
    + rewrite tokenize_loop_done in H by exact NE. injection H as <-.
      apply isEmpty_true in NE. repeat split; auto.
      exists []. rewrite app_nil_r. auto.
    + rewrite tokenize_loop_step in H by exact NE.
      destruct (firstMatch FUNCTIONS (stmnt t)) as [[c m]|] eqn:F; [|discriminate].
      apply IH in H. destruct H as (H1 & H2 & H3 & H4 & toks & H5 & H6).
      simpl in *. repeat split; auto.
      exists (tokensOfMatch c m (stmnt t) ++ toks)%list. split.
      * rewrite H5, app_assoc. reflexivity.
      * apply Forall_app. split; [apply tokensOfMatch_types|exact H6].
Qed.

(** When the loop throws, it is at a visited position where no pattern
    matches, and the error names the line and that position. *)
Lemma tokenize_loop_Throw (fuel : nat) (t : Tokenizer) (e : Exn) :
  tokenize_loop FUNCTIONS fuel t = Throw e ->
  exists s, e = ParseError (lineno t) (InvalidSyntaxNear s) /\
            scanPosition FUNCTIONS (stmnt t) s /\ isEmpty s = false /\
            noPatternMatches FUNCTIONS s.
Proof.
  revert t. induction fuel as [|fuel IH]; intros t H.
  - simpl in H. destruct (isEmpty (stmnt t)); discriminate.
  - destruct (isEmpty (stmnt t)) eqn:NE.
    + rewrite tokenize_loop_done in H by exact NE. discriminate.
    + rewrite tokenize_loop_step in H by exact NE.
      destruct (firstMatch FUNCTIONS (stmnt t)) as [[c m]|] eqn:F.
      * apply IH in H. destruct H as (s & -> & P & NE' & N). exists s.
        split; [reflexivity|]. split; [eapply scan_turn; eauto|].
        split; assumption.
      * injection H as <-. exists (stmnt t).
        split; [reflexivity|]. split; [constructor|].
        split; [exact NE|apply firstMatch_None, F].
Qed.

(** At a visited position where no pattern matches, the loop throws. *)
Lemma tokenize_loop_stuck (s0 s : string) :
  scanPosition FUNCTIONS s0 s -> isEmpty s = false -> noPatternMatches FUNCTIONS s ->
  forall fuel t, stmnt t = s0 -> String.length s0 <= fuel ->
  tokenize_loop FUNCTIONS fuel t = Throw (ParseError (lineno t) (InvalidSyntaxNear s)).
Proof.
  induction 1 as [s|s eaten s' t1 NE E P IH]; intros NE' N fuel t S L.
  - destruct fuel as [|fuel]; [apply isEmpty_length in NE'; lia|].
    rewrite tokenize_loop_step by (rewrite S; exact NE').
    rewrite S. apply firstMatch_None in N. rewrite N. reflexivity.
  - destruct fuel as [|fuel]; [apply isEmpty_length in NE; lia|].
    rewrite tokenize_loop_step by (rewrite S; exact NE).
    rewrite S. rewrite eatAny_firstMatch in E. cbn [stmnt newTokenizer] in E.
    destruct (firstMatch FUNCTIONS s) as [[c m]|] eqn:F; [|discriminate E].
    injection E as <- _.
    rewrite (IH NE' N fuel (afterMatch c m t)).
    + reflexivity.
    + simpl. rewrite S. reflexivity.
    + pose proof (eatenOf_progress FUNCTIONS _ _ _ NE F). lia.
Qed.

(** The three ways [tokenize] ends on a fresh tokenizer. *)
Lemma tokenize_outcome (line : string) :
  match tokenize FUNCTIONS (newTokenizer line) with
  | Return t =>
      exists m toks,
        reLINE line = Some m /\
        tokens t = mkToken ty_lineno (LNumber (Int (parseInt (m1 m)))) :: toks /\
        Forall isLoopToken toks /\
        tokenized t = true /\ index t = 0 /\ lineno t = Int (parseInt (m1 m)) /\
        stmnt t = EmptyString
  | Throw e =>
      (reLINE line = None /\ e = ParseError (Int (-1)) LineNumberMissing) \/
      (exists m s,
         reLINE line = Some m /\
         e = ParseError (Int (parseInt (m1 m))) (InvalidSyntaxNear s) /\
         scanPosition FUNCTIONS (slice line (String.length (m0 m))) s /\
         isEmpty s = false /\ noPatternMatches FUNCTIONS s)
  | OutOfFuel => False
  end.
Proof.
  unfold tokenize. cbn [stmnt newTokenizer tokens index tokenized lineno].
  destruct (reLINE line) as [m|] eqn:R; [|left; auto].
  match goal with |- context [tokenize_loop _ ?f ?t] =>
    pose proof (tokenize_loop_total f t (le_n _)) as T;
    pose proof (tokenize_loop_Return f t) as Rt;
    pose proof (tokenize_loop_Throw f t) as Th;
    destruct (tokenize_loop FUNCTIONS f t) as [t'|e|]
  end; simpl.
  - destruct (Rt t' eq_refl) as (H1 & H2 & H3 & H4 & toks & H5 & H6).
    simpl in *. exists m, toks. auto 10.
  - right. destruct (Th e eq_refl) as (s & -> & P & NE & N). simpl in *.
    exists m, s. auto 10.
  - apply T. reflexivity.
Qed.

(** The sentinel is the one token of type [eof]: a tokenized line holds
    none. *)
Lemma tokenize_no_eof (line : string) (t : Tokenizer) :
  tokenize FUNCTIONS (newTokenizer line) = Return t ->
  Forall (fun tok => isEof tok = false) (tokens t).
Proof.
  intros H. pose proof (tokenize_outcome line) as O. rewrite H in O.
  destruct O as (m & toks & _ & -> & F & _).
  constructor; [reflexivity|].
  eapply Forall_impl; [|exact F]. intros tok [NE _]. unfold isEof, TokenType_eqb.
  destruct (TokenType_eq_dec (type tok) ty_eof); [contradiction|reflexivity].
Qed.

End TokenizeOutcomes.

(* ------------------------------------------------------------------ *)
(** ** Properties of the tokenizer *)

Section TokenizerProperties.

Variable FUNCTIONS : list string.

(** C8.  [tokenize] throws exactly when the line does not begin with a line
    number, or when the scan reaches a position, not the end of the line,
    where no pattern class matches.  In the first case the error is the
    [ParseError] of a missing line number and carries the initial [-1]: no
    token is made and the line gets no number.  In the second case the
    error is the [ParseError] that carries the number of the line and the
    text at the position.  [tokenize] always ends. *)
Theorem C8_tokenize_throws_exactly (line : string) :
  ((exists e, tokenize FUNCTIONS (newTokenizer line) = Throw e) <->
   (reLINE line = None \/
    exists m s,
      reLINE line = Some m /\
      scanPosition FUNCTIONS (slice line (String.length (m0 m))) s /\
      isEmpty s = false /\ noPatternMatches FUNCTIONS s)) /\
  (reLINE line = None ->
   tokenize FUNCTIONS (newTokenizer line)
   = Throw (ParseError (Int (-1)) LineNumberMissing)) /\
  (forall m s,
     reLINE line = Some m ->
     scanPosition FUNCTIONS (slice line (String.length (m0 m))) s ->
     isEmpty s = false -> noPatternMatches FUNCTIONS s ->
     tokenize FUNCTIONS (newTokenizer line)
     = Throw (ParseError (Int (parseInt (m1 m))) (InvalidSyntaxNear s))) /\
  tokenize FUNCTIONS (newTokenizer line) <> OutOfFuel.
Proof.
  assert (A : reLINE line = None ->
              tokenize FUNCTIONS (newTokenizer line)
              = Throw (ParseError (Int (-1)) LineNumberMissing)).
  { intros R. unfold tokenize. cbn [stmnt newTokenizer lineno]. rewrite R. reflexivity. }
  assert (B : forall m s,
     reLINE line = Some m ->
     scanPosition FUNCTIONS (slice line (String.length (m0 m))) s ->
     isEmpty s = false -> noPatternMatches FUNCTIONS s ->
     tokenize FUNCTIONS (newTokenizer line)
     = Throw (ParseError (Int (parseInt (m1 m))) (InvalidSyntaxNear s))).
  { intros m s R P NE N. unfold tokenize. cbn [stmnt newTokenizer]. rewrite R.
    cbv zeta. erewrite (tokenize_loop_stuck FUNCTIONS _ s P NE N); [reflexivity| |].
    - reflexivity.
    - apply le_n. }
  pose proof (tokenize_outcome FUNCTIONS line) as O.
  repeat split.
  - intros [e H]. rewrite H in O. destruct O as [[R _]|(m & s & R & _ & P & NE & N)].
    + left. exact R.
    + right. exists m, s. auto.
  - intros [R|(m & s & R & P & NE & N)]; eexists; eauto.
  - exact A.
  - exact B.
  - intros H. rewrite H in O. exact O.
Qed.

(** C10, as the code has it.  A turn of the loop at any spelling [k] of a
    keyword [kw], whatever follows it, pushes the keyword token [kw]; no
    delimiter is needed after the keyword.  When the keyword is not [REM] the
    loop goes on with the characters that follow (after white space), which
    are lexed on their own.  When it is [REM] they are not lexed: they become
    one comment token and the loop is over. *)
Theorem C10_keyword_needs_no_delimiter
  (fuel : nat) (t : Tokenizer) (kw k rest : string) :
  In kw KEYWORDS -> toUpperCase k = kw ->
  tokenize_loop FUNCTIONS (S fuel) (setStmnt (k ++ rest) t) =
  if String.eqb kw "REM" then
    Return (setStmnt EmptyString
              (pushAll [ mkToken ty_keyword (LString kw);
                         mkToken ty_comment (LString (snd (span isSpace rest))) ] t))
  else
    tokenize_loop FUNCTIONS fuel
      (setStmnt (snd (span isSpace rest)) (push (mkToken ty_keyword (LString kw)) t)).
Proof. apply keyword_turn. Qed.

Variable Expr : Type.
Variable exprToJS : list Token -> Result Expr.

(** C5.  When [REM], in any letter case, is matched during lexing, the turn
    pushes the keyword token and one comment token that holds all the rest
    of the line but the white space after the keyword, and lexing is over.
    A line that is a line number and then [REM] tokenizes to three tokens
    and parses to the [REM] node whose text is that rest, whatever it
    contains. *)
Theorem C5_rem_takes_the_rest_of_the_line (line k rest : string) (m : Match) :
  reLINE line = Some m ->
  slice line (String.length (m0 m)) = k ++ rest ->
  toUpperCase k = "REM" ->
  (forall fuel t,
     tokenize_loop FUNCTIONS (S fuel) (setStmnt (k ++ rest) t)
     = Return (setStmnt EmptyString
                 (pushAll [ mkToken ty_keyword (LString "REM");
                            mkToken ty_comment (LString (snd (span isSpace rest))) ] t))) /\
  tokenizeLine FUNCTIONS line
  = Return [ mkToken ty_lineno (LNumber (Int (parseInt (m1 m))));
             mkToken ty_keyword (LString "REM");
             mkToken ty_comment (LString (snd (span isSpace rest))) ] /\
  parseLine exprToJS FUNCTIONS line
  = Return (REM (Int (parseInt (m1 m))) (LString (snd (span isSpace rest)))).
Proof.
  intros R Sl U.
  assert (I : In "REM" KEYWORDS) by (unfold KEYWORDS; simpl; auto 30).
  assert (T : forall fuel t,
     tokenize_loop FUNCTIONS (S fuel) (setStmnt (k ++ rest) t)
     = Return (setStmnt EmptyString
                 (pushAll [ mkToken ty_keyword (LString "REM");
                            mkToken ty_comment (LString (snd (span isSpace rest))) ] t))).
  { intros fuel t. rewrite (keyword_turn FUNCTIONS fuel t "REM" k rest I U). reflexivity. }
  assert (Tz : tokenize FUNCTIONS (newTokenizer line)
     = Return (mkTokenizer EmptyString
                 [ mkToken ty_lineno (LNumber (Int (parseInt (m1 m))));
                   mkToken ty_keyword (LString "REM");
                   mkToken ty_comment (LString (snd (span isSpace rest))) ]
                 0 true (Int (parseInt (m1 m))))).
  { unfold tokenize. cbn [stmnt newTokenizer tokens index tokenized lineno].
    rewrite R. cbv zeta. cbn [stmnt]. rewrite Sl.
    destruct k as [|c k]; [discriminate U|].
    match goal with |- context [tokenize_loop _ _ (mkTokenizer ?s ?tk ?i ?b ?l)] =>
      change (mkTokenizer s tk i b l) with (setStmnt s (mkTokenizer EmptyString tk i b l))
    end.
    change (String.length (String c k ++ rest)) with (S (String.length (k ++ rest))).
    rewrite T. reflexivity. }
  split; [exact T|]. split.
  - unfold tokenizeLine. rewrite Tz. reflexivity.
  - unfold parseLine. rewrite Tz. reflexivity.
Qed.

End TokenizerProperties.

(** C8 at two lines: one without a line number, one that stops at [#]. *)
Lemma C8_witness :
  tokenize sampleFunctions (newTokenizer "PRINT 1")
  = Throw (ParseError (Int (-1)) LineNumberMissing) /\
  tokenize sampleFunctions (newTokenizer "10 PRINT #")
  = Throw (ParseError (Int 10) (InvalidSyntaxNear "#")).
Proof.
  split.
  - apply (proj1 (proj2 (C8_tokenize_throws_exactly sampleFunctions "PRINT 1"))).
    reflexivity.
  - apply (proj1 (proj2 (proj2 (C8_tokenize_throws_exactly sampleFunctions "10 PRINT #")))
             (mkMatch "10 " "10") "#").
    + reflexivity.
    + eapply scan_eat; [reflexivity|reflexivity|apply scan_here].
    + reflexivity.
    + repeat split; reflexivity.
Defined.

(** C10 at [10 PRINTX]: the keyword [PRINT], then the variable [X]. *)
Lemma C10_witness :
  tokenize_loop sampleFunctions 6
    (setStmnt "PRINTX" (mkTokenizer EmptyString [mkToken ty_lineno (LNumber (Int 10))] 0 false (Int 10)))
  = Return (mkTokenizer EmptyString
              [ mkToken ty_lineno (LNumber (Int 10)); mkToken ty_keyword (LString "PRINT");
                mkToken ty_variable (LString "X") ] 0 false (Int 10)).
Proof.
  rewrite (C10_keyword_needs_no_delimiter sampleFunctions 5 _ "PRINT" "PRINT" "X").
  - reflexivity.
  - unfold KEYWORDS. simpl. auto 30.
  - reflexivity.
Defined.

(** C10 as stated fails at [10 REMX]: the [X] after the keyword is not lexed
    on its own, as it is after [PRINT] or at the start of a statement,
    where it is a variable; it is the text of a comment token. *)
Lemma C10_counterexample :
  tokenizeLine sampleFunctions "10 REMX"
  = Return [ mkToken ty_lineno (LNumber (Int 10)); mkToken ty_keyword (LString "REM");
             mkToken ty_comment (LString "X") ] /\
  tokenizeLine sampleFunctions "10 PRINTX"
  = Return [ mkToken ty_lineno (LNumber (Int 10)); mkToken ty_keyword (LString "PRINT");
             mkToken ty_variable (LString "X") ] /\
  tokenizeLine sampleFunctions "10 X"
  = Return [ mkToken ty_lineno (LNumber (Int 10)); mkToken ty_variable (LString "X") ].
Proof. repeat split; reflexivity. Qed.

(** C5 at [10 REM this is a comment], and at a comment that holds a
    keyword, an operator and a string quote. *)
Lemma C5_witness :
  parseLine tokensOf sampleFunctions "10 REM this is a comment"
  = Return (REM (Int 10) (LString "this is a comment")) /\
  tokenizeLine sampleFunctions "20 rem  PRINT 1+2 : goto 5 "
  = Return [ mkToken ty_lineno (LNumber (Int 20)); mkToken ty_keyword (LString "REM");
             mkToken ty_comment (LString "PRINT 1+2 : goto 5 ") ].
Proof.
  split.
  - apply (proj2 (proj2 (C5_rem_takes_the_rest_of_the_line sampleFunctions _ tokensOf
             "10 REM this is a comment" "REM" " this is a comment" (mkMatch "10 " "10")
             eq_refl eq_refl eq_refl))).
  - apply (proj1 (proj2 (C5_rem_takes_the_rest_of_the_line sampleFunctions _ tokensOf
             "20 rem  PRINT 1+2 : goto 5 " "rem" "  PRINT 1+2 : goto 5 " (mkMatch "20 " "20")
             eq_refl eq_refl eq_refl))).
Defined.

(* ------------------------------------------------------------------ *)
(** ** The end of the token sequence *)

(** C9.  On a tokenized line whose cursor is at or past the end of the token
    array, [peek], at any distance, returns the end-of-input token, and
    [next], called any number of times, returns the end-of-input token each
    time and leaves the tokenizer, cursor included, as it was; neither
    throws. *)
Theorem C9_eof_is_idempotent (t : Tokenizer) (k n : nat) :
  tokenized t = true ->
  length (tokens t) <= index t ->
  peek n t = Return eof /\
  next t = Return (eof, t) /\
  nextTimes k t = Return (repeat eof k, t).
Proof.
  intros T L.
  assert (P : peek n t = Return eof).
  { unfold peek, assertTokenized. rewrite T. simpl.
    destruct (Nat.leb_spec (length (tokens t)) (index t + n)); [reflexivity|lia]. }
  assert (N : next t = Return (eof, t)).
  { unfold next, assertTokenized. rewrite T. simpl.
    destruct (Nat.leb_spec (length (tokens t)) (index t)); [reflexivity|lia]. }
  repeat split; [exact P|exact N|].
  induction k as [|k IH]; [reflexivity|].
  simpl. rewrite N. simpl. rewrite IH. reflexivity.
Qed.

(** C9 on the line [10 END] after its two tokens were read. *)
Lemma C9_witness :
  let t := mkTokenizer EmptyString
             [ mkToken ty_lineno (LNumber (Int 10)); mkToken ty_keyword (LString "END") ]
             2 true (Int 10) in
  tokenize sampleFunctions (newTokenizer "10 END")
  = Return (mkTokenizer EmptyString (tokens t) 0 true (Int 10)) /\
  nextTimes 2 (mkTokenizer EmptyString (tokens t) 0 true (Int 10))
  = Return (tokens t, t) /\
  peek 1 t = Return eof /\
  next t = Return (eof, t) /\
  nextTimes 3 t = Return ([eof; eof; eof], t).
Proof.
  split; [reflexivity|]. split; [reflexivity|].
  apply (C9_eof_is_idempotent
           (mkTokenizer EmptyString
              [ mkToken ty_lineno (LNumber (Int 10)); mkToken ty_keyword (LString "END") ]
              2 true (Int 10)) 3 1).
  - reflexivity.
  - simpl. lia.
Defined.

(* ------------------------------------------------------------------ *)
(** ** The parser on given lines *)

Lemma peek_eq (n : nat) (t : Tokenizer) :
  tokenized t = true ->
  peek n t = Return (if length (tokens t) <=? index t + n then eof
                     else nth (index t + n) (tokens t) eof).
Proof.
  intros T. unfold peek, assertTokenized. rewrite T. simpl.
  destruct (_ <=? _); reflexivity.
Qed.

Lemma next_eq (t : Tokenizer) :
  tokenized t = true ->
  next t = Return (if length (tokens t) <=? index t then (eof, t)
                   else (nth (index t) (tokens t) eof, advance t)).
Proof.
  intros T. unfold next, assertTokenized, advance. rewrite T. simpl.
  destruct (_ <=? _); reflexivity.
Qed.

Lemma peek_Return (n : nat) (t : Tokenizer) (tok : Token) :
  peek n t = Return tok -> tokenized t = true.
Proof.
  unfold peek, assertTokenized. destruct (tokenized t); [reflexivity|discriminate].
Qed.

Section ParserRuns.

Variable Expr : Type.
Variable exprToJS : list Token -> Result Expr.

(** The scan of [expectExpr] throws as soon as it has read an opening
    bracket or parenthesis: the depth is a constant and cannot be
    incremented. *)
Lemma expectExpr_loop_opener (fuel : nat) (expr : list Token) (t : Tokenizer) (tok : Token) :
  peek 0 t = Return tok ->
  isEof tok = false -> isExpressionType (type tok) = true ->
  lexeme_is (lexeme tok) "[" || lexeme_is (lexeme tok) "(" = true ->
  expectExpr_loop (S fuel) expr t = Throw (TypeError AssignmentToConstant).
Proof.
  intros P E X O.
  assert (C : lexeme_is (lexeme tok) "]" || lexeme_is (lexeme tok) ")" = false).
  { destruct (lexeme tok) as [|s]; [reflexivity|]. simpl in *.
    destruct (String.eqb_spec s "["); [subst; reflexivity|].
    destruct (String.eqb_spec s "("); [subst; reflexivity|]. discriminate O. }
  cbn [expectExpr_loop]. unfold bind, peekM, lift.
  rewrite P. cbn [obind]. rewrite E. rewrite P. cbn [obind]. rewrite X. cbn [negb].
  rewrite P. cbn [obind]. rewrite C, andb_false_r. unfold nextM.
  rewrite (next_eq t (peek_Return _ _ _ P)).
  destruct (_ <=? _); rewrite O; reflexivity.
Qed.

(** Running the parser on given tokens with an unknown translator: the
    computation is taken to the next call of the translator, the tokens it is
    called on and the tokenizer it leaves are computed, and the cases of its
    outcome are taken. *)
Ltac run_parser :=
  repeat (match goal with
          | |- ?L = _ => let L' := eval lazy head in L in change L with L'
          end;
          repeat match goal with
                 | |- context [exprToJS ?l] =>
                     let l' := eval vm_compute in l in progress change l with l'
                 end;
          repeat match goal with
                 | |- context [@Return (Expr * Tokenizer) (?a, ?s)] =>
                     let s' := eval vm_compute in s in progress change s with s'
                 end;
          match goal with
          | |- context [exprToJS ?l] => destruct (exprToJS l)
          end);
  try reflexivity.

(** C1, on the code.  The tokens of [LET A = F(B[1], C)] do not come out of
    the scan as one expression: the scan throws a [TypeError] when it reads
    the parenthesis after [F], whatever the translator is. *)
Theorem C1_bracket_scan_throws :
  parseStatement exprToJS (Int 10)
    (tokenizerAt 10 [ kw "LET"; var "A"; op "="; var "F"; op "("; var "B"; op "[";
                      num "1"; op "]"; op ","; var "C"; op ")" ])
  = Throw (TypeError AssignmentToConstant) /\
  parseLine exprToJS sampleFunctions "10 LET A = F(B[1], C)"
  = Throw (TypeError AssignmentToConstant).
Proof. split; reflexivity. Qed.

(** C2, on the code.  In a [FOR] line any keyword is taken where [TO] is
    expected: with [k] for the keyword, the parser goes on to the second
    expression and builds the [FOR] node when the translator accepts the two
    expressions. *)
Theorem C2_for_takes_any_keyword (k : Lexeme) :
  parseStatement exprToJS (Int 10)
    (tokenizerAt 10 [ kw "FOR"; var "I"; op "="; num "1"; mkToken ty_keyword k; num "10" ])
  = obind (ofResult (exprToJS [num "1"])) (fun frm =>
    obind (ofResult (exprToJS [num "10"])) (fun to =>
    Return (FOR (Int 10) (Variable_ (Int 10) (LString "I") None) frm to None))).
Proof.
  run_parser.
Qed.

(** C6.  The tokens of [IF A>5 THEN GOTO 100 ELSE PRINT "no"] parse to an
    [IF] node whose [then] branch is the [GOTO] node and whose [else] branch
    is the [PRINT] node, each branch by a call of [parse] itself; without
    the [ELSE] part the [else] branch is [null]; a branch can be an [IF]. *)
Theorem C6_if_then_else (ln : Z) :
  parseStatement exprToJS (Int ln)
    (tokenizerAt ln [ kw "IF"; var "A"; op ">"; num "5"; kw "THEN"; kw "GOTO"; num "100";
                      kw "ELSE"; kw "PRINT"; str "no" ])
  = obind (ofResult (exprToJS [var "A"; op ">"; num "5"])) (fun cond =>
    obind (ofResult (exprToJS [num "100"])) (fun target =>
    obind (ofResult (exprToJS [str "no"])) (fun text =>
    Return (IF (Int ln) cond (GOTO (Int ln) target) (Some (PRINT (Int ln) text false))))))
  /\
  parseStatement exprToJS (Int ln)
    (tokenizerAt ln [ kw "IF"; var "A"; op ">"; num "5"; kw "THEN"; kw "GOTO"; num "100" ])
  = obind (ofResult (exprToJS [var "A"; op ">"; num "5"])) (fun cond =>
    obind (ofResult (exprToJS [num "100"])) (fun target =>
    Return (IF (Int ln) cond (GOTO (Int ln) target) None)))
  /\
  parseStatement exprToJS (Int ln)
    (tokenizerAt ln [ kw "IF"; var "A"; kw "THEN"; kw "IF"; var "B"; kw "THEN"; kw "END" ])
  = obind (ofResult (exprToJS [var "A"])) (fun a =>
    obind (ofResult (exprToJS [var "B"])) (fun b =>
    Return (IF (Int ln) a (IF (Int ln) b (END (Int ln)) None) None))).
Proof.
  repeat split; run_parser.
Qed.

End ParserRuns.

(** The lines of C1, C2 and C6 from their text, with the sample registry and
    the translator that keeps the tokens. *)
Example C2_line :
  parseLine tokensOf sampleFunctions "10 FOR I = 1 STEP 10"
  = Return (FOR (Int 10) (Variable_ (Int 10) (LString "I") None) [num "1"] [num "10"] None).
Proof. reflexivity. Qed.

Example C6_line :
  parseLine tokensOf sampleFunctions
    ("10 IF A>5 THEN GOTO 100 ELSE PRINT " ++ quoted "no")
  = Return (IF (Int 10) [var "A"; op ">"; num "5"] (GOTO (Int 10) [num "100"])
              (Some (PRINT (Int 10) [str "no"] false))).
Proof. reflexivity. Qed.

(* ------------------------------------------------------------------ *)
(** ** What the methods of the parser keep and give *)

Lemma Adv_refl (t : Tokenizer) : Adv t t.
Proof. repeat split; auto. Qed.

Lemma Adv_trans (t1 t2 t3 : Tokenizer) : Adv t1 t2 -> Adv t2 t3 -> Adv t1 t3.
Proof.
  unfold Adv. intros (A1 & A2 & A3) (B1 & B2 & B3).
  repeat split; [congruence|congruence|lia].
Qed.

Lemma Adv_advance (t : Tokenizer) : Adv t (advance t).
Proof. unfold Adv, advance. simpl. repeat split; auto. Qed.

Section ParserFacts.

Variable Expr : Type.
Variable exprToJS : list Token -> Result Expr.

Local Abbreviation Spec := (Spec exprToJS).
Local Abbreviation parserError := (parserError exprToJS).

Lemma Spec_bind {A B : Type} (P P1 : Tokenizer -> Prop) (c : M A) (k : A -> M B)
  (Q1 : Tokenizer -> A -> Tokenizer -> Prop) (Q2 : Tokenizer -> B -> Tokenizer -> Prop) :
  Spec P1 c Q1 ->
  (forall t, P t -> P1 t) ->
  (forall t a, tokenized t = true -> P t ->
     Spec (fun t' => Adv t t' /\ Q1 t a t') (k a) (fun _ b t'' => Q2 t b t'')) ->
  Spec P (bind c k) Q2.
Proof.
  intros Hc HP Hk t T Pt. unfold bind.
  specialize (Hc t T (HP t Pt)).
  destruct (c t) as [[a t']|e|]; [|exact Hc|exact Hc].
  destruct Hc as [A1 Q1a].
  assert (T' : tokenized t' = true) by (destruct A1 as (_ & -> & _); exact T).
  specialize (Hk t a T Pt t' T' (conj A1 Q1a)).
  destruct (k a t') as [[b t'']|e|]; [|exact Hk|exact Hk].
  destruct Hk as [A2 Q2b]. split; [eapply Adv_trans; eauto|exact Q2b].
Qed.

Lemma Spec_ret {A : Type} (P : Tokenizer -> Prop) (a : A)
  (Q : Tokenizer -> A -> Tokenizer -> Prop) :
  (forall t, P t -> Q t a t) -> Spec P (ret a) Q.
Proof. intros H t _ Pt. simpl. split; [apply Adv_refl|auto]. Qed.

Lemma Spec_throw {A : Type} (P : Tokenizer -> Prop) (e : Exn)
  (Q : Tokenizer -> A -> Tokenizer -> Prop) :
  errLineno e = None -> Spec P (@throw A e) Q.
Proof. intros H t _ _. simpl. left. exact H. Qed.

Lemma Spec_lift {A : Type} (P : Tokenizer -> Prop) (o : Outcome A)
  (Q : Tokenizer -> A -> Tokenizer -> Prop) :
  match o with
  | Return a => forall t, P t -> Q t a t
  | Throw e => parserError e
  | OutOfFuel => False
  end ->
  Spec P (lift o) Q.
Proof.
  intros H t _ Pt. unfold lift. destruct o as [a|e|]; simpl; auto.
  split; [apply Adv_refl|auto].
Qed.

Lemma Spec_weaken {A : Type} (P P' : Tokenizer -> Prop) (c : M A)
  (Q Q' : Tokenizer -> A -> Tokenizer -> Prop) :
  Spec P c Q ->
  (forall t, P' t -> P t) ->
  (forall t a t', P' t -> Adv t t' -> Q t a t' -> Q' t a t') ->
  Spec P' c Q'.
Proof.
  intros H HP HQ t T Pt. specialize (H t T (HP t Pt)).
  destruct (c t) as [[a t']|e|]; auto. destruct H as [A1 Q1]. split; auto.
Qed.

(** [peek()] returns the token at the cursor, or the sentinel at the end,
    and leaves the tokenizer as it is. *)
Lemma peekM_spec :
  Spec (fun _ => True) peekM
    (fun t tok t' =>
       t' = t /\
       tok = if length (tokens t) <=? index t then eof else nth (index t) (tokens t) eof).
Proof.
  intros t T _. unfold peekM, lift. rewrite (peek_eq 0 t T), Nat.add_0_r. simpl.
  split; [apply Adv_refl|]. split; reflexivity.
Qed.

(** [next()] returns the sentinel at the end, and otherwise the token at
    the cursor, which it moves by one. *)
Lemma nextM_spec :
  Spec (fun _ => True) nextM
    (fun t tok t' =>
       (length (tokens t) <= index t /\ tok = eof /\ t' = t) \/
       (index t < length (tokens t) /\ tok = nth (index t) (tokens t) eof /\
        t' = advance t)).
Proof.
  intros t T _. unfold nextM. rewrite (next_eq t T).
  destruct (Nat.leb_spec (length (tokens t)) (index t)).
  - split; [apply Adv_refl|]. left. auto.
  - split; [apply Adv_advance|]. right. auto.
Qed.

Lemma assertType_spec (P : Tokenizer -> Prop) (tok : Token) (ty : TokenType)
  (v : option string) :
  Spec P (lift (assertType tok ty v)) (fun _ _ _ => type tok = ty).
Proof.
  apply Spec_lift. unfold assertType, TokenType_eqb.
  destruct (TokenType_eq_dec (type tok) ty) as [E|NE]; simpl.
  - destruct v as [s|]; [|auto]. destruct (lexeme_is (lexeme tok) s); simpl; auto.
    left. reflexivity.
  - left. reflexivity.
Qed.

End ParserFacts.

Section ParserSpecs.

Variable Expr : Type.
Variable exprToJS : list Token -> Result Expr.

Local Abbreviation Spec := (Spec exprToJS).

Lemma Spec_false {A : Type} (P : Tokenizer -> Prop) (c : M A)
  (Q : Tokenizer -> A -> Tokenizer -> Prop) :
  (forall t, P t -> False) -> Spec P c Q.
Proof. intros H t _ Pt. destruct (H t Pt). Qed.

(** One step of a proof about a method: a [bind] whose first part is
    [known], a [ret], a [throw], a test. *)
Ltac sbind known :=
  eapply Spec_bind; [known | intros; exact I | cbv beta; intros ? ? ? ?].

Ltac sleaf :=
  lazymatch goal with
  | |- Spec _ (ret _) _ => apply Spec_ret; intros; auto
  | |- Spec _ (throw _) _ => apply Spec_throw; reflexivity
  | |- Spec _ assignToConst _ => apply Spec_throw; reflexivity
  end.

Lemma acceptKeyword_spec (keyword : string) :
  Spec (fun _ => True) (acceptKeyword keyword) (fun _ _ _ => True).
Proof.
  unfold acceptKeyword. sbind ltac:(apply peekM_spec).
  destruct (TokenType_eqb _ _); [|sleaf].
  sbind ltac:(apply nextM_spec). sleaf.
Qed.

Lemma expectKeyword_spec (keyword : string) :
  Spec (fun _ => True) (expectKeyword keyword) (fun _ _ _ => True).
Proof.
  unfold expectKeyword. sbind ltac:(apply acceptKeyword_spec).
  destruct a; [sleaf|]. sbind ltac:(apply peekM_spec). sleaf.
Qed.

Lemma expectComment_spec :
  Spec (fun _ => True) expectComment (fun _ _ _ => True).
Proof.
  unfold expectComment. sbind ltac:(apply nextM_spec).
  destruct (TokenType_eqb _ _).
  - sbind ltac:(apply nextM_spec). sbind ltac:(apply assertType_spec). sleaf.
  - sbind ltac:(apply assertType_spec). sleaf.
Qed.

Lemma expectOperation_spec (o : string) :
  Spec (fun _ => True) (expectOperation o) (fun _ _ _ => True).
Proof.
  unfold expectOperation. sbind ltac:(apply nextM_spec).
  sbind ltac:(apply assertType_spec).
  destruct (negb _); sleaf.
Qed.

Lemma acceptLineMod_spec :
  Spec (fun _ => True) acceptLineMod (fun _ _ _ => True).
Proof.
  unfold acceptLineMod. sbind ltac:(apply peekM_spec).
  destruct (TokenType_eqb _ _); [|sleaf].
  sbind ltac:(apply nextM_spec). sleaf.
Qed.

Lemma expectLineMod_spec :
  Spec (fun _ => True) expectLineMod (fun _ _ _ => True).
Proof.
  unfold expectLineMod. sbind ltac:(apply acceptLineMod_spec).
  destruct (negb _); sleaf.
Qed.

Lemma isEof_eof : isEof eof = true.
Proof. reflexivity. Qed.

(** The scan of [expectExpr] ends when its fuel exceeds the tokens left. *)
Lemma expectExpr_loop_spec (fuel : nat) :
  forall expr,
    Spec (fun t => remaining t < fuel) (expectExpr_loop fuel expr)
      (fun _ _ _ => True).
Proof.
  induction fuel as [|fuel IH]; intros expr.
  - apply Spec_false. intros t H. lia.
  - cbn [expectExpr_loop]. cbv zeta.
    eapply Spec_bind; [apply peekM_spec|intros; exact I|cbv beta; intros t p T R].
    destruct (isEof p) eqn:E; [sleaf|].
    eapply Spec_bind; [apply peekM_spec|intros; exact I|cbv beta; intros t1 p1 T1 [_ [-> Hp]]].
    destruct (negb _); [sleaf|].
    eapply Spec_bind; [apply peekM_spec|intros; exact I|cbv beta; intros t2 p2 T2 [_ [-> _]]].
    destruct (_ && _); [sleaf|].
    eapply Spec_bind; [apply nextM_spec|intros; exact I|cbv beta; intros t3 x T3 [_ [-> _]]].
    eapply Spec_bind with (Q1 := fun _ _ _ => True);
      [destruct (_ || _); sleaf|intros; exact I|cbv beta; intros t4 u T4 [A4 N4]].
    eapply Spec_bind with (Q1 := fun _ _ _ => True);
      [destruct (_ || _); sleaf|intros; exact I|cbv beta; intros t5 u5 T5 [A5 _]].
    eapply Spec_weaken; [apply IH| |auto].
    cbv beta. intros t6 [A6 _].
    destruct N4 as [(L & _ & _)|(L & _ & ->)].
    + exfalso. destruct (Nat.leb_spec (length (tokens t)) (index t)); [|lia].
      subst p. discriminate E.
    + unfold remaining in *. destruct A5 as (A51 & _ & A53), A6 as (A61 & _ & A63).
      unfold advance in *. simpl in *. rewrite A61, A51. simpl. lia.
Qed.


Lemma Adv_remaining (t t' : Tokenizer) : Adv t t' -> remaining t' <= remaining t.
Proof. unfold Adv, remaining. intros (-> & _ & H). lia. Qed.

Lemma remaining_advance (t : Tokenizer) :
  index t < length (tokens t) -> S (remaining (advance t)) = remaining t.
Proof. unfold remaining, advance. simpl. lia. Qed.

(** [expectExpr] gives the translation of at least one token. *)
Lemma expectExpr_spec :
  Spec (fun _ => True) (expectExpr exprToJS) (fun _ e _ => translated exprToJS e).
Proof.
  intros t T _. unfold expectExpr.
  assert (H : Spec (fun t0 => remaining t0 < S (length (tokens t) - index t))
                (expr <- expectExpr_loop (S (length (tokens t) - index t)) [] ;;
                 if length expr =? 0 then throw (Error ExpectedExpression)
                 else lift (ofResult (exprToJS expr)))
                (fun _ e _ => translated exprToJS e)).
  { eapply Spec_bind; [apply expectExpr_loop_spec|intros ? H; exact H|].
    cbv beta. intros t0 l T0 _.
    destruct (Nat.eqb_spec (length l) 0) as [|NE]; [sleaf|].
    apply Spec_lift. destruct (exprToJS l) as [e|e] eqn:X; simpl.
    - intros _ _. exists l. split; [|exact X]. intros ->. apply NE. reflexivity.
    - right. exists l. exact X. }
  exact (H t T (Nat.lt_succ_diag_r _)).
Qed.

Lemma acceptSubscript_spec :
  Spec (fun _ => True) (acceptSubscript exprToJS) (fun _ o _ => translatedOpt exprToJS o).
Proof.
  unfold acceptSubscript. sbind ltac:(apply peekM_spec).
  destruct (negb _); [apply Spec_ret; intros; exact I|].
  sbind ltac:(apply nextM_spec). sbind ltac:(apply assertType_spec).
  sbind ltac:(apply expectExpr_spec). sbind ltac:(apply nextM_spec).
  match goal with HH : _ /\ translated _ _ |- _ => destruct HH as [_ He] end.
  sbind ltac:(apply assertType_spec).
  apply Spec_ret. intros. exact He.
Qed.

Lemma expectVariable_spec (lineno : JsNumber) :
  Spec (fun _ => True) (expectVariable exprToJS lineno)
    (fun _ v _ => Forall (translated exprToJS) (exprsOfVariable v)).
Proof.
  unfold expectVariable. sbind ltac:(apply nextM_spec).
  sbind ltac:(apply assertType_spec). sbind ltac:(apply acceptSubscript_spec).
  apply Spec_ret. cbv beta. intros t' [_ Ht].
  destruct a1 as [e|]; simpl; [constructor; [exact Ht|constructor]|constructor].
Qed.

End ParserSpecs.

Section ParseSpec.

Variable Expr : Type.
Variable exprToJS : list Token -> Result Expr.

Local Abbreviation Spec := (Spec exprToJS).
Local Abbreviation translated := (translated exprToJS).

Ltac sb lem :=
  eapply Spec_bind; [apply lem | intros; exact I | cbv beta; intros ? ? ? [? ?]].

(** The facts at hand give that the expressions of the node are
    translations. *)
Ltac node_done :=
  apply Spec_ret; cbv beta; intros;
  unfold nodeOk, nodeOptOk, translatedOpt in *;
  repeat match goal with
         | HH : _ /\ _ |- _ => destruct HH
         end;
  simpl;
  repeat match goal with
         | o : option _ |- _ => destruct o
         end;
  simpl in *;
  repeat first [assumption | apply Forall_app; split | constructor].

(** The facts at hand give that the fuel of the inner call exceeds the
    tokens left. *)
Ltac fuel_done :=
  cbv beta; intros;
  repeat match goal with
         | HH : _ /\ _ |- _ => destruct HH
         end;
  repeat match goal with
         | HH : _ \/ _ |- _ => destruct HH
         end;
  repeat match goal with
         | HH : _ /\ _ |- _ => destruct HH
         end;
  subst;
  try match goal with
      | HH : type eof = ty_keyword |- _ => discriminate HH
      end;
  repeat match goal with
         | HH : Adv _ _ |- _ => apply Adv_remaining in HH
         end;
  match goal with
  | HH : index ?t < length (tokens ?t) |- _ => apply remaining_advance in HH
  end;
  lia.

(** [parse] ends when its fuel exceeds the tokens left; the node it returns
    holds translations of at least one token each; the error it throws is an
    error of the parser. *)
Lemma parse_spec (fuel : nat) (lineno : JsNumber) :
  Spec (fun t => remaining t < fuel) (parse exprToJS fuel lineno)
    (fun _ n _ => nodeOk exprToJS n).
Proof.
  unfold nodeOk.
  induction fuel as [|fuel IH].
  - intros t _ H. lia.
  - cbn [parse].
    eapply Spec_bind; [apply nextM_spec|intros; exact I|cbv beta; intros t top T R].
    eapply Spec_bind; [apply assertType_spec|intros; exact I|cbv beta; intros t1 u T1 [A1 N1]].
    destruct (lexeme_is (lexeme top) "PRINT").
    { sb expectExpr_spec. sb acceptLineMod_spec. node_done. }
    destruct (lexeme_is (lexeme top) "LET").
    { sb expectVariable_spec. sb expectOperation_spec. sb expectExpr_spec. node_done. }
    destruct (lexeme_is (lexeme top) "REM").
    { sb expectComment_spec. node_done. }
    destruct (lexeme_is (lexeme top) "PAUSE").
    { sb expectExpr_spec. node_done. }
    destruct (lexeme_is (lexeme top) "INPUT").
    { sb expectExpr_spec. sb expectLineMod_spec. sb expectVariable_spec. node_done. }
    destruct (lexeme_is (lexeme top) "FOR").
    { sb expectVariable_spec. sb expectOperation_spec. sb expectExpr_spec.
      sb expectKeyword_spec. sb expectExpr_spec. sb acceptKeyword_spec.
      eapply Spec_bind with (P1 := fun _ => True)
                            (Q1 := fun _ o _ => translatedOpt exprToJS o);
        [|intros; exact I|cbv beta; intros ? ? ? [? ?]].
      - match goal with |- context [match ?k with Some _ => _ | None => _ end] =>
          destruct k end.
        + eapply Spec_bind; [apply expectExpr_spec|intros; exact I|cbv beta; intros ? ? ? ?].
          apply Spec_ret. cbv beta. intros ? [_ HH]. exact HH.
        + apply Spec_ret. intros. exact I.
      - node_done. }
    destruct (lexeme_is (lexeme top) "NEXT").
    { sb expectVariable_spec. node_done. }
    destruct (lexeme_is (lexeme top) "GOTO").
    { sb expectExpr_spec. node_done. }
    destruct (lexeme_is (lexeme top) "END").
    { node_done. }
    destruct (lexeme_is (lexeme top) "IF").
    { sb expectExpr_spec. sb expectKeyword_spec.
      eapply Spec_bind; [apply IH|fuel_done|cbv beta; intros ? ? ? [? ?]].
      sb acceptKeyword_spec.
      eapply Spec_bind with (P1 := fun t' => remaining t' < fuel)
                            (Q1 := fun _ o _ => nodeOptOk exprToJS o);
        [|fuel_done|cbv beta; intros ? ? ? [? ?]].
      - match goal with |- context [match ?k with Some _ => _ | None => _ end] =>
          destruct k end.
        + eapply Spec_bind; [apply IH|intros ? HH; exact HH|cbv beta; intros ? ? ? ?].
          apply Spec_ret. cbv beta. intros ? [_ HH]. exact HH.
        + apply Spec_ret. intros. exact I.
      - node_done. }
    apply Spec_throw. reflexivity.
Qed.

End ParseSpec.

(* ------------------------------------------------------------------ *)
(** ** Properties of the parser *)

Section ParserProperties.

Variable Expr : Type.
Variable exprToJS : list Token -> Result Expr.

(** The parser on a tokenized line: it ends, with a node whose expressions
    are translations of at least one token each, or with an error of the
    parser. *)
Lemma parseStatement_outcome (lineno : JsNumber) (t : Tokenizer) :
  tokenized t = true ->
  match parseStatement exprToJS lineno t with
  | Return n => Forall (translated exprToJS) (exprsOf n)
  | Throw e => parserError exprToJS e
  | OutOfFuel => False
  end.
Proof.
  intros T. unfold parseStatement.
  pose proof (parse_spec Expr exprToJS (S (length (tokens t) - index t)) lineno t T
                (Nat.lt_succ_diag_r _)) as H.
  destruct (parse _ _ _ t) as [[n t']|e|]; simpl; [apply H|exact H|exact H].
Qed.

(** Before [tokenize] the parser throws at its first call of [next]. *)
Lemma parseStatement_untokenized (ln : JsNumber) (t : Tokenizer) :
  tokenized t = false ->
  parseStatement exprToJS ln t = Throw (ParseError (lineno t) CallTokenizeFirst).
Proof.
  intros T. unfold parseStatement. cbn [parse]. unfold bind, nextM, next, assertTokenized.
  rewrite T. reflexivity.
Qed.

Variable FUNCTIONS : list string.

End ParserProperties.


(* ------------------------------------------------------------------ *)
(** ** Letter case of keywords and identifiers *)

Lemma digit_not_letter (c : ascii) : isDigit c = true -> isLetter c = false.
Proof.
  destruct c as [[] [] [] [] [] [] [] []]; intros H; vm_compute in H;
    (discriminate H || reflexivity).
Qed.

Lemma space_not_letter (c : ascii) : isSpace c = true -> isLetter c = false.
Proof.
  destruct c as [[] [] [] [] [] [] [] []]; intros H; vm_compute in H;
    (discriminate H || reflexivity).
Qed.

Lemma In_string_app (c : ascii) (a b : string) :
  In c (list_ascii_of_string (a ++ b)) ->
  In c (list_ascii_of_string a) \/ In c (list_ascii_of_string b).
Proof.
  induction a as [|d a IH]; simpl; [auto|].
  intros [->|H]; [auto|]. destruct (IH H); auto.
Qed.

(** The match of [LINE] is white space and digits: it has no letter. *)
Lemma reLINE_no_letter (s : string) (m : Match) :
  reLINE s = Some m ->
  (forall c, In c (list_ascii_of_string (m0 m)) -> isLetter c = false) /\
  (forall c, In c (list_ascii_of_string (m1 m)) -> isLetter c = false).
Proof.
  unfold reLINE.
  pose proof (span_forall isSpace s) as F1. destruct (span isSpace s) as [w1 r1].
  pose proof (span_forall isDigit r1) as F2. destruct (span isDigit r1) as [ds r2].
  pose proof (span_forall isSpace r2) as F3.
  destruct (isEmpty ds); [discriminate|]. intros [= <-]. simpl in *. split.
  - intros c H. apply In_string_app in H. destruct H as [H|H].
    + apply space_not_letter, F1, H.
    + apply In_string_app in H. destruct H as [H|H].
      * apply digit_not_letter, F2, H.
      * apply space_not_letter, F3, H.
  - intros c H. apply digit_not_letter, F2, H.
Qed.

Lemma Match_eq (m m' : Match) : m0 m = m0 m' -> m1 m = m1 m' -> m = m'.
Proof. destruct m, m'. simpl. intros -> ->. reflexivity. Qed.

(** Two lines with the same upper case have the same match of [LINE]. *)
Lemma reLINE_variant (l1 l2 : string) (m : Match) :
  reLINE l1 = Some m -> toUpperCase l2 = toUpperCase l1 -> reLINE l2 = Some m.
Proof.
  intros R U. pose proof (reLINE_upper l2) as E. rewrite U, reLINE_upper, R in E.
  destruct (reLINE l2) as [m'|] eqn:R2; [|discriminate E].
  simpl in E. injection E as E0 E1. f_equal.
  destruct (reLINE_no_letter _ _ R) as [N0 N1].
  symmetry. apply Match_eq; apply toUpperCase_nonletters_inj; auto.
Qed.

Section CaseVariants.

Variable FUNCTIONS : list string.

Lemma firstMatch_variant_None (s1 s2 : string) :
  firstMatch FUNCTIONS s1 = None -> toUpperCase s2 = toUpperCase s1 ->
  firstMatch FUNCTIONS s2 = None.
Proof.
  intros F U. pose proof (firstMatch_upper FUNCTIONS s2) as E.
  rewrite U, firstMatch_upper, F in E.
  destruct (firstMatch FUNCTIONS s2); [discriminate E|reflexivity].
Qed.

(** With the same upper case, the same class matches, and the matches have
    the same upper case. *)
Lemma firstMatch_variant (s1 s2 : string) (c : PatternClass) (m : Match) :
  firstMatch FUNCTIONS s1 = Some (c, m) -> toUpperCase s2 = toUpperCase s1 ->
  exists m',
    firstMatch FUNCTIONS s2 = Some (c, m') /\
    toUpperCase (m0 m') = toUpperCase (m0 m) /\
    toUpperCase (m1 m') = toUpperCase (m1 m).
Proof.
  intros F U. pose proof (firstMatch_upper FUNCTIONS s2) as E.
  rewrite U, firstMatch_upper, F in E.
  destruct (firstMatch FUNCTIONS s2) as [[c' m']|]; [|discriminate E].
  simpl in E. injection E as -> E0 E1. exists m'. auto.
Qed.

(** A match at [p ++ r] that is as long as [p] is [p]. *)
Lemma firstMatch_split (p r : string) (c : PatternClass) (m : Match) :
  firstMatch FUNCTIONS (p ++ r) = Some (c, m) ->
  String.length (m0 m) = String.length p ->
  m0 m = p /\ slice (p ++ r) (String.length (m0 m)) = r.
Proof.
  intros F L. pose proof (firstMatch_slice FUNCTIONS _ _ _ F) as S.
  symmetry in S. destruct (append_inj _ _ _ _ S L) as [E1 E2]. auto.
Qed.

(** In two matches of one class with the same whole match, group 1 is the
    same when it has the same length. *)
Lemma shaped_group (pre s s' : string) (m m' : Match) :
  shaped pre s m -> shaped pre s' m' ->
  m0 m' = m0 m -> String.length (m1 m') = String.length (m1 m) ->
  m1 m' = m1 m.
Proof.
  intros (tail & r & S & _) (tail' & r' & S' & _) E L.
  rewrite S, S' in E.
  destruct (append_inj _ _ _ _ E eq_refl) as [_ E'].
  destruct (append_inj _ _ _ _ E' L) as [E1 _]. exact E1.
Qed.

Lemma SameButCase_upper (s1 s2 : string) :
  SameButCase FUNCTIONS s1 s2 -> toUpperCase s2 = toUpperCase s1.
Proof.
  induction 1 as [|s|s p c m F R U|s p r c m F W R U H IH|s r c m F W H IH].
  - reflexivity.
  - reflexivity.
  - rewrite (firstMatch_slice FUNCTIONS _ _ _ F) at 2.
    rewrite !toUpperCase_app, U. reflexivity.
  - rewrite (firstMatch_slice FUNCTIONS _ _ _ F) at 1.
    rewrite !toUpperCase_app, U, IH. reflexivity.
  - rewrite (firstMatch_slice FUNCTIONS _ _ _ F) at 1.
    rewrite !toUpperCase_app, IH. reflexivity.
Qed.

Lemma firstMatch_nonempty (s : string) (c : PatternClass) (m : Match) :
  firstMatch FUNCTIONS s = Some (c, m) -> isEmpty s = false.
Proof.
  intros F. destruct s; [|reflexivity]. rewrite firstMatch_empty in F. discriminate F.
Qed.

Lemma tokenize_loop_out_of_fuel (t : Tokenizer) :
  isEmpty (stmnt t) = false -> tokenize_loop FUNCTIONS 0 t = OutOfFuel.
Proof. intros NE. simpl. rewrite NE. reflexivity. Qed.

(** The loop of [tokenize] gives the same outcome on two statements that
    differ only in the letter case of their keywords and identifiers. *)
Lemma tokenize_loop_SameButCase (s1 s2 : string) :
  SameButCase FUNCTIONS s1 s2 ->
  forall fuel t,
    tokenize_loop FUNCTIONS fuel (setStmnt s2 t)
    = tokenize_loop FUNCTIONS fuel (setStmnt s1 t).
Proof.
  induction 1 as [|s|s p c m F R U|s p r c m F W R U H IH|s r c m F W H IH];
    intros fuel t; try reflexivity.
  - (* the keyword REM *)
    assert (V : toUpperCase (p ++ slice s (String.length (m0 m))) = toUpperCase s).
    { apply SameButCase_upper. eapply sbc_comment; eauto. }
    destruct (firstMatch_variant _ _ _ _ F V) as (m' & F' & U0 & U1).
    pose proof (firstMatch_nonempty _ _ _ F) as NE.
    pose proof (firstMatch_nonempty _ _ _ F') as NE'.
    destruct fuel as [|fuel]; [rewrite !tokenize_loop_out_of_fuel; auto|].
    rewrite !tokenize_loop_step by assumption. cbn [stmnt setStmnt]. rewrite F, F'.
    destruct (firstMatch_split _ _ _ _ F') as [E0 E1].
    { apply toUpperCase_eq_length. congruence. }
    f_equal. unfold afterMatch, eatenOf, tokensOfMatch.
    destruct c; try discriminate R. unfold isRem in *. rewrite U1, R.
    cbn [stmnt setStmnt tokens index tokenized lineno]. rewrite E1, !slice_all.
    reflexivity.
  - (* another keyword, a logical operator, a function, a constant, a variable *)
    assert (V : toUpperCase (p ++ r) = toUpperCase s).
    { apply SameButCase_upper. eapply sbc_word; eauto. }
    destruct (firstMatch_variant _ _ _ _ F V) as (m' & F' & U0 & U1).
    pose proof (firstMatch_nonempty _ _ _ F) as NE.
    pose proof (firstMatch_nonempty _ _ _ F') as NE'.
    destruct fuel as [|fuel]; [rewrite !tokenize_loop_out_of_fuel; auto|].
    rewrite !tokenize_loop_step by assumption. cbn [stmnt setStmnt]. rewrite F, F'.
    destruct (firstMatch_split _ _ _ _ F') as [E0 E1].
    { apply toUpperCase_eq_length. congruence. }
    assert (R' : isRem c m' = false).
    { unfold isRem in *. destruct c; auto. rewrite U1. exact R. }
    assert (K : tokensOfMatch c m' (p ++ r) = tokensOfMatch c m s).
    { unfold tokensOfMatch, isRem in *. destruct c; try discriminate W;
        rewrite ?U1; try reflexivity. rewrite R. reflexivity. }
    unfold afterMatch, eatenOf.
    cbn [stmnt setStmnt tokens index tokenized lineno]. rewrite R, R', K, E1.
    apply (IH fuel (pushAll (tokensOfMatch c m s) t)).
  - (* a string, a number, an operator, a line modifier *)
    assert (V : toUpperCase (m0 m ++ r) = toUpperCase s).
    { apply SameButCase_upper. eapply sbc_literal; eauto. }
    destruct (firstMatch_variant _ _ _ _ F V) as (m' & F' & U0 & U1).
    pose proof (firstMatch_nonempty _ _ _ F) as NE.
    pose proof (firstMatch_nonempty _ _ _ F') as NE'.
    destruct fuel as [|fuel]; [rewrite !tokenize_loop_out_of_fuel; auto|].
    rewrite !tokenize_loop_step by assumption. cbn [stmnt setStmnt]. rewrite F, F'.
    destruct (firstMatch_split _ _ _ _ F') as [E0 E1].
    { apply toUpperCase_eq_length. congruence. }
    assert (E : m' = m).
    { apply Match_eq; [exact E0|].
      destruct (firstMatch_shaped FUNCTIONS _ _ _ F) as [S _].
      destruct (firstMatch_shaped FUNCTIONS _ _ _ F') as [S' _].
      eapply shaped_group; eauto. apply toUpperCase_eq_length. exact U1. }
    subst m'.
    assert (R : isRem c m = false) by (destruct c; try discriminate W; reflexivity).
    assert (K : tokensOfMatch c m (m0 m ++ r) = tokensOfMatch c m s).
    { destruct c; try discriminate W; reflexivity. }
    unfold afterMatch, eatenOf.
    cbn [stmnt setStmnt tokens index tokenized lineno]. rewrite R, K, E1.
    apply (IH fuel (pushAll (tokensOfMatch c m s) t)).
Qed.

End CaseVariants.

(** Reads two given statements along the first one and builds the proof
    that they differ only in the letter case of keywords and identifiers. *)
Ltac same_but_case :=
  lazymatch goal with
  | |- SameButCase ?F ?s1 ?s2 =>
      let a := eval vm_compute in s1 in
      let b := eval vm_compute in s2 in
      change (SameButCase F a b);
      lazymatch a with
      | EmptyString => apply sbc_end
      | _ =>
          let fm := eval vm_compute in (firstMatch F a) in
          lazymatch fm with
          | Some (?c, ?m) =>
              let n := eval vm_compute in (String.length (m0 m)) in
              let p := eval vm_compute in (substring 0 n b) in
              let r := eval vm_compute in (slice b n) in
              first
                [ apply (sbc_word F a p r c m);
                  [reflexivity|reflexivity|reflexivity|reflexivity|same_but_case]
                | apply (sbc_literal F a r c m);
                  [reflexivity|reflexivity|same_but_case]
                | apply (sbc_comment F a p c m);
                  [reflexivity|reflexivity|reflexivity] ]
          | None => apply sbc_unrecognized; reflexivity
          end
      end
  end.

Example C7_tokens :
  tokenizeLine sampleFunctions ("10 print " ++ quoted "hi")
  = Return [ mkToken ty_lineno (LNumber (Int 10)); kw "PRINT"; str "hi" ].
Proof. reflexivity. Qed.

(* ------------------------------------------------------------------ *)
(** ** More on the tokenizer *)

Lemma nameChar_upper (c : ascii) : isNameChar (upper c) = isNameChar c.
Proof. all_chars c. Qed.

Lemma upper_not_nameChar (c : ascii) : isNameChar c = false -> upper c = c.
Proof.
  intros H. apply upper_nonletter. unfold isNameChar in H.
  destruct (isLetter c); [discriminate H|reflexivity].
Qed.

(** Where the text begins with a character that is neither of a name nor
    white space, a pattern of plain names matches nothing or the empty
    text. *)
Lemma altCI_plain (alts : list string) (c : ascii) (r : string) :
  Forall (fun name => allChars isNameChar name = true) alts ->
  isNameChar c = false ->
  altCI alts (String c r) = None \/ altCI alts (String c r) = Some (EmptyString, String c r).
Proof.
  intros F N. induction F as [|name alts P _ IH]; [left; reflexivity|].
  simpl. destruct name as [|p name]; [right; reflexivity|].
  simpl. simpl in P. apply andb_true_iff in P. destruct P as [P _].
  destruct (Ascii.eqb_spec (upper c) (upper p)) as [E|_]; [|exact IH].
  exfalso. rewrite (upper_not_nameChar c N) in E.
  rewrite E, nameChar_upper, P in N. discriminate N.
Qed.

Lemma reFUN_plain (FUNCTIONS : list string) (c : ascii) (r : string) :
  plainRegistry FUNCTIONS -> isNameChar c = false -> isSpace c = false ->
  truthy (reFUN FUNCTIONS (String c r)) = None.
Proof.
  intros P N S. unfold reFUN, reAlt.
  assert (F : Forall (fun name => allChars isNameChar name = true)
                (match FUNCTIONS with [] => [EmptyString] | _ => FUNCTIONS end)).
  { destruct FUNCTIONS; [repeat constructor|exact P]. }
  destruct (altCI_plain _ c r F N) as [-> | ->]; [reflexivity|].
  simpl. rewrite S. reflexivity.
Qed.

Section MoreTokenizer.

Variable FUNCTIONS : list string.

(** X1.  With a registry of plain names, a turn of the loop at [<>], [>=]
    or [<=] pushes that operator as one token, never its first character
    alone, and goes on after the white space that follows. *)
Theorem X1_two_character_operators
  (fuel : nat) (t : Tokenizer) (o rest : string) :
  plainRegistry FUNCTIONS -> In o OPERATORS2 ->
  tokenize_loop FUNCTIONS (S fuel) (setStmnt (o ++ rest) t)
  = tokenize_loop FUNCTIONS fuel
      (setStmnt (snd (span isSpace rest)) (push (mkToken ty_operation (LString o)) t)).
Proof.
  intros P I.
  assert (F : firstMatch FUNCTIONS (o ++ rest)
              = Some (OpC, mkMatch (o ++ fst (span isSpace rest)) o)).
  { unfold OPERATORS2 in I. simpl in I.
    destruct I as [<-|[<-|[<-|[]]]]; unfold firstMatch;
      cbn [append]; rewrite reFUN_plain by (exact P || reflexivity); reflexivity. }
  assert (NE : isEmpty (o ++ rest) = false).
  { apply (firstMatch_nonempty FUNCTIONS _ _ _ F). }
  rewrite tokenize_loop_step by exact NE. cbn [stmnt setStmnt]. rewrite F.
  unfold afterMatch, eatenOf, tokensOfMatch, isRem.
  cbn [stmnt setStmnt tokens index tokenized lineno m0 m1].
  rewrite (span_app isSpace rest) at 1. rewrite <- append_assoc, slice_app.
  reflexivity.
Qed.

(** X2.  [eatNumber] never throws: what [NUM] captures begins with a digit,
    so [parseFloat] of it is a number; the same holds of the whole chain of
    [eat] methods. *)
Theorem X2_eat_never_throws (t : Tokenizer) :
  (exists r, eatNumber t = Return r) /\ (exists r, eatAny FUNCTIONS t = Return r).
Proof.
  split.
  - unfold eatNumber. destruct (truthy (reNUM (stmnt t))) as [m|] eqn:T; [|eauto].
    apply truthy_Some in T. destruct T as [T _].
    rewrite (reNUM_not_NaN _ _ T). eauto.
  - rewrite eatAny_firstMatch.
    destruct (firstMatch FUNCTIONS (stmnt t)) as [[c m]|]; eauto.
Qed.

End MoreTokenizer.

(** X1 at [<>B] after [A] was read. *)
Lemma X1_witness :
  tokenize_loop sampleFunctions 3 (setStmnt "<>B" (mkTokenizer EmptyString [var "A"] 0 false (Int 10)))
  = Return (mkTokenizer EmptyString [var "A"; op "<>"; var "B"] 0 false (Int 10)).
Proof.
  rewrite (X1_two_character_operators sampleFunctions 2 _ "<>" "B").
  - reflexivity.
  - repeat constructor.
  - simpl. auto.
Defined.

(* ------------------------------------------------------------------ *)
(** ** The tokens of a tokenized line *)

Lemma digitsValue_nonneg (s : string) (acc : Z) :
  (0 <= acc)%Z -> (0 <= digitsValue acc s)%Z.
Proof.
  revert acc. induction s as [|c r IH]; intros acc H; cbn [digitsValue]; [exact H|].
  apply IH. lia.
Qed.

Lemma span_allChars (p : ascii -> bool) (s : string) :
  allChars p (fst (span p s)) = true.
Proof.
  induction s as [|c r IH]; simpl; [reflexivity|].
  destruct (p c) eqn:E; [|reflexivity].
  destruct (span p r). simpl in *. rewrite E, IH. reflexivity.
Qed.

(** A greedy [p*] on a run of [p] followed by something that does not begin
    with a [p]. *)
Lemma span_run (p : ascii -> bool) (a b : string) :
  allChars p a = true ->
  match b with EmptyString => True | String c _ => p c = false end ->
  span p (a ++ b) = (a, b).
Proof.
  intros A B. induction a as [|c a IH]; simpl in *.
  - destruct b as [|d b]; [reflexivity|]. simpl. rewrite B. reflexivity.
  - apply andb_true_iff in A. destruct A as [A1 A2]. rewrite A1, (IH A2). reflexivity.
Qed.

Lemma allChars_digit_upper (s : string) :
  allChars isDigit s = true -> toUpperCase s = s.
Proof.
  induction s as [|c r IH]; simpl; [reflexivity|].
  intros H. apply andb_true_iff in H. destruct H as [H1 H2].
  rewrite (upper_nonletter c (digit_not_letter c H1)), (IH H2). reflexivity.
Qed.

Lemma letter_upper_isUpper (c : ascii) : isLetter c = true -> isUpper (upper c) = true.
Proof.
  destruct c as [[] [] [] [] [] [] [] []]; intros H; vm_compute in H;
    (discriminate H || reflexivity).
Qed.

Lemma opChar_operator (c : ascii) :
  isOpChar c = true -> In (String c EmptyString) OPERATORS.
Proof.
  destruct c as [[] [] [] [] [] [] [] []]; intros H; vm_compute in H;
    try discriminate H; unfold OPERATORS, OPERATORS2; simpl; auto 20.
Qed.

(** A spelling of a literal without letters is the literal. *)
Lemma spelling_no_letter (k pat : string) :
  toUpperCase k = toUpperCase pat ->
  (forall c, In c (list_ascii_of_string pat) -> isLetter c = false) ->
  k = pat.
Proof. intros U N. symmetry. apply toUpperCase_nonletters_inj; auto. Qed.

Lemma reVAR_group (s : string) (m : Match) :
  reVAR s = Some m ->
  exists c ds, m1 m = String c ds /\ isLetter c = true /\ allChars isDigit ds = true.
Proof.
  unfold reVAR. destruct s as [|c r]; [discriminate|].
  destruct (isLetter c) eqn:L; [|discriminate].
  pose proof (span_allChars isDigit r) as A. destruct (span isDigit r) as [ds r1].
  match goal with |- context [let (dollar, r2) := ?X in _] => destruct X end.
  intros [= <-]. exists c, ds. simpl. auto.
Qed.

Lemma reNUM_group (s : string) (m : Match) :
  reNUM s = Some m -> isDecimalLiteral (m1 m) = true.
Proof.
  unfold reNUM. pose proof (span_allChars isDigit s) as A.
  pose proof (span_app isDigit s) as E. pose proof (span_span isDigit s) as SS.
  destruct (span isDigit s) as [ds r1]. simpl in A, E, SS.
  destruct (isEmpty ds) eqn:NE; [discriminate|].
  assert (D : forall frac, (frac = EmptyString \/
                 exists fs, frac = String "." fs /\ isEmpty fs = false /\
                            allChars isDigit fs = true) ->
              isDecimalLiteral (ds ++ frac) = true).
  { intros frac H. unfold isDecimalLiteral.
    rewrite (span_run isDigit ds frac A).
    - rewrite NE. destruct H as [->|(fs & -> & H1 & H2)]; [reflexivity|].
      simpl. rewrite H1, H2. reflexivity.
    - destruct H as [->|(fs & -> & _)]; [exact I|reflexivity]. }
  destruct r1 as [|d r'].
  - intros [= <-]. simpl. apply D. auto.
  - destruct (Ascii.eqb_spec d ".") as [->|].
    + pose proof (span_allChars isDigit r') as A'. destruct (span isDigit r') as [fs r''].
      simpl in A'. destruct (isEmpty fs) eqn:NF; intros [= <-]; simpl; apply D; [auto|].
      right. exists fs. auto.
    + intros [= <-]. simpl. apply D. auto.
Qed.

Lemma reOP_group (s : string) (m : Match) :
  reOP s = Some m -> In (m1 m) OPERATORS.
Proof.
  unfold reOP. destruct (altCI _ s) as [[k r]|] eqn:A.
  - intros [= <-]. simpl. destruct (altCI_app _ _ _ _ A) as [_ (pat & I & U)].
    assert (k = pat).
    { apply spelling_no_letter; [exact U|].
      simpl in I. destruct I as [<-|[<-|[<-|[]]]]; simpl;
        intros c [<-|[<-|[]]]; reflexivity. }
    subst k. simpl in I. unfold OPERATORS, OPERATORS2. simpl.
    destruct I as [I|[I|[I|[]]]]; auto.
  - destruct s as [|c r]; [discriminate|]. destruct (isOpChar c) eqn:O; [|discriminate].
    intros [= <-]. simpl. apply opChar_operator, O.
Qed.

Section TokenizedLine.

Variable FUNCTIONS : list string.

(** The pattern of the class that matches first is the one that gave the
    match. *)
Lemma firstMatch_class (s : string) (c : PatternClass) (m : Match) :
  firstMatch FUNCTIONS s = Some (c, m) ->
  match c with
  | KeyC => reKEY s
  | QuoteC => reQUOTE s
  | LogicC => reLOGIC s
  | FunC => reFUN FUNCTIONS s
  | ConstC => reCONST s
  | VarC => reVAR s
  | NumC => reNUM s
  | OpC => reOP s
  | LineModC => reLINEMOD s
  end = Some m.
Proof.
  unfold firstMatch.
  repeat match goal with
         | |- context [match truthy ?o with _ => _ end] =>
             let T := fresh "T" in
             destruct (truthy o) as [?x|] eqn:T;
             [intros [= <- <-]; apply truthy_Some in T; apply T|clear T]
         end.
  discriminate.
Qed.

Lemma tokensOfMatch_wellFormed (s : string) (c : PatternClass) (m : Match) :
  firstMatch FUNCTIONS s = Some (c, m) ->
  Forall (wellFormed FUNCTIONS) (tokensOfMatch c m s).
Proof.
  intros F. apply firstMatch_class in F. unfold wellFormed.
  destruct c; cbn [tokensOfMatch].
  - apply reAlt_shaped in F. destruct F as [_ (pat & I & U)].
    rewrite U, (KEYWORDS_upper pat I).
    destruct (String.eqb pat "REM").
    + constructor; [|constructor; [|constructor]]; cbn [type lexeme]; eauto.
    + constructor; [|constructor]; cbn [type lexeme]; eauto.
  - constructor; [|constructor]; cbn [type lexeme]; eauto.
  - apply reAlt_shaped in F. destruct F as [_ (pat & I & U)]. rewrite U.
    constructor; [|constructor]; cbn [type lexeme].
    simpl in I. destruct I as [<-|[<-|[]]]; auto.
  - apply reAlt_shaped in F. destruct F as [_ (pat & I & U)]. rewrite U.
    constructor; [|constructor]; cbn [type lexeme]. exists pat. auto.
  - apply reAlt_shaped in F. destruct F as [_ (pat & I & U)]. rewrite U.
    constructor; [|constructor]; cbn [type lexeme]. exists pat. split; [exact I|].
    simpl in I. destruct I as [<-|[<-|[]]]; reflexivity.
  - apply reVAR_group in F. destruct F as (ch & ds & -> & L & D).
    constructor; [|constructor]; cbn [type lexeme]. exists (upper ch), ds.
    cbn [toUpperCase]. rewrite (allChars_digit_upper ds D).
    auto using letter_upper_isUpper.
  - apply reNUM_group in F. constructor; [|constructor]; cbn [type lexeme]. eauto.
  - apply reOP_group in F. constructor; [|constructor]; cbn [type lexeme]. eauto.
  - apply reAlt_shaped in F. destruct F as [_ (pat & I & U)].
    simpl in I. destruct I as [<-|[]].
    assert (E : m1 m = ";").
    { apply spelling_no_letter; [exact U|]. simpl. intros ch [<-|[]]. reflexivity. }
    constructor; [|constructor]; cbn [type lexeme]. rewrite E. reflexivity.
Qed.

Lemma tokensOfMatch_comments (s : string) (c : PatternClass) (m : Match) :
  firstMatch FUNCTIONS s = Some (c, m) ->
  if isRem c m then commentsFollowRem (tokensOfMatch c m s) = true
  else exists tok, tokensOfMatch c m s = [tok] /\ isRemToken tok = false /\
                   TokenType_eqb (type tok) ty_comment = false.
Proof.
  intros _. destruct c; simpl; try (eexists; repeat split; reflexivity).
  destruct (String.eqb (toUpperCase (m1 m)) "REM") eqn:E.
  - cbn [commentsFollowRem]. unfold isRemToken. cbn [type lexeme lexeme_is].
    rewrite E. reflexivity.
  - eexists. split; [reflexivity|]. split; [|reflexivity].
    unfold isRemToken. cbn [type lexeme lexeme_is]. rewrite E. reflexivity.
Qed.

(** What the loop pushes is well formed, and its comments follow [REM]. *)
Lemma tokenize_loop_pushed (fuel : nat) (t t' : Tokenizer) :
  tokenize_loop FUNCTIONS fuel t = Return t' ->
  exists toks, tokens t' = (tokens t ++ toks)%list /\
               Forall (wellFormed FUNCTIONS) toks /\ commentsFollowRem toks = true.
Proof.
  revert t. induction fuel as [|fuel IH]; intros t H.
  - simpl in H. destruct (isEmpty (stmnt t)); [|discriminate].
    injection H as <-. exists []. rewrite app_nil_r. auto.
  - destruct (isEmpty (stmnt t)) eqn:NE.
    + rewrite tokenize_loop_done in H by exact NE. injection H as <-.
      exists []. rewrite app_nil_r. auto.
    + rewrite tokenize_loop_step in H by exact NE.
      destruct (firstMatch FUNCTIONS (stmnt t)) as [[c m]|] eqn:F; [|discriminate].
      pose proof (tokensOfMatch_wellFormed _ _ _ F) as W.
      pose proof (tokensOfMatch_comments _ _ _ F) as C.
      destruct (isRem c m) eqn:R.
      * unfold afterMatch, eatenOf in H. rewrite R, slice_all in H.
        rewrite tokenize_loop_done in H by reflexivity. injection H as <-.
        exists (tokensOfMatch c m (stmnt t)). simpl. auto.
      * apply IH in H. destruct H as (toks & E & W' & C').
        destruct C as (tok & Et & C1 & C2). simpl in E. rewrite Et in *.
        exists (tok :: toks). split; [|split].
        -- rewrite E, <- app_assoc. reflexivity.
        -- inversion W. constructor; assumption.
        -- simpl. rewrite C1, C2. exact C'.
Qed.

(** X4.  On a tokenized line the lexeme of every token is of the form of its
    type: a keyword of [KEYWORDS], [AND] or [OR], a constant of [CONSTANTS],
    the upper case of a name of the registry, an upper-case letter followed
    by digits, a decimal literal, an operator of [OP], the quoted [;], a
    quoted body. *)
Theorem X4_lexemes_are_well_formed (line : string) (t : Tokenizer) :
  tokenize FUNCTIONS (newTokenizer line) = Return t ->
  Forall (wellFormed FUNCTIONS) (tokens t).
Proof.
  unfold tokenize. cbn [stmnt newTokenizer tokens index tokenized lineno].
  destruct (reLINE line) as [m|]; [|discriminate]. cbv zeta.
  match goal with |- context [tokenize_loop _ ?f ?t0] =>
    pose proof (tokenize_loop_pushed f t0) as P;
    destruct (tokenize_loop FUNCTIONS f t0) as [t'|e|]
  end; try discriminate.
  intros [= <-]. destruct (P t' eq_refl) as (toks & E & W & _). simpl in *.
  rewrite E. constructor; [|exact W].
  unfold wellFormed. simpl. exists (parseInt (m1 m)). split; [|reflexivity].
  apply digitsValue_nonneg. lia.
Qed.

(** X5.  On a tokenized line a comment token is found only after the
    keyword token [REM], and it is the last token; the keyword token [REM] is
    always followed by it. *)
Theorem X5_comment_follows_rem (line : string) (t : Tokenizer) :
  tokenize FUNCTIONS (newTokenizer line) = Return t ->
  commentsFollowRem (tl (tokens t)) = true.
Proof.
  unfold tokenize. cbn [stmnt newTokenizer tokens index tokenized lineno].
  destruct (reLINE line) as [m|]; [|discriminate]. cbv zeta.
  match goal with |- context [tokenize_loop _ ?f ?t0] =>
    pose proof (tokenize_loop_pushed f t0) as P;
    destruct (tokenize_loop FUNCTIONS f t0) as [t'|e|]
  end; try discriminate.
  intros [= <-]. destruct (P t' eq_refl) as (toks & E & _ & C). simpl in *.
  rewrite E. exact C.
Qed.

(** X6.  [tokenize] uses up the text of the tokenizer: called a second time
    on the tokenizer it returned, it throws for want of a line number. *)
Theorem X6_tokenize_twice (line : string) (t : Tokenizer) :
  tokenize FUNCTIONS (newTokenizer line) = Return t ->
  tokenize FUNCTIONS t = Throw (ParseError (lineno t) LineNumberMissing).
Proof.
  intros H. pose proof (tokenize_outcome FUNCTIONS line) as O. rewrite H in O.
  destruct O as (m & toks & _ & _ & _ & _ & _ & _ & S).
  unfold tokenize. rewrite S. reflexivity.
Qed.

End TokenizedLine.

Lemma sampleLine_tokenized :
  tokenize sampleFunctions (newTokenizer sampleLine) = Return sampleTokenized.
Proof. reflexivity. Qed.

Lemma X4_witness : Forall (wellFormed sampleFunctions) (tokens sampleTokenized).
Proof. exact (X4_lexemes_are_well_formed sampleFunctions sampleLine _ sampleLine_tokenized). Defined.

Lemma X5_witness : commentsFollowRem (tl (tokens sampleTokenized)) = true.
Proof. exact (X5_comment_follows_rem sampleFunctions sampleLine _ sampleLine_tokenized). Defined.

Lemma X6_witness :
  tokenize sampleFunctions sampleTokenized = Throw (ParseError (Int 10) LineNumberMissing).
Proof. exact (X6_tokenize_twice sampleFunctions sampleLine _ sampleLine_tokenized). Defined.

(* ------------------------------------------------------------------ *)
(** ** The dollar sign of a variable *)

(** X18.  [eatVariable] eats the dollar sign after a variable name and does
    not record it: at [A$] and at [A] it pushes the same token, the letter in
    upper case with its digits. *)
Theorem X18_dollar_is_not_recorded (t : Tokenizer) (c : ascii) (ds rest : string) :
  isLetter c = true -> allChars isDigit ds = true ->
  eatVariable (setStmnt (String c ds ++ "$" ++ rest) t)
  = Return (Some (String c ds ++ "$" ++ fst (span isSpace rest)),
            push (var (String (upper c) ds)) (setStmnt (String c ds ++ "$" ++ rest) t)) /\
  (match rest with
   | EmptyString => True
   | String d _ => isDigit d = false /\ Ascii.eqb d "$" = false
   end ->
   eatVariable (setStmnt (String c ds ++ rest) t)
   = Return (Some (String c ds ++ fst (span isSpace rest)),
             push (var (String (upper c) ds)) (setStmnt (String c ds ++ rest) t))).
Proof.
  intros L D.
  assert (Up : toUpperCase (String c ds) = String (upper c) ds)
    by (cbn [toUpperCase]; rewrite (allChars_digit_upper ds D); reflexivity).
  split.
  - unfold eatVariable. cbn [stmnt setStmnt append]. unfold reVAR. rewrite L.
    rewrite (span_run isDigit ds (String "$" rest) D) by reflexivity.
    cbn [append Ascii.eqb Bool.eqb truthy m0 m1 isEmpty]. rewrite Up. reflexivity.
  - intros R. unfold eatVariable. cbn [stmnt setStmnt append]. unfold reVAR. rewrite L.
    rewrite (span_run isDigit ds rest D)
      by (destruct rest; [exact I|apply R]).
    destruct rest as [|d rest].
    + cbn [append truthy m0 m1 isEmpty]. rewrite Up. reflexivity.
    + destruct R as [_ R]. rewrite R.
      cbn [append truthy m0 m1 isEmpty]. rewrite Up. reflexivity.
Qed.

(** X18 at [a1$ = 2] and at [a1 = 2]. *)
Lemma X18_witness :
  eatVariable (setStmnt "a1$ = 2" (newTokenizer ""))
  = Return (Some "a1$ ", push (var "A1") (setStmnt "a1$ = 2" (newTokenizer ""))) /\
  eatVariable (setStmnt "a1 = 2" (newTokenizer ""))
  = Return (Some "a1 ", push (var "A1") (setStmnt "a1 = 2" (newTokenizer ""))).
Proof.
  split.
  - exact (proj1 (X18_dollar_is_not_recorded (newTokenizer "") "a" "1" " = 2"
                    eq_refl eq_refl)).
  - exact (proj2 (X18_dollar_is_not_recorded (newTokenizer "") "a" "1" " = 2"
                    eq_refl eq_refl) (conj eq_refl eq_refl)).
Defined.

(* ------------------------------------------------------------------ *)
(** ** Text that begins no token *)

Lemma reAlt_plain (alts : list string) (c : ascii) (r : string) :
  Forall (fun name => allChars isNameChar name = true) alts ->
  isNameChar c = false -> isSpace c = false ->
  truthy (reAlt alts (String c r)) = None.
Proof.
  intros F N S. unfold reAlt.
  destruct (altCI_plain _ c r F N) as [-> | ->]; [reflexivity|].
  simpl. rewrite S. reflexivity.
Qed.

Lemma nameChar_split (c : ascii) :
  isNameChar c = false -> isLetter c = false /\ isDigit c = false.
Proof.
  unfold isNameChar. destruct (isLetter c), (isDigit c); simpl; auto; discriminate.
Qed.

Section OutsideTheLexicon.

Variable FUNCTIONS : list string.

Lemma beginsNoToken_firstMatch (s : string) :
  plainRegistry FUNCTIONS -> beginsNoToken s = true -> firstMatch FUNCTIONS s = None.
Proof.
  intros P B. destruct s as [|c r]; [discriminate B|].
  cbn [beginsNoToken] in B. apply andb_true_iff in B. destruct B as [B Q].
  apply negb_true_iff in B.
  apply orb_false_iff in B. destruct B as [B Semi].
  apply orb_false_iff in B. destruct B as [B O].
  apply orb_false_iff in B. destruct B as [S N].
  destruct (nameChar_split c N) as [L D].
  apply firstMatch_None. unfold noPatternMatches.
  split; [apply reAlt_plain; [repeat constructor|exact N|exact S]|].
  split; [destruct (reQUOTE (String c r)); [discriminate Q|reflexivity]|].
  split; [apply reAlt_plain; [repeat constructor|exact N|exact S]|].
  split; [apply reFUN_plain; assumption|].
  split; [apply reAlt_plain; [repeat constructor|exact N|exact S]|].
  split; [unfold reVAR; rewrite L; reflexivity|].
  split; [unfold reNUM; cbn [span]; rewrite D; reflexivity|].
  assert (Up : upper c = c) by (apply upper_nonletter; exact L).
  split.
  - unfold reOP. cbn [altCI prefixCI]. rewrite Up.
    assert (O1 : Ascii.eqb c "<" = false /\ Ascii.eqb c ">" = false).
    { unfold isOpChar in O. cbn [existsb] in O.
      repeat (apply orb_false_iff in O; destruct O as [? O]). auto. }
    destruct O1 as [O1 O2].
    change (upper "<") with "<"%char. change (upper ">") with ">"%char.
    rewrite O1, O2, O. reflexivity.
  - unfold reLINEMOD, reAlt. cbn [altCI prefixCI]. rewrite Up.
    change (upper ";") with ";"%char. rewrite Semi. reflexivity.
Qed.

(** X15.  With a registry of plain names, at a text that begins with a
    character of no pattern, or with a double quote that no closing quote
    follows, the loop of [tokenize] throws [Invalid syntax near] with the
    text and the number of the line. *)
Theorem X15_text_that_begins_no_token (fuel : nat) (t : Tokenizer) :
  plainRegistry FUNCTIONS -> beginsNoToken (stmnt t) = true ->
  tokenize_loop FUNCTIONS (S fuel) t
  = Throw (ParseError (lineno t) (InvalidSyntaxNear (stmnt t))).
Proof.
  intros P B.
  assert (NE : isEmpty (stmnt t) = false)
    by (destruct (stmnt t); [discriminate B|reflexivity]).
  rewrite (tokenize_loop_step FUNCTIONS fuel t NE).
  rewrite (beginsNoToken_firstMatch _ P B). reflexivity.
Qed.

End OutsideTheLexicon.

Lemma sampleFunctions_plain : plainRegistry sampleFunctions.
Proof. repeat constructor. Qed.

Lemma X15_witness :
  tokenize_loop sampleFunctions 1
    (setStmnt (String dq "never closed") (tokenizerAt 10 [kw "PRINT"]))
  = Throw (ParseError (Int 10) (InvalidSyntaxNear (String dq "never closed"))).
Proof.
  exact (X15_text_that_begins_no_token sampleFunctions 0
           (setStmnt (String dq "never closed") (tokenizerAt 10 [kw "PRINT"]))
           sampleFunctions_plain eq_refl).
Defined.

(* ------------------------------------------------------------------ *)
(** ** Reading the tokens *)

Lemma unread_nil (t : Tokenizer) : length (tokens t) <= index t -> unread t = [].
Proof. intros H. unfold unread. apply skipn_all2, H. Qed.

Lemma skipn_cons_nth {A : Type} (l : list A) (i : nat) (d : A) :
  i < length l -> skipn i l = nth i l d :: skipn (S i) l.
Proof.
  revert i. induction l as [|x l IH]; intros i H; simpl in H; [lia|].
  destruct i as [|i]; [reflexivity|]. simpl. apply IH. lia.
Qed.

Lemma unread_cons (t : Tokenizer) :
  index t < length (tokens t) ->
  unread t = nth (index t) (tokens t) eof :: unread (advance t).
Proof. intros H. unfold unread, advance. simpl. apply skipn_cons_nth, H. Qed.

Lemma unread_inv (t : Tokenizer) (x : Token) (rest : list Token) :
  unread t = x :: rest ->
  index t < length (tokens t) /\ nth (index t) (tokens t) eof = x /\
  unread (advance t) = rest.
Proof.
  intros H. destruct (Nat.lt_ge_cases (index t) (length (tokens t))) as [L|L].
  - rewrite (unread_cons t L) in H. injection H as H1 H2. auto.
  - rewrite (unread_nil t L) in H. discriminate H.
Qed.

Lemma unread_nil_inv (t : Tokenizer) : unread t = [] -> length (tokens t) <= index t.
Proof.
  intros H. destruct (Nat.lt_ge_cases (index t) (length (tokens t))) as [L|L]; [|exact L].
  rewrite (unread_cons t L) in H. discriminate H.
Qed.

Lemma atIndex_same (t : Tokenizer) : atIndex (index t) t = t.
Proof. destruct t. reflexivity. Qed.

Lemma atIndex_advance (t : Tokenizer) (i : nat) : atIndex i (advance t) = atIndex i t.
Proof. reflexivity. Qed.

Lemma nth_skipn_eof (l : list Token) (i n : nat) :
  nth n (skipn i l) eof = nth (i + n) l eof.
Proof.
  revert l. induction i as [|i IH]; intros l; [reflexivity|].
  destruct l as [|x l]; simpl; [destruct n; reflexivity|apply IH].
Qed.

(** X7.  On a tokenized tokenizer [peek(n)] returns the [n]-th of the tokens
    from the cursor on, or the sentinel when there is none; [next], called
    [k] times, returns those tokens in their order and then the sentinel as
    often as is left, and leaves the cursor as many tokens further as it
    returned from the array. *)
Theorem X7_next_reads_in_order (t : Tokenizer) (k n : nat) :
  tokenized t = true ->
  peek n t = Return (nth n (unread t) eof) /\
  nextTimes k t
  = Return ((firstn k (unread t) ++ repeat eof (k - remaining t))%list,
            atIndex (index t + Nat.min k (remaining t)) t).
Proof.
  intros T. split.
  - rewrite (peek_eq n t T). unfold unread. rewrite nth_skipn_eof.
    destruct (Nat.leb_spec (length (tokens t)) (index t + n)) as [L|L]; [|reflexivity].
    rewrite nth_overflow by exact L. reflexivity.
  - revert t T. induction k as [|k IH]; intros t T.
    + simpl. rewrite Nat.add_0_r, atIndex_same. reflexivity.
    + cbn [nextTimes]. rewrite (next_eq t T).
      destruct (Nat.leb_spec (length (tokens t)) (index t)) as [L|L]; cbn [obind fst snd].
      * rewrite (IH t T). cbn [obind fst snd]. rewrite (unread_nil t L).
        unfold remaining. replace (length (tokens t) - index t) with 0 by lia.
        rewrite !firstn_nil, !Nat.min_0_r, !Nat.sub_0_r. reflexivity.
      * rewrite (IH (advance t) T). cbn [obind fst snd].
        rewrite (unread_cons t L). pose proof (remaining_advance t L) as R.
        rewrite <- R. cbn [firstn app]. rewrite atIndex_advance. do 3 f_equal.
        unfold advance. cbn [index]. lia.
Qed.

Lemma X7_witness :
  peek 2 sampleTokenized = Return (var "A1") /\
  nextTimes 9 sampleTokenized
  = Return ((tokens sampleTokenized ++ [eof])%list, atIndex 8 sampleTokenized).
Proof. exact (X7_next_reads_in_order sampleTokenized 9 2 eq_refl). Defined.

(* ------------------------------------------------------------------ *)
(** ** The scan of an expression *)

Lemma peekM_unread_nil (t : Tokenizer) :
  tokenized t = true -> unread t = [] -> peekM t = Return (eof, t).
Proof.
  intros T U. unfold peekM, lift. rewrite (peek_eq 0 t T), Nat.add_0_r.
  apply unread_nil_inv in U. apply Nat.leb_le in U. rewrite U. reflexivity.
Qed.

Lemma peekM_unread_cons (t : Tokenizer) (x : Token) (rest : list Token) :
  tokenized t = true -> unread t = x :: rest -> peekM t = Return (x, t).
Proof.
  intros T U. unfold peekM, lift. rewrite (peek_eq 0 t T), Nat.add_0_r.
  apply unread_inv in U. destruct U as (L & E & _).
  apply Nat.leb_gt in L. rewrite L, E. reflexivity.
Qed.

Lemma nextM_unread_nil (t : Tokenizer) :
  tokenized t = true -> unread t = [] -> nextM t = Return (eof, t).
Proof.
  intros T U. unfold nextM. rewrite (next_eq t T).
  apply unread_nil_inv in U. apply Nat.leb_le in U. rewrite U. reflexivity.
Qed.

Lemma nextM_unread_cons (t : Tokenizer) (x : Token) (rest : list Token) :
  tokenized t = true -> unread t = x :: rest ->
  nextM t = Return (x, advance t) /\ unread (advance t) = rest.
Proof.
  intros T U. unfold nextM. rewrite (next_eq t T).
  apply unread_inv in U. destruct U as (L & E & R).
  apply Nat.leb_gt in L. rewrite L, E. auto.
Qed.

(** The scan, from any state of its array: it throws at an opening bracket
    that it reads, and otherwise returns the array with the run of scanned
    tokens added and leaves the cursor after the run. *)
Lemma expectExpr_loop_run (fuel : nat) :
  forall (expr : list Token) (t : Tokenizer),
    tokenized t = true -> length (unread t) < fuel ->
    expectExpr_loop fuel expr t =
    if stopsAtOpener (unread t) then Throw (TypeError AssignmentToConstant)
    else Return ((expr ++ scanRun (unread t))%list,
                 atIndex (index t + length (scanRun (unread t))) t).
Proof.
  induction fuel as [|fuel IH]; intros expr t T L; [lia|].
  cbn [expectExpr_loop]. cbv zeta. unfold bind at 1.
  destruct (unread t) as [|x rest] eqn:U.
  - rewrite (peekM_unread_nil t T U). cbn [isEof eof type lexeme]. simpl.
    rewrite app_nil_r, Nat.add_0_r, atIndex_same. reflexivity.
  - rewrite (peekM_unread_cons t x rest T U).
    destruct (nextM_unread_cons t x rest T U) as [N R].
    cbn [stopsAtOpener scanRun]. unfold scanned, scannable.
    destruct (isEof x) eqn:E.
    { simpl. rewrite app_nil_r, Nat.add_0_r, atIndex_same. reflexivity. }
    unfold bind at 1. rewrite (peekM_unread_cons t x rest T U).
    destruct (isExpressionType (type x)) eqn:X; cbn [negb andb].
    2:{ simpl. rewrite app_nil_r, Nat.add_0_r, atIndex_same. reflexivity. }
    unfold bind at 1. rewrite (peekM_unread_cons t x rest T U).
    fold (isCloser x). fold (isOpener x).
    destruct (isCloser x) eqn:C.
    { rewrite andb_false_r. simpl. rewrite app_nil_r, Nat.add_0_r, atIndex_same.
      reflexivity. }
    cbn [andb negb Z.eqb]. rewrite andb_true_r.
    unfold bind at 1. rewrite N.
    destruct (isOpener x) eqn:O.
    { reflexivity. }
    cbn [negb]. unfold bind at 1. unfold ret at 1.
    assert (C' : lexeme_is (lexeme x) "]" || lexeme_is (lexeme x) "]" = false).
    { unfold isCloser in C. apply orb_false_iff in C. destruct C as [C _].
      rewrite C. reflexivity. }
    rewrite C'. unfold bind at 1. unfold ret at 1.
    rewrite (IH (expr ++ [x])%list (advance t) T) by (rewrite R; simpl in L; lia).
    rewrite R. destruct (stopsAtOpener rest); [reflexivity|].
    rewrite <- app_assoc. cbn [app length]. rewrite atIndex_advance. do 3 f_equal.
    unfold advance. cbn [index]. lia.
Qed.

(* ------------------------------------------------------------------ *)
(** ** The scan of an expression *)

Section ScanFacts.

Variable Expr : Type.
Variable exprToJS : list Token -> Result Expr.

Lemma unread_length (t : Tokenizer) : length (unread t) = remaining t.
Proof. unfold unread, remaining. apply length_skipn. Qed.

Lemma expectExpr_scan (t : Tokenizer) :
  tokenized t = true ->
  expectExpr exprToJS t =
  if stopsAtOpener (unread t) then Throw (TypeError AssignmentToConstant)
  else
    match scanRun (unread t) with
    | [] => Throw (Error ExpectedExpression)
    | run =>
        obind (ofResult (exprToJS run)) (fun e =>
        Return (e, atIndex (index t + length run) t))
    end.
Proof.
  intros T. unfold expectExpr, bind.
  rewrite (expectExpr_loop_run _ [] t T)
    by (rewrite unread_length; unfold remaining; lia).
  destruct (stopsAtOpener (unread t)); [reflexivity|]. cbn [app].
  destruct (scanRun (unread t)) as [|x run]; [reflexivity|].
  cbn [length Nat.eqb]. unfold lift. reflexivity.
Qed.

(** X8.  On a tokenized tokenizer [expectExpr] takes the longest run of
    tokens from the cursor on that are of an expression type and are no
    bracket or parenthesis.  It throws a [TypeError] when the run ends at an
    opening bracket or parenthesis of an expression type, which it reads;
    it throws [Expected expression] when the run is empty; otherwise it
    gives the run to the translator and leaves the cursor after the run. *)
Theorem X8_expectExpr_takes_the_run (t : Tokenizer) :
  tokenized t = true ->
  expectExpr exprToJS t =
  if stopsAtOpener (unread t) then Throw (TypeError AssignmentToConstant)
  else
    match scanRun (unread t) with
    | [] => Throw (Error ExpectedExpression)
    | run =>
        obind (ofResult (exprToJS run)) (fun e =>
        Return (e, atIndex (index t + length run) t))
    end.
Proof.
  intros T. unfold expectExpr, bind.
  rewrite (expectExpr_loop_run _ [] t T)
    by (rewrite unread_length; unfold remaining; lia).
  destruct (stopsAtOpener (unread t)); [reflexivity|]. cbn [app].
  destruct (scanRun (unread t)) as [|x run]; [reflexivity|].
  cbn [length Nat.eqb]. unfold lift. reflexivity.
Qed.

Lemma scanRun_app (run rest : list Token) :
  forallb scanned run = true ->
  match rest with [] => True | x :: _ => scanned x = false end ->
  scanRun (run ++ rest) = run.
Proof.
  intros F N. induction run as [|y run IH]; cbn [app scanRun forallb] in *.
  - destruct rest as [|x rest]; [reflexivity|]. cbn [scanRun]. rewrite N. reflexivity.
  - apply andb_true_iff in F. destruct F as [F1 F2]. rewrite F1, (IH F2). reflexivity.
Qed.

Lemma stopsAtOpener_app (run rest : list Token) :
  forallb scanned run = true ->
  stopsAtOpener (run ++ rest) = stopsAtOpener rest.
Proof.
  intros F. induction run as [|y run IH]; cbn [app stopsAtOpener forallb] in *; [reflexivity|].
  apply andb_true_iff in F. destruct F as [F1 F2]. rewrite F1. exact (IH F2).
Qed.

Lemma unread_atIndex (t : Tokenizer) (k : nat) :
  unread (atIndex (index t + k) t) = skipn k (unread t).
Proof.
  unfold unread, atIndex. cbn [index tokens]. rewrite skipn_skipn.
  f_equal. lia.
Qed.

Lemma unread_advance (t : Tokenizer) (x : Token) (rest : list Token) :
  unread t = x :: rest -> unread (advance t) = rest.
Proof. intros U. apply unread_inv in U. apply U. Qed.

Lemma advance_atIndex (t : Tokenizer) : advance t = atIndex (index t + 1) t.
Proof. unfold advance, atIndex. rewrite Nat.add_1_r. reflexivity. Qed.

Lemma atIndex_atIndex (t : Tokenizer) (i j : nat) : atIndex j (atIndex i t) = atIndex j t.
Proof. reflexivity. Qed.

(** [expectExpr] where the tokens from the cursor on are a run of scanned
    tokens and then a token that is not scanned and is no opening bracket, or
    nothing. *)
Lemma expectExpr_on_run (t : Tokenizer) (run rest : list Token) :
  tokenized t = true ->
  unread t = (run ++ rest)%list ->
  forallb scanned run = true -> run <> [] ->
  match rest with [] => True | x :: _ => scanned x = false end ->
  stopsAtOpener rest = false ->
  expectExpr exprToJS t =
  obind (ofResult (exprToJS run)) (fun e =>
  Return (e, atIndex (index t + length run) t)).
Proof.
  intros T U F NE N O. rewrite (expectExpr_scan t T), U.
  rewrite (stopsAtOpener_app run rest F), O, (scanRun_app run rest F N).
  destruct run; [contradiction|reflexivity].
Qed.

End ScanFacts.

Lemma X8_witness :
  expectExpr tokensOf (atIndex 2 sampleTokenized)
  = Return ([var "A1"; op "<>"; num "2.5"], atIndex 5 sampleTokenized).
Proof. exact (X8_expectExpr_takes_the_run _ tokensOf (atIndex 2 sampleTokenized) eq_refl). Defined.

(* ------------------------------------------------------------------ *)
(** ** Statements of one expression *)

Lemma bind_Return {A B : Type} (c : M A) (k : A -> M B) (t t' : Tokenizer) (a : A) :
  c t = Return (a, t') -> bind c k t = k a t'.
Proof. intros E. unfold bind. rewrite E. reflexivity. Qed.

Lemma bind_Throw {A B : Type} (c : M A) (k : A -> M B) (t : Tokenizer) (e : Exn) :
  c t = Throw e -> bind c k t = Throw e.
Proof. intros E. unfold bind. rewrite E. reflexivity. Qed.

Lemma tokenized_atIndex (t : Tokenizer) (i : nat) : tokenized (atIndex i t) = tokenized t.
Proof. reflexivity. Qed.

Lemma afterRun_cons (toks : list Token) (t : Tokenizer) (i : nat) :
  unread (atIndex i t) = toks ->
  unread (atIndex (i + length (scanRun toks)) t) = afterRun toks.
Proof.
  intros U. unfold afterRun. rewrite <- U. unfold unread, atIndex. cbn [index tokens].
  rewrite skipn_skipn. f_equal. lia.
Qed.

Section Statements.

Variable Expr : Type.
Variable exprToJS : list Token -> Result Expr.

(** [acceptLineMod] on a tokenized tokenizer. *)
Lemma acceptLineMod_run (t : Tokenizer) :
  tokenized t = true ->
  acceptLineMod t =
  Return (headIsLineMod (unread t),
          if headIsLineMod (unread t) then advance t else t).
Proof.
  intros T. unfold acceptLineMod. destruct (unread t) as [|x rest] eqn:U.
  - rewrite (bind_Return _ _ _ _ _ (peekM_unread_nil t T U)). reflexivity.
  - rewrite (bind_Return _ _ _ _ _ (peekM_unread_cons t x rest T U)).
    cbn [headIsLineMod]. destruct (TokenType_eqb (type x) ty_linemod); [|reflexivity].
    destruct (nextM_unread_cons t x rest T U) as [N _].
    rewrite (bind_Return _ _ _ _ _ N). reflexivity.
Qed.

(** X9.  A statement of the keyword [END] is the keyword alone: nothing
    after it is read.  A statement of [PAUSE], [GOTO] or [PRINT] is the
    keyword and the run of scanned tokens after it, which is given to the
    translator; [PRINT] also reads a line modifier that follows the run.
    What comes after is not read, and no end of line is asked for. *)
Theorem X9_statements_of_one_expression
    (fuel : nat) (ln : JsNumber) (t : Tokenizer) (toks : list Token) :
  tokenized t = true ->
  (unread t = kw "END" :: toks ->
   parse exprToJS (S fuel) ln t = Return (END ln, advance t)) /\
  (forall (k : string) (node : Expr -> Node Expr),
     In (k, node) [("PAUSE", PAUSE ln); ("GOTO", GOTO ln)] ->
     unread t = kw k :: toks ->
     parse exprToJS (S fuel) ln t =
     if stopsAtOpener toks then Throw (TypeError AssignmentToConstant)
     else
       match scanRun toks with
       | [] => Throw (Error ExpectedExpression)
       | run =>
           obind (ofResult (exprToJS run)) (fun e =>
           Return (node e, atIndex (index t + 1 + length run) t))
       end) /\
  (unread t = kw "PRINT" :: toks ->
   parse exprToJS (S fuel) ln t =
   if stopsAtOpener toks then Throw (TypeError AssignmentToConstant)
   else
     match scanRun toks with
     | [] => Throw (Error ExpectedExpression)
     | run =>
         obind (ofResult (exprToJS run)) (fun e =>
         Return (PRINT ln e (headIsLineMod (afterRun toks)),
                 atIndex (index t + 1 + length run
                          + (if headIsLineMod (afterRun toks) then 1 else 0)) t))
     end).
Proof.
  intros T.
  assert (step : forall k, unread t = kw k :: toks ->
            nextM t = Return (kw k, advance t) /\ unread (advance t) = toks
            /\ tokenized (advance t) = true).
  { intros k U. destruct (nextM_unread_cons t _ _ T U) as [N U']. auto. }
  assert (scan : forall k (B : Type) (c : Expr -> M B),
            unread t = kw k :: toks ->
            bind (expectExpr exprToJS) c (advance t) =
            if stopsAtOpener toks then Throw (TypeError AssignmentToConstant)
            else match scanRun toks with
                 | [] => Throw (Error ExpectedExpression)
                 | run => match ofResult (exprToJS run) with
                          | Return e => c e (atIndex (index t + 1 + length run) t)
                          | Throw e => Throw e
                          | OutOfFuel => OutOfFuel
                          end
                 end).
  { intros k B c U. destruct (step k U) as (_ & U' & T').
    unfold bind. rewrite (expectExpr_scan _ exprToJS (advance t) T'), U'.
    destruct (stopsAtOpener toks); [reflexivity|].
    destruct (scanRun toks) as [|x run]; [reflexivity|]. cbv zeta.
    destruct (exprToJS (x :: run)); cbn [ofResult obind]; [|reflexivity].
    cbn [advance index]. rewrite <- Nat.add_1_r. reflexivity. }
  split; [|split].
  - intros U. destruct (step _ U) as (N & _). cbn [parse].
    rewrite (bind_Return _ _ _ _ _ N). reflexivity.
  - intros k node I U. destruct (step _ U) as (N & _).
    cbn [parse]. rewrite (bind_Return _ _ _ _ _ N).
    destruct I as [I|[I|[]]]; inversion I; subst k node;
      (erewrite bind_Return by reflexivity);
      cbn [kw lexeme lexeme_is String.eqb Ascii.eqb Bool.eqb];
      rewrite (scan _ _ _ U);
      destruct (stopsAtOpener toks); try reflexivity;
      destruct (scanRun toks) as [|x run]; try reflexivity; cbv zeta;
      destruct (exprToJS (x :: run)); reflexivity.
  - intros U. destruct (step _ U) as (N & U' & T').
    cbn [parse]. rewrite (bind_Return _ _ _ _ _ N).
    (erewrite bind_Return by reflexivity).
    cbn [kw lexeme lexeme_is String.eqb Ascii.eqb Bool.eqb].
    rewrite (scan _ _ _ U).
    destruct (stopsAtOpener toks); [reflexivity|].
    destruct (scanRun toks) as [|x run] eqn:R; [reflexivity|]. cbv zeta.
    destruct (exprToJS (x :: run)) as [e|e]; cbn [ofResult obind]; [|reflexivity].
    assert (T2 : tokenized (atIndex (index t + 1 + length (x :: run)) t) = true) by exact T.
    assert (U2 : unread (atIndex (index t + 1 + length (x :: run)) t) = afterRun toks).
    { rewrite <- R. apply afterRun_cons. rewrite <- U'.
      unfold advance, atIndex. rewrite Nat.add_1_r. reflexivity. }
    rewrite (bind_Return _ _ _ _ _ (acceptLineMod_run _ T2)), U2.
    unfold ret. destruct (headIsLineMod (afterRun toks)).
    + unfold advance, atIndex. cbn [index stmnt tokens tokenized lineno].
      do 3 f_equal. lia.
    + rewrite Nat.add_0_r. reflexivity.
Qed.

End Statements.

(* ------------------------------------------------------------------ *)
(** ** Variable references *)

Section Subscripts.

Variable Expr : Type.
Variable exprToJS : list Token -> Result Expr.

Lemma unread_atIndex_app (t : Tokenizer) (i : nat) (run rest : list Token) :
  unread (atIndex i t) = (run ++ rest)%list ->
  unread (atIndex (i + length run) t) = rest.
Proof.
  unfold unread, atIndex. cbn [index tokens]. intros U.
  rewrite Nat.add_comm, <- skipn_skipn, U.
  rewrite skipn_app, skipn_all, Nat.sub_diag. reflexivity.
Qed.

Lemma atIndex_index (t : Tokenizer) : atIndex (index t) t = t.
Proof. destruct t. reflexivity. Qed.

(** X10.  [expectVariable] reads a variable token and then a subscript only
    if the next lexeme is an opening square bracket.  The subscript is the
    run of scanned tokens between the brackets; with no closing bracket after
    the run the translator is still called and then the end of the line is
    refused; a bracket or parenthesis opened inside the subscript makes the
    scan throw a [TypeError]. *)
Theorem X10_subscript_of_a_variable
    (ln : JsNumber) (t : Tokenizer) (x : Token) (rest : list Token) :
  tokenized t = true -> unread t = x :: rest -> type x = ty_variable ->
  (match rest with [] => True | y :: _ => lexeme_is (lexeme y) "[" = false end ->
   expectVariable exprToJS ln t = Return (Variable_ ln (lexeme x) None, advance t)) /\
  (forall inner after : list Token,
     rest = (op "[" :: inner ++ op "]" :: after)%list ->
     forallb scanned inner = true -> inner <> [] ->
     expectVariable exprToJS ln t =
     obind (ofResult (exprToJS inner)) (fun e =>
     Return (Variable_ ln (lexeme x) (Some e), atIndex (index t + 3 + length inner) t))) /\
  (forall inner : list Token,
     rest = op "[" :: inner ->
     forallb scanned inner = true -> inner <> [] ->
     expectVariable exprToJS ln t =
     obind (ofResult (exprToJS inner)) (fun _ =>
     Throw (Error (ExpectTokenOfType ty_operation ty_eof)))) /\
  (forall (inner after : list Token) (o : string),
     rest = (op "[" :: inner ++ op o :: after)%list ->
     forallb scanned inner = true -> In o ["["; "("] ->
     expectVariable exprToJS ln t = Throw (TypeError AssignmentToConstant)).
Proof.
  intros T U V.
  destruct (nextM_unread_cons t x rest T U) as [N U1].
  assert (T1 : tokenized (advance t) = true) by exact T.
  assert (head : expectVariable exprToJS ln t
                 = bind (acceptSubscript exprToJS)
                     (fun sub => ret (Variable_ ln (lexeme x) sub)) (advance t)).
  { unfold expectVariable. rewrite (bind_Return _ _ _ _ _ N).
    unfold assertType. rewrite V. reflexivity. }
  rewrite head. clear head.
  assert (opened : forall toks, rest = op "[" :: toks ->
            acceptSubscript exprToJS (advance t)
            = bind (expectExpr exprToJS) (fun expr =>
                c <- nextM ;;
                lift (assertType c ty_operation (Some "]")) ;;;
                ret (Some expr)) (atIndex (index t + 2) t)
            /\ unread (atIndex (index t + 2) t) = toks).
  { intros toks R. rewrite R in U1.
    destruct (nextM_unread_cons _ _ _ T1 U1) as [N2 U2].
    unfold acceptSubscript.
    rewrite (bind_Return _ _ _ _ _ (peekM_unread_cons _ _ _ T1 U1)).
    cbn [op lexeme lexeme_is String.eqb Ascii.eqb Bool.eqb negb].
    rewrite (bind_Return _ _ _ _ _ N2).
    replace (atIndex (index t + 2) t) with (advance (advance t))
      by (unfold advance, atIndex; cbn [index stmnt tokens tokenized lineno];
          do 1 f_equal; lia).
    split; [reflexivity|exact U2]. }
  split; [|split; [|split]].
  - intros H. unfold acceptSubscript, bind at 1.
    destruct rest as [|y rest].
    + rewrite (bind_Return _ _ _ _ _ (peekM_unread_nil _ T1 U1)). reflexivity.
    + rewrite (bind_Return _ _ _ _ _ (peekM_unread_cons _ _ _ T1 U1)), H. reflexivity.
  - intros inner after R F NE. destruct (opened _ R) as [E U2].
    unfold bind at 1. rewrite E. clear E. unfold bind at 1.
    rewrite (expectExpr_on_run _ exprToJS (atIndex (index t + 2) t) inner (op "]" :: after) T U2 F NE
               eq_refl eq_refl).
    destruct (exprToJS inner) as [e|e]; cbn [ofResult obind]; [|reflexivity].
    cbn [atIndex index].
    assert (U3 : unread (atIndex (index t + 2 + length inner) t) = op "]" :: after)
      by (apply unread_atIndex_app; exact U2).
    destruct (nextM_unread_cons (atIndex (index t + 2 + length inner) t) _ _ T U3) as [N3 _].
    rewrite (bind_Return _ _ _ _ _ N3).
    unfold advance, atIndex, ret. cbn [index stmnt tokens tokenized lineno].
    cbn. do 3 f_equal. lia.
  - intros inner R F NE. destruct (opened _ R) as [E U2].
    unfold bind at 1. rewrite E. clear E. unfold bind at 1.
    rewrite <- (app_nil_r inner) in U2.
    rewrite (expectExpr_on_run _ exprToJS (atIndex (index t + 2) t) inner [] T U2 F NE I eq_refl).
    destruct (exprToJS inner) as [e|e]; cbn [ofResult obind]; [|reflexivity].
    cbn [atIndex index].
    assert (U3 : unread (atIndex (index t + 2 + length inner) t) = [])
      by (apply unread_atIndex_app; exact U2).
    rewrite (bind_Return _ _ _ _ _ (nextM_unread_nil (atIndex (index t + 2 + length inner) t) T U3)). reflexivity.
  - intros inner after o R F O. destruct (opened _ R) as [E U2].
    unfold bind at 1. rewrite E. clear E. unfold bind at 1.
    rewrite (expectExpr_scan _ exprToJS (atIndex (index t + 2) t) T), U2, (stopsAtOpener_app _ _ F).
    destruct O as [O|[O|[]]]; subst o; reflexivity.
Qed.

End Subscripts.

(* ------------------------------------------------------------------ *)
(** ** What begins a statement *)

Lemma bind_inv {A B : Type} (c : M A) (k : A -> M B) (t : Tokenizer) (r : B * Tokenizer) :
  bind c k t = Return r -> exists a t1, c t = Return (a, t1) /\ k a t1 = Return r.
Proof.
  unfold bind. destruct (c t) as [[a t1]|e|]; try discriminate.
  intros H. exists a, t1. auto.
Qed.

Lemma lift_inv {A : Type} (o : Outcome A) (t t' : Tokenizer) (a : A) :
  lift o t = Return (a, t') -> o = Return a /\ t' = t.
Proof. unfold lift. destruct o; simpl; try discriminate. intros [= -> ->]. auto. Qed.

Lemma ret_inv {A : Type} (a b : A) (t t' : Tokenizer) :
  ret a t = Return (b, t') -> b = a /\ t' = t.
Proof. unfold ret. intros [= -> ->]. auto. Qed.

Lemma lexeme_is_true (l : Lexeme) (s : string) :
  lexeme_is l s = true -> l = LString s.
Proof.
  destruct l as [n|x]; simpl; [discriminate|]. intros E.
  apply String.eqb_eq in E. congruence.
Qed.

Lemma assertType_inv (tok : Token) (ty : TokenType) (t t' : Tokenizer) (u : unit) :
  lift (assertType tok ty None) t = Return (u, t') -> type tok = ty /\ t' = t.
Proof.
  intros H. apply lift_inv in H. destruct H as [H ->]. split; [|reflexivity].
  unfold assertType, TokenType_eqb in H.
  destruct (TokenType_eq_dec (type tok) ty); [assumption|discriminate].
Qed.

(** [next] returns only on a tokenized tokenizer: the sentinel at the end,
    and otherwise the token at the cursor, which it moves by one. *)
Lemma nextM_inv (t t1 : Tokenizer) (x : Token) :
  nextM t = Return (x, t1) ->
  tokenized t = true /\
  ((unread t = [] /\ x = eof /\ t1 = t) \/
   (exists rest, unread t = x :: rest /\ t1 = advance t)).
Proof.
  intros H.
  assert (T : tokenized t = true).
  { unfold nextM, next, assertTokenized in H.
    destruct (tokenized t); [reflexivity|discriminate]. }
  split; [exact T|].
  destruct (unread t) as [|y rest] eqn:U.
  - rewrite (nextM_unread_nil t T U) in H. injection H as <- <-. auto.
  - destruct (nextM_unread_cons t y rest T U) as [N _]. rewrite N in H.
    injection H as <- <-. right. exists rest. auto.
Qed.

Section WhatBeginsAStatement.

Variable Expr : Type.
Variable exprToJS : list Token -> Result Expr.

(** X11.  The statement parser asks for a keyword first: at the end of the
    tokens and at a token of another type it throws [Expect token of type
    keyword]; at a keyword that begins no statement, such as [THEN], [TO] or
    [GOSUB], it throws [Unexpected token] with the lexeme. *)
Theorem X11_what_begins_a_statement (fuel : nat) (ln : JsNumber) (t : Tokenizer) :
  tokenized t = true ->
  (unread t = [] ->
   parse exprToJS (S fuel) ln t = Throw (Error (ExpectTokenOfType ty_keyword ty_eof))) /\
  (forall (x : Token) (rest : list Token),
     unread t = x :: rest ->
     (TokenType_eqb (type x) ty_keyword = false ->
      parse exprToJS (S fuel) ln t
      = Throw (Error (ExpectTokenOfType ty_keyword (type x)))) /\
     (TokenType_eqb (type x) ty_keyword = true ->
      forallb (fun s => negb (lexeme_is (lexeme x) s)) STATEMENTS = true ->
      parse exprToJS (S fuel) ln t = Throw (Error (UnexpectedToken (lexeme x))))).
Proof.
  intros T. split.
  - intros U. cbn [parse]. rewrite (bind_Return _ _ _ _ _ (nextM_unread_nil t T U)).
    reflexivity.
  - intros x rest U. destruct (nextM_unread_cons t x rest T U) as [N _].
    cbn [parse]. rewrite (bind_Return _ _ _ _ _ N). split.
    + intros E. apply bind_Throw. unfold lift, assertType. rewrite E. reflexivity.
    + intros E F. erewrite bind_Return
        by (unfold lift, assertType; rewrite E; reflexivity).
      cbn [forallb STATEMENTS] in F.
      repeat match type of F with
             | _ && _ = true =>
                 let F1 := fresh "F" in
                 apply andb_true_iff in F; destruct F as [F1 F];
                 apply negb_true_iff in F1; rewrite F1
             end.
      reflexivity.
Qed.

End WhatBeginsAStatement.

Lemma X11_witness :
  parse tokensOf 1 (Int 10) (tokenizerAt 10 [])
  = Throw (Error (ExpectTokenOfType ty_keyword ty_eof)) /\
  parse tokensOf 1 (Int 10) (tokenizerAt 10 [var "A"; op "="; num "1"])
  = Throw (Error (ExpectTokenOfType ty_keyword ty_variable)) /\
  parse tokensOf 1 (Int 10) (tokenizerAt 10 [kw "THEN"; kw "END"])
  = Throw (Error (UnexpectedToken (LString "THEN"))).
Proof.
  split; [|split].
  - exact (proj1 (X11_what_begins_a_statement _ tokensOf 0 (Int 10)
                    (tokenizerAt 10 []) eq_refl) eq_refl).
  - exact (proj1 (proj2 (X11_what_begins_a_statement _ tokensOf 0 (Int 10)
                    (tokenizerAt 10 [var "A"; op "="; num "1"]) eq_refl)
                    _ _ eq_refl) eq_refl).
  - exact (proj2 (proj2 (X11_what_begins_a_statement _ tokensOf 0 (Int 10)
                    (tokenizerAt 10 [kw "THEN"; kw "END"]) eq_refl)
                    _ _ eq_refl) eq_refl eq_refl).
Defined.

(* ------------------------------------------------------------------ *)
(** ** The node of a statement *)

Section NodeShape.

Variable Expr : Type.
Variable exprToJS : list Token -> Result Expr.

Lemma Spec_Mono {A : Type} (c : M A) (Q : Tokenizer -> A -> Tokenizer -> Prop) :
  Spec exprToJS (fun _ => True) c Q -> Mono c.
Proof.
  intros H t a t' T E. specialize (H t T I). rewrite E in H. apply H.
Qed.

Lemma Mono_bind {A B : Type} (c : M A) (k : A -> M B) :
  Mono c -> (forall a, Mono (k a)) -> Mono (bind c k).
Proof.
  intros Hc Hk t b t' T E. apply bind_inv in E. destruct E as (a & t1 & E1 & E2).
  pose proof (Hc t a t1 T E1) as A1.
  assert (T1 : tokenized t1 = true) by (destruct A1 as (_ & -> & _); exact T).
  exact (Adv_trans _ _ _ A1 (Hk a t1 b t' T1 E2)).
Qed.

Lemma Mono_ret {A : Type} (a : A) : Mono (ret a).
Proof. intros t b t' _ E. apply ret_inv in E. destruct E as [_ ->]. apply Adv_refl. Qed.

Lemma Mono_throw {A : Type} (e : Exn) : Mono (@throw A e).
Proof. intros t b t' _ E. discriminate E. Qed.

Lemma Mono_lift {A : Type} (o : Outcome A) : Mono (lift o).
Proof. intros t b t' _ E. apply lift_inv in E. destruct E as [_ ->]. apply Adv_refl. Qed.

Ltac mono :=
  repeat first
    [ apply Mono_ret
    | apply Mono_throw
    | apply Mono_lift
    | assumption
    | apply (Spec_Mono _ _ (nextM_spec Expr exprToJS))
    | apply (Spec_Mono _ _ (expectExpr_spec Expr exprToJS))
    | apply (Spec_Mono _ _ (acceptLineMod_spec Expr exprToJS))
    | apply (Spec_Mono _ _ (expectLineMod_spec Expr exprToJS))
    | apply (Spec_Mono _ _ (expectComment_spec Expr exprToJS))
    | apply (Spec_Mono _ _ (expectVariable_spec Expr exprToJS _))
    | apply (Spec_Mono _ _ (expectOperation_spec Expr exprToJS _))
    | apply (Spec_Mono _ _ (expectKeyword_spec Expr exprToJS _))
    | apply (Spec_Mono _ _ (acceptKeyword_spec Expr exprToJS _))
    | apply Mono_bind; [|intro]
    | match goal with
      | |- Mono (if ?b then _ else _) => destruct b
      | |- Mono (match ?o with Some _ => _ | None => _ end) => destruct o
      end ].

(** Whatever its fuel, [parse] leaves the tokens as they were and does not
    move the cursor back. *)
Lemma parse_Mono (fuel : nat) (ln : JsNumber) : Mono (parse exprToJS fuel ln).
Proof.
  induction fuel as [|fuel IH]; [intros t a t' _ E; discriminate E|].
  cbn [parse]. mono.
Qed.

Lemma next_then_strict {B : Type} (k : Token -> M B) :
  (forall a, Mono (k a)) ->
  (forall t b t', k eof t = Return (b, t') -> False) ->
  forall t b t', tokenized t = true -> bind nextM k t = Return (b, t') ->
                 tokens t' = tokens t /\ index t < index t'.
Proof.
  intros Hk He t b t' T H. apply bind_inv in H. destruct H as (x & t1 & N & H).
  destruct (nextM_inv t t1 x N) as [_ [(_ & -> & _)|(rest & _ & ->)]].
  - destruct (He _ _ _ H).
  - destruct (Hk x (advance t) b t' T H) as (A1 & _ & A3).
    cbn [advance tokens index] in *. split; [exact A1|lia].
Qed.

Lemma parse_strict (fuel : nat) (ln : JsNumber) (t t' : Tokenizer) (n : Node Expr) :
  tokenized t = true -> parse exprToJS fuel ln t = Return (n, t') ->
  tokens t' = tokens t /\ index t < index t'.
Proof.
  destruct fuel as [|fuel]; [intros _ E; discriminate E|].
  pose proof (parse_Mono fuel ln) as IH.
  cbn [parse]. apply next_then_strict.
  - intros top. mono.
  - intros s b s' H. apply bind_inv in H. destruct H as (u & s1 & V & _).
    apply assertType_inv in V. destruct V as [V _]. discriminate V.
Qed.

Lemma expectVariable_lineno (ln : JsNumber) (t t' : Tokenizer) (v : VariableNode Expr) :
  expectVariable exprToJS ln t = Return (v, t') -> linenoOfVariable v = ln.
Proof.
  unfold expectVariable. intros H.
  apply bind_inv in H. destruct H as (x & t1 & _ & H).
  apply bind_inv in H. destruct H as (u & t2 & _ & H).
  apply bind_inv in H. destruct H as (s & t3 & _ & H).
  apply ret_inv in H. destruct H as [-> _]. reflexivity.
Qed.

Ltac binds H :=
  repeat (let a := fresh "a" in let s := fresh "s" in let E := fresh "E" in
          apply bind_inv in H; destruct H as (a & s & E & H)).

Ltac leaf H :=
  apply ret_inv in H; destruct H as [-> _]; cbn [linenosOf kindOf];
  split; [|reflexivity];
  repeat first [ apply Forall_cons | apply Forall_nil | apply Forall_app; split
               | reflexivity | assumption
               | symmetry; eapply expectVariable_lineno; eassumption ].

(** The line numbers and the class of the node [parse] returns. *)
Lemma parse_node (fuel : nat) (ln : JsNumber) :
  forall (t t' : Tokenizer) (n : Node Expr),
    parse exprToJS fuel ln t = Return (n, t') ->
    Forall (eq ln) (linenosOf n) /\
    exists top t1, nextM t = Return (top, t1) /\ type top = ty_keyword /\
                   lexeme top = LString (kindOf n).
Proof.
  induction fuel as [|fuel IH]; intros t t' n H; [discriminate H|].
  cbn [parse] in H.
  apply bind_inv in H. destruct H as (top & t1 & N & H).
  apply bind_inv in H. destruct H as (u & t2 & V & H).
  apply assertType_inv in V. destruct V as [V ->].
  cut (Forall (eq ln) (linenosOf n) /\ lexeme top = LString (kindOf n)).
  { intros [L K]. split; [exact L|]. exists top, t1. auto. }
  destruct (lexeme_is (lexeme top) "PRINT") eqn:K;
    [apply lexeme_is_true in K; rewrite K; clear K; binds H; leaf H|clear K].
  destruct (lexeme_is (lexeme top) "LET") eqn:K;
    [apply lexeme_is_true in K; rewrite K; clear K; binds H; leaf H|clear K].
  destruct (lexeme_is (lexeme top) "REM") eqn:K;
    [apply lexeme_is_true in K; rewrite K; clear K; binds H; leaf H|clear K].
  destruct (lexeme_is (lexeme top) "PAUSE") eqn:K;
    [apply lexeme_is_true in K; rewrite K; clear K; binds H; leaf H|clear K].
  destruct (lexeme_is (lexeme top) "INPUT") eqn:K;
    [apply lexeme_is_true in K; rewrite K; clear K; binds H; leaf H|clear K].
  destruct (lexeme_is (lexeme top) "FOR") eqn:K.
  { apply lexeme_is_true in K; rewrite K; clear K.
    do 7 (let a := fresh "a" in let s := fresh "s" in let E := fresh "E" in
          apply bind_inv in H; destruct H as (a & s & E & H)).
    leaf H. }
  clear K.
  destruct (lexeme_is (lexeme top) "NEXT") eqn:K;
    [apply lexeme_is_true in K; rewrite K; clear K; binds H; leaf H|clear K].
  destruct (lexeme_is (lexeme top) "GOTO") eqn:K;
    [apply lexeme_is_true in K; rewrite K; clear K; binds H; leaf H|clear K].
  destruct (lexeme_is (lexeme top) "END") eqn:K;
    [apply lexeme_is_true in K; rewrite K; clear K; binds H; leaf H|clear K].
  destruct (lexeme_is (lexeme top) "IF") eqn:K; [|discriminate H].
  apply lexeme_is_true in K; rewrite K; clear K.
  apply bind_inv in H. destruct H as (cond & s1 & _ & H).
  apply bind_inv in H. destruct H as (th & s2 & _ & H).
  apply bind_inv in H. destruct H as (then_ & s3 & P1 & H).
  apply bind_inv in H. destruct H as (k & s4 & _ & H).
  apply bind_inv in H. destruct H as (other & s5 & P2 & H).
  apply ret_inv in H. destruct H as [-> _]. cbn [linenosOf kindOf].
  split; [|reflexivity].
  apply IH in P1. destruct P1 as [L1 _].
  constructor; [reflexivity|]. apply Forall_app. split; [exact L1|].
  destruct k as [k|].
  - apply bind_inv in P2. destruct P2 as (n2 & s6 & P2 & R).
    apply ret_inv in R. destruct R as [-> _]. apply IH in P2. apply P2.
  - apply ret_inv in P2. destruct P2 as [-> _]. constructor.
Qed.

(** X12.  The node that [parse] returns: every line number in it, of the
    statements inside it and of the variable references, is the line number
    the parser was made with; its class is the lexeme of the token at the
    cursor, which is a keyword; the tokens are left as they were and the
    cursor has moved forward by one token at least. *)
Theorem X12_node_of_a_statement
    (fuel : nat) (ln : JsNumber) (t t' : Tokenizer) (n : Node Expr) :
  parse exprToJS fuel ln t = Return (n, t') ->
  Forall (eq ln) (linenosOf n) /\
  (exists rest, unread t = mkToken ty_keyword (LString (kindOf n)) :: rest) /\
  tokens t' = tokens t /\ index t < index t'.
Proof.
  intros H. destruct (parse_node fuel ln t t' n H) as (L & top & t1 & N & V & K).
  split; [exact L|].
  destruct (nextM_inv t t1 top N) as [T [(_ & -> & _)|(rest & U & ->)]];
    [discriminate V|].
  split.
  - exists rest. rewrite U. destruct top as [ty lx]. simpl in V, K. subst. reflexivity.
  - exact (parse_strict fuel ln t t' n T H).
Qed.

End NodeShape.

(* ------------------------------------------------------------------ *)
(** ** The parser on a line *)

Section ParseLine.

Variable Expr : Type.
Variable exprToJS : list Token -> Result Expr.
Variable FUNCTIONS : list string.

(** [parseLine] on a line that [tokenize] accepts: the statement parser is
    made with the number of the line and starts at the second token. *)
Lemma parseLine_tokenized (line : string) (t : Tokenizer) :
  tokenize FUNCTIONS (newTokenizer line) = Return t ->
  exists m, reLINE line = Some m /\ lineno t = Int (parseInt (m1 m)) /\
            tokenized t = true /\
            parseLine exprToJS FUNCTIONS line
            = parseStatement exprToJS (Int (parseInt (m1 m))) (atIndex 1 t).
Proof.
  intros H. pose proof (tokenize_outcome FUNCTIONS line) as O. rewrite H in O.
  destruct O as (m & toks & R & Tk & _ & T & I0 & Ln & _).
  exists m. split; [exact R|]. split; [exact Ln|]. split; [exact T|].
  unfold parseLine. rewrite H. cbn [obind].
  assert (U : unread t = mkToken ty_lineno (LNumber (Int (parseInt (m1 m)))) :: toks)
    by (unfold unread; rewrite I0, Tk; reflexivity).
  destruct (nextM_unread_cons t _ _ T U) as [N _]. unfold nextM in N.
  rewrite N. cbn [obind fst snd]. unfold advance. rewrite I0. reflexivity.
Qed.

(** X13.  [parseLine] always ends.  When it returns, the line begins with a
    number, the node is the one the statement parser gives from the second
    token of the tokenized line, and every line number in the node is the
    number of the line. *)
Theorem X13_parseLine_numbers_the_node (line : string) :
  match parseLine exprToJS FUNCTIONS line with
  | Return n =>
      exists m t,
        reLINE line = Some m /\
        tokenize FUNCTIONS (newTokenizer line) = Return t /\
        parseStatement exprToJS (lineno t) (atIndex 1 t) = Return n /\
        Forall (eq (Int (parseInt (m1 m)))) (linenosOf n)
  | Throw e => True
  | OutOfFuel => False
  end.
Proof.
  destruct (tokenize FUNCTIONS (newTokenizer line)) as [t|e|] eqn:H.
  - destruct (parseLine_tokenized line t H) as (m & R & Ln & T & P). rewrite P.
    pose proof (parseStatement_outcome Expr exprToJS (Int (parseInt (m1 m)))
                  (atIndex 1 t) T) as O.
    destruct (parseStatement exprToJS (Int (parseInt (m1 m))) (atIndex 1 t))
      as [n|e|] eqn:S1; [|exact I|exact O].
    exists m, t. rewrite Ln. repeat split; auto.
    unfold parseStatement in S1.
    destruct (parse exprToJS _ _ (atIndex 1 t)) as [[n' t']|e|] eqn:P1; try discriminate.
    injection S1 as <-. exact (proj1 (parse_node Expr exprToJS _ _ _ _ _ P1)).
  - unfold parseLine. rewrite H. exact I.
  - pose proof (tokenize_outcome FUNCTIONS line) as O. rewrite H in O.
    destruct O.
Qed.

End ParseLine.

(* ------------------------------------------------------------------ *)
(** ** Lines that always parse *)

Section LinesThatAlwaysParse.

Variable Expr : Type.
Variable exprToJS : list Token -> Result Expr.
Variable FUNCTIONS : list string.

(** The tokens of a tokenized line: the line number, then tokens of the
    form of their types, with comments only after [REM]. *)
Lemma tokenize_shape (line : string) (t : Tokenizer) :
  tokenize FUNCTIONS (newTokenizer line) = Return t ->
  exists toks,
    tokens t = mkToken ty_lineno (LNumber (lineno t)) :: toks /\
    Forall (wellFormed FUNCTIONS) toks /\ commentsFollowRem toks = true /\
    tokenized t = true /\ index t = 0.
Proof.
  intros H. pose proof (tokenize_outcome FUNCTIONS line) as O. rewrite H in O.
  destruct O as (m & toks0 & _ & Tk & _ & T & I0 & Ln & _).
  revert H. unfold tokenize. cbn [stmnt newTokenizer tokens index tokenized lineno].
  destruct (reLINE line) as [m'|]; [|discriminate]. cbv zeta.
  match goal with |- context [tokenize_loop _ ?f ?t0] =>
    pose proof (tokenize_loop_pushed FUNCTIONS f t0) as P;
    destruct (tokenize_loop FUNCTIONS f t0) as [t'|e|]
  end; try discriminate.
  intros [= <-]. destruct (P t' eq_refl) as (toks & E & W & C). simpl in *.
  exists toks. rewrite E in Tk. injection Tk as E1 E2.
  rewrite E, Ln, E1. auto.
Qed.

(** X14.  A line that [tokenize] accepts and whose statement begins with
    [END] or with [REM] always parses: [END] whatever follows it on the
    line, and [REM] with the comment token that the tokenizer put after it,
    which is the last token. *)
Theorem X14_lines_that_always_parse (line : string) (t : Tokenizer) :
  tokenize FUNCTIONS (newTokenizer line) = Return t ->
  (nth 1 (tokens t) eof = kw "END" ->
   parseLine exprToJS FUNCTIONS line = Return (END (lineno t))) /\
  (nth 1 (tokens t) eof = kw "REM" ->
   exists text,
     skipn 2 (tokens t) = [mkToken ty_comment (LString text)] /\
     parseLine exprToJS FUNCTIONS line = Return (REM (lineno t) (LString text))).
Proof.
  intros H.
  destruct (parseLine_tokenized Expr exprToJS FUNCTIONS line t H) as (m & _ & Ln & T & P).
  destruct (tokenize_shape line t H) as (toks & Tk & W & C & _ & _).
  rewrite P, <- Ln. clear P. unfold parseStatement.
  assert (T1 : tokenized (atIndex 1 t) = true) by exact T.
  assert (U : unread (atIndex 1 t) = toks) by (unfold unread; simpl; rewrite Tk; reflexivity).
  rewrite Tk. cbn [nth]. split.
  - intros E. destruct toks as [|x rest]; [discriminate E|]. cbn [nth] in E. subst x.
    destruct (nextM_unread_cons _ _ _ T1 U) as [N _].
    cbn [parse]. rewrite (bind_Return _ _ _ _ _ N). reflexivity.
  - intros E. destruct toks as [|x rest]; [discriminate E|]. cbn [nth] in E. subst x.
    cbn [commentsFollowRem] in C.
    change (isRemToken (kw "REM")) with true in C. cbv iota in C.
    destruct rest as [|c [|y rest]]; try discriminate C.
    inversion W as [|? ? _ W1]; subst. inversion W1 as [|? ? Wc _]; subst.
    unfold wellFormed, TokenType_eqb in *.
    destruct (TokenType_eq_dec (type c) ty_comment) as [Ec|]; [|discriminate C].
    rewrite Ec in Wc. destruct Wc as [text Lx].
    exists text. split.
    { cbn [skipn]. destruct c as [ty lx]. simpl in Ec, Lx. subst. reflexivity. }
    destruct (nextM_unread_cons _ _ _ T1 U) as [N1 U1].
    destruct (nextM_unread_cons (advance (atIndex 1 t)) _ _ T1 U1) as [N2 U2].
    pose proof (nextM_unread_nil (advance (advance (atIndex 1 t))) T1 U2) as N3.
    cbn [parse]. rewrite (bind_Return _ _ _ _ _ N1).
    erewrite bind_Return by reflexivity.
    cbn [kw lexeme lexeme_is String.eqb Ascii.eqb Bool.eqb].
    unfold expectComment.
    erewrite bind_Return;
      [|rewrite (bind_Return _ _ _ _ _ N2); unfold TokenType_eqb;
        destruct (TokenType_eq_dec (type c) ty_comment) as [_|NE]; [|contradiction];
        rewrite (bind_Return _ _ _ _ _ N3); reflexivity].
    unfold ret. cbn [obind fst]. rewrite Lx. reflexivity.
Qed.

End LinesThatAlwaysParse.

(* ------------------------------------------------------------------ *)
(** ** Assignment and input *)

Section LetAndInput.

Variable Expr : Type.
Variable exprToJS : list Token -> Result Expr.

(** [expectVariable] at a variable token that no opening square bracket
    follows. *)
Lemma expectVariable_plain (ln : JsNumber) (t : Tokenizer) (x : Token) (rest : list Token) :
  tokenized t = true -> unread t = x :: rest -> type x = ty_variable ->
  match rest with [] => True | y :: _ => lexeme_is (lexeme y) "[" = false end ->
  expectVariable exprToJS ln t = Return (Variable_ ln (lexeme x) None, advance t).
Proof.
  intros T U V H. destruct (nextM_unread_cons t x rest T U) as [N U1].
  assert (T1 : tokenized (advance t) = true) by exact T.
  unfold expectVariable. rewrite (bind_Return _ _ _ _ _ N).
  erewrite bind_Return by (unfold lift, assertType; rewrite V; reflexivity).
  unfold acceptSubscript. destruct rest as [|y rest].
  - erewrite bind_Return;
      [|rewrite (bind_Return _ _ _ _ _ (peekM_unread_nil _ T1 U1)); reflexivity].
    reflexivity.
  - erewrite bind_Return;
      [|rewrite (bind_Return _ _ _ _ _ (peekM_unread_cons _ _ _ T1 U1)), H; reflexivity].
    reflexivity.
Qed.

Lemma advance_n (t : Tokenizer) (i : nat) : advance (atIndex i t) = atIndex (S i) t.
Proof. reflexivity. Qed.

Lemma advance_t (t : Tokenizer) : advance t = atIndex (S (index t)) t.
Proof. reflexivity. Qed.

(** [expectExpr] followed by [k], from a tokenized state. *)
Lemma expectExpr_then {B : Type} (k : Expr -> M B) (t : Tokenizer) :
  tokenized t = true ->
  bind (expectExpr exprToJS) k t =
  if stopsAtOpener (unread t) then Throw (TypeError AssignmentToConstant)
  else
    match scanRun (unread t) with
    | [] => Throw (Error ExpectedExpression)
    | run =>
        match exprToJS run with
        | Ok e => k e (atIndex (index t + length run) t)
        | Raised e => Throw e
        end
    end.
Proof.
  intros T. unfold bind. rewrite (expectExpr_scan _ exprToJS t T).
  destruct (stopsAtOpener (unread t)); [reflexivity|].
  destruct (scanRun (unread t)) as [|x run]; [reflexivity|]. cbv zeta.
  destruct (exprToJS (x :: run)); reflexivity.
Qed.

(** X16.  A [LET] statement on a variable without subscript: the token after
    the variable must be an operation, and then the operation [=]; the run
    of scanned tokens after it is the expression; what follows the run is not
    read. *)
Theorem X16_let_statement
    (fuel : nat) (ln : JsNumber) (t : Tokenizer) (x : string) (y : Token)
    (toks : list Token) :
  tokenized t = true ->
  unread t = kw "LET" :: var x :: y :: toks ->
  lexeme_is (lexeme y) "[" = false ->
  parse exprToJS (S fuel) ln t =
  if negb (TokenType_eqb (type y) ty_operation) then
    Throw (Error (ExpectTokenOfType ty_operation (type y)))
  else if negb (lexeme_is (lexeme y) "=") then Throw (Error (ExpectedOperation "="))
  else if stopsAtOpener toks then Throw (TypeError AssignmentToConstant)
  else
    match scanRun toks with
    | [] => Throw (Error ExpectedExpression)
    | run =>
        obind (ofResult (exprToJS run)) (fun e =>
        Return (LET ln (Variable_ ln (LString x) None) e,
                atIndex (index t + 3 + length run) t))
    end.
Proof.
  intros T U Y.
  destruct (nextM_unread_cons t _ _ T U) as [N1 U1].
  assert (T1 : tokenized (advance t) = true) by exact T.
  pose proof (expectVariable_plain ln (advance t) (var x) (y :: toks) T1 U1 eq_refl Y) as V.
  assert (U2 : unread (advance (advance t)) = y :: toks)
    by (exact (unread_advance _ _ _ U1)).
  destruct (nextM_unread_cons (advance (advance t)) _ _ T U2) as [N3 U3].
  cbn [parse]. rewrite (bind_Return _ _ _ _ _ N1).
  erewrite bind_Return by reflexivity.
  cbn [kw lexeme lexeme_is String.eqb Ascii.eqb Bool.eqb].
  rewrite (bind_Return _ _ _ _ _ V).
  unfold expectOperation at 1.
  unfold bind at 1. unfold bind at 1. rewrite N3.
  unfold bind at 1. unfold lift, assertType.
  destruct (negb (TokenType_eqb (type y) ty_operation)); [reflexivity|].
  cbn [obind].
  destruct (negb (lexeme_is (lexeme y) "=")); [reflexivity|]. unfold ret at 1.
  rewrite (expectExpr_then _ (advance (advance (advance t))) T), U3.
  destruct (stopsAtOpener toks); [reflexivity|].
  destruct (scanRun toks) as [|z run]; [reflexivity|]. cbv zeta.
  destruct (exprToJS (z :: run)); cbn [ofResult obind]; [|reflexivity].
  unfold ret, atIndex, advance. cbn [var lexeme index tokens stmnt tokenized lineno].
  do 3 f_equal. lia.
Qed.

(** X17.  An [INPUT] statement: after the run of scanned tokens, which the
    translator gets first, a line modifier must follow, and then a variable.
    Without the line modifier the parser throws [Expected ;], after the
    translator has been called. *)
Theorem X17_input_statement
    (fuel : nat) (ln : JsNumber) (t : Tokenizer) (run rest : list Token) :
  tokenized t = true ->
  unread t = (kw "INPUT" :: run ++ rest)%list ->
  forallb scanned run = true -> run <> [] ->
  (headIsLineMod rest = false ->
   match rest with [] => True | y :: _ => scanned y = false end ->
   stopsAtOpener rest = false ->
   parse exprToJS (S fuel) ln t =
   obind (ofResult (exprToJS run)) (fun _ => Throw (Error ExpectedLineMod))) /\
  (forall (l : Lexeme) (x : string) (after : list Token),
     rest = mkToken ty_linemod l :: var x :: after ->
     match after with [] => True | y :: _ => lexeme_is (lexeme y) "[" = false end ->
     parse exprToJS (S fuel) ln t =
     obind (ofResult (exprToJS run)) (fun e =>
     Return (INPUT ln e (Variable_ ln (LString x) None),
             atIndex (index t + 3 + length run) t))).
Proof.
  intros T U F NE.
  destruct (nextM_unread_cons t _ _ T U) as [N1 U1].
  assert (T1 : tokenized (advance t) = true) by exact T.
  assert (head : forall (K : Expr -> M (Node Expr)),
            (forall e, K e = (expectLineMod ;;;
                              v <- expectVariable exprToJS ln ;;
                              ret (INPUT ln e v))) ->
            scanRun (run ++ rest) = run -> stopsAtOpener (run ++ rest) = false ->
            parse exprToJS (S fuel) ln t =
            match exprToJS run with
            | Ok e => K e (atIndex (index t + 1 + length run) t)
            | Raised e => Throw e
            end).
  { intros K HK R O. cbn [parse]. rewrite (bind_Return _ _ _ _ _ N1).
    erewrite bind_Return by reflexivity.
    cbn [kw lexeme lexeme_is String.eqb Ascii.eqb Bool.eqb].
    rewrite (expectExpr_then _ (advance t) T1), U1, O, R.
    destruct run as [|z run']; [contradiction|]. cbv zeta.
    destruct (exprToJS (z :: run')); [|reflexivity].
    rewrite HK. cbn [advance index]. rewrite <- Nat.add_1_r. reflexivity. }
  assert (U2 : unread (atIndex (index t + 1 + length run) t) = rest).
  { apply unread_atIndex_app. rewrite <- U1. unfold advance, atIndex.
    rewrite Nat.add_1_r. reflexivity. }
  assert (T2 : tokenized (atIndex (index t + 1 + length run) t) = true) by exact T.
  split.
  - intros L S1 O.
    rewrite (head _ (fun e => eq_refl) (scanRun_app run rest F S1)
               (eq_trans (stopsAtOpener_app run rest F) O)).
    destruct (exprToJS run); cbn [ofResult obind]; [|reflexivity].
    apply bind_Throw. unfold expectLineMod.
    rewrite (bind_Return _ _ _ _ _ (acceptLineMod_run _ T2)), U2, L. reflexivity.
  - intros l x after R A. rewrite R in U2, head. clear R.
    rewrite (head _ (fun e => eq_refl)
               (scanRun_app run (mkToken ty_linemod l :: var x :: after) F eq_refl)
               (eq_trans (stopsAtOpener_app run _ F) eq_refl)).
    destruct (exprToJS run) as [e|e]; cbn [ofResult obind]; [|reflexivity].
    erewrite bind_Return;
      [|unfold expectLineMod;
        rewrite (bind_Return _ _ _ _ _ (acceptLineMod_run _ T2)), U2; reflexivity].
    cbn [headIsLineMod type TokenType_eqb].
    assert (U3 : unread (advance (atIndex (index t + 1 + length run) t)) = var x :: after)
      by exact (unread_advance _ _ _ U2).
    rewrite (bind_Return _ _ _ _ _
               (expectVariable_plain ln
                  (advance (atIndex (index t + 1 + length run) t))
                  (var x) after T2 U3 eq_refl A)).
    unfold ret, atIndex, advance. cbn [var lexeme index tokens stmnt tokenized lineno].
    do 3 f_equal. lia.
Qed.

End LetAndInput.

(* ------------------------------------------------------------------ *)
(** ** The properties on some tokens *)

(** X9 at [END 1], [GOTO 100 END] and [PRINT "HI"; END]. *)
Lemma X9_witness :
  parse tokensOf 1 (Int 10) (tokenizerAt 10 [kw "END"; num "1"])
  = Return (END (Int 10), atIndex 2 (tokenizerAt 10 [kw "END"; num "1"])) /\
  parse tokensOf 1 (Int 10) (tokenizerAt 10 [kw "GOTO"; num "100"; kw "END"])
  = Return (GOTO (Int 10) [num "100"],
            atIndex 3 (tokenizerAt 10 [kw "GOTO"; num "100"; kw "END"])) /\
  parse tokensOf 1 (Int 10) (tokenizerAt 10 [kw "PRINT"; str "HI"; linemod; kw "END"])
  = Return (PRINT (Int 10) [str "HI"] true,
            atIndex 4 (tokenizerAt 10 [kw "PRINT"; str "HI"; linemod; kw "END"])).
Proof.
  split; [|split].
  - exact (proj1 (X9_statements_of_one_expression _ tokensOf 0 (Int 10)
                    (tokenizerAt 10 [kw "END"; num "1"]) [num "1"] eq_refl) eq_refl).
  - exact (proj1 (proj2 (X9_statements_of_one_expression _ tokensOf 0 (Int 10)
                    (tokenizerAt 10 [kw "GOTO"; num "100"; kw "END"])
                    [num "100"; kw "END"] eq_refl))
             "GOTO" (GOTO (Int 10)) (or_intror (or_introl eq_refl)) eq_refl).
  - exact (proj2 (proj2 (X9_statements_of_one_expression _ tokensOf 0 (Int 10)
                    (tokenizerAt 10 [kw "PRINT"; str "HI"; linemod; kw "END"])
                    [str "HI"; linemod; kw "END"] eq_refl)) eq_refl).
Defined.

(** X10 at [A[1] = 2], at [A = 2], at [A[1] and at [A[(1)]]. *)
Lemma X10_witness :
  expectVariable tokensOf (Int 10)
    (tokenizerAt 10 [var "A"; op "["; num "1"; op "]"; op "="; num "2"])
  = Return (Variable_ (Int 10) (LString "A") (Some [num "1"]),
            atIndex 5 (tokenizerAt 10 [var "A"; op "["; num "1"; op "]"; op "="; num "2"])) /\
  expectVariable tokensOf (Int 10) (tokenizerAt 10 [var "A"; op "="; num "2"])
  = Return (Variable_ (Int 10) (LString "A") None,
            atIndex 2 (tokenizerAt 10 [var "A"; op "="; num "2"])) /\
  expectVariable tokensOf (Int 10) (tokenizerAt 10 [var "A"; op "["; num "1"])
  = Throw (Error (ExpectTokenOfType ty_operation ty_eof)) /\
  expectVariable tokensOf (Int 10)
    (tokenizerAt 10 [var "A"; op "["; op "("; num "1"; op ")"; op "]"])
  = Throw (TypeError AssignmentToConstant).
Proof.
  split; [|split; [|split]].
  - refine (proj1 (proj2 (X10_subscript_of_a_variable _ tokensOf (Int 10)
              (tokenizerAt 10 [var "A"; op "["; num "1"; op "]"; op "="; num "2"])
              (var "A") _ eq_refl eq_refl eq_refl))
              [num "1"] [op "="; num "2"] eq_refl eq_refl _).
    discriminate.
  - exact (proj1 (X10_subscript_of_a_variable _ tokensOf (Int 10)
              (tokenizerAt 10 [var "A"; op "="; num "2"])
              (var "A") _ eq_refl eq_refl eq_refl) eq_refl).
  - refine (proj1 (proj2 (proj2 (X10_subscript_of_a_variable _ tokensOf (Int 10)
              (tokenizerAt 10 [var "A"; op "["; num "1"])
              (var "A") _ eq_refl eq_refl eq_refl)))
              [num "1"] eq_refl eq_refl _).
    discriminate.
  - exact (proj2 (proj2 (proj2 (X10_subscript_of_a_variable _ tokensOf (Int 10)
              (tokenizerAt 10 [var "A"; op "["; op "("; num "1"; op ")"; op "]"])
              (var "A") _ eq_refl eq_refl eq_refl)))
              [] [num "1"; op ")"; op "]"] "(" eq_refl eq_refl
              (or_intror (or_introl eq_refl))).
Defined.

(** X12 at the statement of the sample line. *)
Lemma X12_witness :
  Forall (eq (Int 10))
    (linenosOf (IF (Int 10) [var "A1"; op "<>"; num "2.5"]
                  (REM (Int 10) (LString "so it goes")) None)) /\
  (exists rest, unread (atIndex 1 sampleTokenized)
                = mkToken ty_keyword (LString "IF") :: rest) /\
  tokens (atIndex 8 sampleTokenized) = tokens (atIndex 1 sampleTokenized) /\
  1 < 8.
Proof.
  exact (X12_node_of_a_statement _ tokensOf 3 (Int 10)
           (atIndex 1 sampleTokenized) (atIndex 8 sampleTokenized)
           (IF (Int 10) [var "A1"; op "<>"; num "2.5"]
               (REM (Int 10) (LString "so it goes")) None)
           eq_refl).
Defined.

Lemma sampleRemLine_tokenized :
  tokenize sampleFunctions (newTokenizer sampleRemLine) = Return sampleRemTokenized.
Proof. reflexivity. Qed.

(** X14 at the sample comment line. *)
Lemma X14_witness :
  exists text,
    skipn 2 (tokens sampleRemTokenized) = [mkToken ty_comment (LString text)] /\
    parseLine tokensOf sampleFunctions sampleRemLine
    = Return (REM (Int 20) (LString text)).
Proof.
  exact (proj2 (X14_lines_that_always_parse _ tokensOf sampleFunctions
                  sampleRemLine sampleRemTokenized sampleRemLine_tokenized) eq_refl).
Defined.

(** X16 at [LET A = 1] and at [LET A 1]. *)
Lemma X16_witness :
  parse tokensOf 1 (Int 10) (tokenizerAt 10 [kw "LET"; var "A"; op "="; num "1"])
  = Return (LET (Int 10) (Variable_ (Int 10) (LString "A") None) [num "1"],
            atIndex 5 (tokenizerAt 10 [kw "LET"; var "A"; op "="; num "1"])) /\
  parse tokensOf 1 (Int 10) (tokenizerAt 10 [kw "LET"; var "A"; num "1"])
  = Throw (Error (ExpectTokenOfType ty_operation ty_number)).
Proof.
  split.
  - exact (X16_let_statement _ tokensOf 0 (Int 10)
             (tokenizerAt 10 [kw "LET"; var "A"; op "="; num "1"])
             "A" (op "=") [num "1"] eq_refl eq_refl eq_refl).
  - exact (X16_let_statement _ tokensOf 0 (Int 10)
             (tokenizerAt 10 [kw "LET"; var "A"; num "1"])
             "A" (num "1") [] eq_refl eq_refl eq_refl).
Defined.

(** X17 at [INPUT "N"; A] and at [INPUT "N"]. *)
Lemma X17_witness :
  parse tokensOf 1 (Int 10) (tokenizerAt 10 [kw "INPUT"; str "N"; linemod; var "A"])
  = Return (INPUT (Int 10) [str "N"] (Variable_ (Int 10) (LString "A") None),
            atIndex 5 (tokenizerAt 10 [kw "INPUT"; str "N"; linemod; var "A"])) /\
  parse tokensOf 1 (Int 10) (tokenizerAt 10 [kw "INPUT"; str "N"])
  = Throw (Error ExpectedLineMod).
Proof.
  split.
  - refine (proj2 (X17_input_statement _ tokensOf 0 (Int 10)
              (tokenizerAt 10 [kw "INPUT"; str "N"; linemod; var "A"])
              [str "N"] [linemod; var "A"] eq_refl eq_refl eq_refl _)
              _ "A" [] eq_refl I).
    discriminate.
  - refine (proj1 (X17_input_statement _ tokensOf 0 (Int 10)
              (tokenizerAt 10 [kw "INPUT"; str "N"])
              [str "N"] [] eq_refl eq_refl eq_refl _) eq_refl I eq_refl).
    discriminate.
Defined.

(* ------------------------------------------------------------------ *)
(** ** The words in upper case *)

Lemma isUpper_upper (c : ascii) : isUpper c = true -> upper c = c.
Proof. all_chars c; intros H; vm_compute in H; discriminate H. Qed.

Section WordsInUpperCase.

Variable FUNCTIONS : list string.

Lemma wellFormed_upper (tok : Token) :
  wellFormed FUNCTIONS tok -> isWordType (type tok) = true ->
  exists w, lexeme tok = LString w /\ toUpperCase w = w.
Proof.
  unfold wellFormed. destruct (type tok); try discriminate; intros W _.
  - destruct W as (k & I & E). exists k. split; [exact E|apply KEYWORDS_upper, I].
  - destruct W as (c & ds & U & D & E). exists (String c ds). split; [exact E|].
    cbn [toUpperCase]. rewrite (isUpper_upper c U), (allChars_digit_upper ds D).
    reflexivity.
  - destruct W as (name & _ & E). exists (toUpperCase name).
    split; [exact E|apply toUpperCase_idem].
  - destruct W as (k & I & E). exists k. split; [exact E|].
    unfold CONSTANTS in I. simpl in I. destruct I as [<-|[<-|[]]]; reflexivity.
  - destruct W as [E|E]; [exists "AND"|exists "OR"]; auto.
Qed.

(** A turn of [tokenize] right after the line number, where a word pattern
    matches. *)
Lemma tokenizeLine_word (line : string) (m mm : Match) (c : PatternClass) :
  reLINE line = Some m ->
  firstMatch FUNCTIONS (slice line (String.length (m0 m))) = Some (c, mm) ->
  isWord c = true -> isRem c mm = false ->
  tokenizeLine FUNCTIONS line
  = obind (tokenize_loop FUNCTIONS
             (String.length (slice line (String.length (m0 m))) - 1)
             (mkTokenizer
                (slice (slice line (String.length (m0 m))) (String.length (m0 mm)))
                [ mkToken ty_lineno (LNumber (Int (parseInt (m1 m))));
                  mkToken (wordType c) (LString (toUpperCase (m1 mm))) ]
                0 false (Int (parseInt (m1 m)))))
      (fun t => Return (tokens t)).
Proof.
  intros R F W NR.
  pose proof (firstMatch_nonempty FUNCTIONS _ _ _ F) as NE.
  unfold tokenizeLine, tokenize. cbn [stmnt newTokenizer tokens index tokenized lineno].
  rewrite R. cbv zeta. cbn [stmnt].
  set (s := slice line (String.length (m0 m))) in *.
  assert (L : String.length s = S (String.length s - 1)).
  { destruct s; [discriminate NE|]. simpl. lia. }
  rewrite L at 1. rewrite tokenize_loop_step by exact NE. cbn [stmnt]. rewrite F.
  unfold afterMatch, eatenOf. rewrite NR.
  cbn [stmnt tokens index tokenized lineno app].
  assert (K : tokensOfMatch c mm s
              = [mkToken (wordType c) (LString (toUpperCase (m1 mm)))]).
  { destruct c; try discriminate W; try reflexivity.
    unfold tokensOfMatch. unfold isRem in NR. rewrite NR. reflexivity. }
  rewrite K. cbn [app].
  destruct (tokenize_loop FUNCTIONS _ _); reflexivity.
Qed.

End WordsInUpperCase.

Section CaseOfWords.

Variable FUNCTIONS : list string.

(** C7.  Matching is case-insensitive and the lexeme of a keyword, logical
    operator, function name, constant or variable is put in upper case.
    At the upper case of a text the same pattern class matches, with the
    upper case of the match.  Where a word pattern matches at the start of
    the statement of a line, [tokenizeLine] makes the token of that class
    whose lexeme is the upper case of the text matched there, and goes on
    with the rest.  In the tokens [tokenizeLine] returns, the lexeme of every
    word token is in upper case.  So two lines with the same line number
    whose statements differ only in the letter case of their keywords and
    identifiers ([SameButCase]) have the same outcome of [tokenizeLine], the
    same tokens when it returns. *)
Theorem C7_case_of_words_is_not_seen :
  (forall s,
     firstMatch FUNCTIONS (toUpperCase s)
     = option_map (fun cm => (fst cm, upMatch (snd cm))) (firstMatch FUNCTIONS s)) /\
  (forall line m c mm,
     reLINE line = Some m ->
     firstMatch FUNCTIONS (slice line (String.length (m0 m))) = Some (c, mm) ->
     isWord c = true -> isRem c mm = false ->
     (exists tail, slice line (String.length (m0 m)) = m1 mm ++ tail) /\
     tokenizeLine FUNCTIONS line
     = obind (tokenize_loop FUNCTIONS
                (String.length (slice line (String.length (m0 m))) - 1)
                (mkTokenizer
                   (slice (slice line (String.length (m0 m))) (String.length (m0 mm)))
                   [ mkToken ty_lineno (LNumber (Int (parseInt (m1 m))));
                     mkToken (wordType c) (LString (toUpperCase (m1 mm))) ]
                   0 false (Int (parseInt (m1 m)))))
         (fun t => Return (tokens t))) /\
  (forall line toks,
     tokenizeLine FUNCTIONS line = Return toks ->
     Forall (fun tok => isWordType (type tok) = true ->
                        exists w, lexeme tok = LString w /\ toUpperCase w = w) toks) /\
  (forall line s2 m,
     reLINE line = Some m ->
     SameButCase FUNCTIONS (slice line (String.length (m0 m))) s2 ->
     tokenizeLine FUNCTIONS (m0 m ++ s2) = tokenizeLine FUNCTIONS line).
Proof.
  split; [|split; [|split]].
  - exact (firstMatch_upper FUNCTIONS).
  - intros line m c mm R F W NR. split.
    + destruct (firstMatch_shaped FUNCTIONS _ _ _ F) as [(tail & r & E0 & E) _].
      exists (tail ++ r). rewrite E at 1. rewrite E0.
      destruct c; try discriminate W; cbn [lead append];
        rewrite <- append_assoc; reflexivity.
    + exact (tokenizeLine_word FUNCTIONS line m mm c R F W NR).
  - intros line toks H. unfold tokenizeLine in H.
    destruct (tokenize FUNCTIONS (newTokenizer line)) as [t|e|] eqn:T; try discriminate H.
    injection H as <-.
    destruct (tokenize_shape FUNCTIONS line t T) as (rest & -> & W & _).
    constructor; [discriminate|].
    eapply Forall_impl; [|exact W]. intros tok Wt. exact (wellFormed_upper FUNCTIONS tok Wt).
  - intros line s2 m R H.
    destruct (reLINE_shaped _ _ R) as [r E].
    assert (S1 : slice line (String.length (m0 m)) = r) by (rewrite E; apply slice_app).
    rewrite S1 in H.
    pose proof (SameButCase_upper FUNCTIONS _ _ H) as U.
    assert (R2 : reLINE (m0 m ++ s2) = Some m).
    { apply (reLINE_variant line); [exact R|].
      rewrite E, !toUpperCase_app, U. reflexivity. }
    unfold tokenizeLine, tokenize. cbn [stmnt newTokenizer tokens index tokenized lineno].
    rewrite R, R2. cbv zeta. cbn [stmnt]. rewrite S1, slice_app.
    rewrite (toUpperCase_eq_length _ _ U).
    match goal with
    | |- context [tokenize_loop _ ?f (mkTokenizer s2 ?tk ?i ?b ?l)] =>
        change (mkTokenizer s2 tk i b l) with (setStmnt s2 (mkTokenizer EmptyString tk i b l));
        change (mkTokenizer r tk i b l) with (setStmnt r (mkTokenizer EmptyString tk i b l))
    end.
    rewrite (tokenize_loop_SameButCase FUNCTIONS _ _ H). reflexivity.
Qed.

End CaseOfWords.

(** C7 at [10 print "hi"] and [10 PRINT "hi"]: the keyword token [PRINT] is
    made from [print]; and at a line with a variable, a function, a
    constant, a logical operator and a comment. *)
Lemma C7_witness :
  tokenizeLine sampleFunctions ("10 print " ++ quoted "hi")
  = Return [ mkToken ty_lineno (LNumber (Int 10)); kw "PRINT"; str "hi" ] /\
  tokenizeLine sampleFunctions ("10 PRINT " ++ quoted "hi")
  = tokenizeLine sampleFunctions ("10 print " ++ quoted "hi") /\
  tokenizeLine sampleFunctions "10 IF A1=ABS(PI)OR B > 2.5 THEN REM so it goes"
  = tokenizeLine sampleFunctions "10 if a1=abs(pi)or b > 2.5 then rem so it goes".
Proof.
  split; [|split].
  - exact (proj2 (proj1 (proj2 (C7_case_of_words_is_not_seen sampleFunctions))
             ("10 print " ++ quoted "hi") (mkMatch "10 " "10") KeyC
             (mkMatch "print " "print") eq_refl eq_refl eq_refl eq_refl)).
  - apply (proj2 (proj2 (proj2 (C7_case_of_words_is_not_seen sampleFunctions)))
             ("10 print " ++ quoted "hi")
             ("PRINT " ++ quoted "hi") (mkMatch "10 " "10") eq_refl).
    same_but_case.
  - apply (proj2 (proj2 (proj2 (C7_case_of_words_is_not_seen sampleFunctions)))
             "10 if a1=abs(pi)or b > 2.5 then rem so it goes"
             "IF A1=ABS(PI)OR B > 2.5 THEN REM so it goes" (mkMatch "10 " "10") eq_refl).
    same_but_case.
Defined.

(* ------------------------------------------------------------------ *)
(** ** The errors of the parser *)

Lemma In_unread (t : Tokenizer) (x : Token) : In x (unread t) -> In x (tokens t).
Proof.
  unfold unread. intros H. rewrite <- (firstn_skipn (index t) (tokens t)).
  apply in_or_app. right. exact H.
Qed.

Lemma found_unread (t : Tokenizer) (x : Token) (rest : list Token) :
  unread t = x :: rest -> found (tokens t) x.
Proof. intros U. right. apply In_unread. rewrite U. left. reflexivity. Qed.

Lemma scanRun_scanned (l : list Token) : forallb scanned (scanRun l) = true.
Proof.
  induction l as [|x l IH]; [reflexivity|]. cbn [scanRun].
  destruct (scanned x) eqn:E; [|reflexivity]. cbn [forallb]. rewrite E, IH. reflexivity.
Qed.

Lemma scanRun_afterRun (l : list Token) : l = (scanRun l ++ afterRun l)%list.
Proof.
  unfold afterRun. induction l as [|x l IH]; [reflexivity|]. cbn [scanRun].
  destruct (scanned x); [|reflexivity]. cbn [length skipn app]. congruence.
Qed.

Lemma stopsAtOpener_In (l : list Token) :
  stopsAtOpener l = true -> exists tok, In tok l /\ isOpener tok = true.
Proof.
  induction l as [|x l IH]; [discriminate|]. cbn [stopsAtOpener].
  destruct (scanned x).
  - intros H. destruct (IH H) as (tok & I & O). exists tok. split; [right; exact I|exact O].
  - intros H. apply andb_true_iff in H. destruct H as [_ O].
    exists x. split; [left; reflexivity|exact O].
Qed.

Section ErrorsOfTheParser.

Variable Expr : Type.
Variable exprToJS : list Token -> Result Expr.

Local Abbreviation SpecT := (SpecT exprToJS).
Local Abbreviation parserThrow := (parserThrow exprToJS).
Local Abbreviation operand := (operand exprToJS).

Lemma SpecT_bind {A B : Type} (toks : list Token) (c : M A) (k : A -> M B)
  (Q1 : A -> Prop) (Q2 : B -> Prop) :
  SpecT toks c Q1 -> (forall a, Q1 a -> SpecT toks (k a) Q2) ->
  SpecT toks (bind c k) Q2.
Proof.
  intros Hc Hk t T E. unfold bind. specialize (Hc t T E).
  destruct (c t) as [[a t']|e|]; [|exact Hc|exact I].
  destruct Hc as (E' & T' & Qa). exact (Hk a Qa t' T' E').
Qed.

Lemma SpecT_ret {A : Type} (toks : list Token) (a : A) (Q : A -> Prop) :
  Q a -> SpecT toks (ret a) Q.
Proof. intros H t T E. cbn. auto. Qed.

Lemma SpecT_weaken {A : Type} (toks : list Token) (c : M A) (Q Q' : A -> Prop) :
  SpecT toks c Q -> (forall a, Q a -> Q' a) -> SpecT toks c Q'.
Proof.
  intros H HQ t T E. specialize (H t T E).
  destruct (c t) as [[a t']|e|]; auto. destruct H as (H1 & H2 & H3). auto.
Qed.

Lemma SpecT_nextM (toks : list Token) : SpecT toks nextM (found toks).
Proof.
  intros t T E. destruct (unread t) as [|x rest] eqn:U.
  - rewrite (nextM_unread_nil t T U). repeat split; auto. left. reflexivity.
  - destruct (nextM_unread_cons t x rest T U) as [N _]. rewrite N.
    repeat split; auto. rewrite <- E. exact (found_unread t x rest U).
Qed.

Lemma SpecT_assertType (toks : list Token) (tok : Token) (ty : TokenType) :
  found toks tok -> In ty [ty_keyword; ty_operation; ty_variable; ty_eof] ->
  SpecT toks (lift (assertType tok ty None)) (fun _ => type tok = ty).
Proof.
  intros F I t T E. unfold lift, assertType, TokenType_eqb.
  destruct (TokenType_eq_dec (type tok) ty) as [Ey|NE]; cbn.
  - auto.
  - apply pt_type; assumption.
Qed.

Lemma SpecT_expectExpr (toks : list Token) :
  SpecT toks (expectExpr exprToJS) (operand toks).
Proof.
  intros t T E. rewrite (expectExpr_scan Expr exprToJS t T).
  destruct (stopsAtOpener (unread t)) eqn:O.
  - destruct (stopsAtOpener_In _ O) as (tok & I & Op).
    apply (pt_const Expr exprToJS toks tok); [rewrite <- E; apply In_unread, I|exact Op].
  - destruct (scanRun (unread t)) as [|x run] eqn:R.
    + destruct (unread t) as [|y rest] eqn:U.
      * apply (pt_expression Expr exprToJS toks eof); [left; reflexivity|reflexivity].
      * apply (pt_expression Expr exprToJS toks y); [rewrite <- E; exact (found_unread t y rest U)|].
        cbn [scanRun] in R. destruct (scanned y); [discriminate R|reflexivity].
    + cbv zeta.
      assert (Run : isRunOf toks (x :: run)).
      { split; [|split; [discriminate|rewrite <- R; apply scanRun_scanned]].
        exists (firstn (index t) (tokens t)), (afterRun (unread t)).
        rewrite <- R, <- scanRun_afterRun, <- E. unfold unread.
        symmetry. apply firstn_skipn. }
      destruct (exprToJS (x :: run)) as [e|e] eqn:X; cbn [ofResult obind].
      * repeat split; auto. exists (x :: run). auto.
      * exact (pt_translator Expr exprToJS toks _ _ Run X).
Qed.

Lemma SpecT_acceptKeyword (toks : list Token) (keyword : string) :
  SpecT toks (acceptKeyword keyword) (fun _ => True).
Proof.
  intros t T E. unfold acceptKeyword. destruct (unread t) as [|x rest] eqn:U.
  - rewrite (bind_Return _ _ _ _ _ (peekM_unread_nil t T U)). cbn. auto.
  - rewrite (bind_Return _ _ _ _ _ (peekM_unread_cons t x rest T U)).
    destruct (TokenType_eqb (type x) ty_keyword); [|cbn; auto].
    destruct (nextM_unread_cons t x rest T U) as [N _].
    rewrite (bind_Return _ _ _ _ _ N). cbn. auto.
Qed.

Lemma SpecT_expectKeyword (toks : list Token) (keyword : string) :
  In keyword ["TO"; "THEN"] ->
  SpecT toks (expectKeyword keyword) (fun _ => True).
Proof.
  intros K t T E. unfold expectKeyword, acceptKeyword.
  assert (no : forall tok, found toks tok -> TokenType_eqb (type tok) ty_keyword = false ->
                 parserThrow toks (Error (ExpectedButGot keyword (lexeme tok)))).
  { intros tok F N. apply pt_keyword; [exact F|exact K|].
    unfold TokenType_eqb in N.
    destruct (TokenType_eq_dec (type tok) ty_keyword); [discriminate N|assumption]. }
  destruct (unread t) as [|x rest] eqn:U.
  - pose proof (peekM_unread_nil t T U) as P.
    unfold bind at 1. unfold bind at 1. rewrite P. cbn [type eof TokenType_eqb].
    change (TokenType_eqb ty_eof ty_keyword) with false. cbv iota.
    unfold ret at 1. unfold bind. rewrite P. unfold throw.
    apply (no eof); [left; reflexivity|reflexivity].
  - pose proof (peekM_unread_cons t x rest T U) as P.
    destruct (nextM_unread_cons t x rest T U) as [N _].
    unfold bind at 1. unfold bind at 1. rewrite P.
    destruct (TokenType_eqb (type x) ty_keyword) eqn:K1.
    + unfold bind at 1. rewrite N. cbn. auto.
    + unfold ret at 1. unfold bind. rewrite P. unfold throw.
      apply (no x); [rewrite <- E; exact (found_unread t x rest U)|exact K1].
Qed.

Lemma SpecT_expectComment (toks : list Token) :
  SpecT toks expectComment (fun _ => True).
Proof.
  unfold expectComment.
  eapply SpecT_bind; [apply SpecT_nextM|intros x Fx].
  destruct (TokenType_eqb (type x) ty_comment).
  - eapply SpecT_bind; [apply SpecT_nextM|intros y Fy].
    eapply SpecT_bind; [apply SpecT_assertType; [exact Fy|simpl; auto]|intros ? ?].
    apply SpecT_ret. exact I.
  - eapply SpecT_bind; [apply SpecT_assertType; [exact Fx|simpl; auto]|intros ? ?].
    apply SpecT_ret. exact I.
Qed.

Lemma SpecT_expectOperation (toks : list Token) :
  SpecT toks (expectOperation "=") (fun _ => True).
Proof.
  unfold expectOperation.
  eapply SpecT_bind; [apply SpecT_nextM|intros x Fx].
  eapply SpecT_bind; [apply SpecT_assertType; [exact Fx|simpl; auto]|intros ? Tx].
  destruct (lexeme_is (lexeme x) "=") eqn:L; cbn [negb].
  - apply SpecT_ret. exact I.
  - intros t T E. unfold throw. apply (pt_operation Expr exprToJS toks x); assumption.
Qed.

Lemma SpecT_acceptLineMod (toks : list Token) :
  SpecT toks acceptLineMod (fun _ => True).
Proof.
  intros t T E. rewrite (acceptLineMod_run t T).
  destruct (headIsLineMod (unread t)); cbn; auto.
Qed.

Lemma SpecT_expectLineMod (toks : list Token) :
  SpecT toks expectLineMod (fun _ => True).
Proof.
  intros t T E. unfold expectLineMod.
  rewrite (bind_Return _ _ _ _ _ (acceptLineMod_run t T)).
  destruct (unread t) as [|x rest] eqn:U; cbn [headIsLineMod].
  - cbn. apply (pt_linemod Expr exprToJS toks eof); [left; reflexivity|discriminate].
  - unfold TokenType_eqb.
    destruct (TokenType_eq_dec (type x) ty_linemod) as [Ex|NE]; cbn.
    + auto.
    + apply (pt_linemod Expr exprToJS toks x); [rewrite <- E; exact (found_unread t x rest U)|exact NE].
Qed.

Lemma SpecT_acceptSubscript (toks : list Token) :
  SpecT toks (acceptSubscript exprToJS) (operandOpt exprToJS toks).
Proof.
  intros t T E. unfold acceptSubscript. destruct (unread t) as [|x rest] eqn:U.
  - rewrite (bind_Return _ _ _ _ _ (peekM_unread_nil t T U)). cbn. auto.
  - rewrite (bind_Return _ _ _ _ _ (peekM_unread_cons t x rest T U)).
    destruct (lexeme_is (lexeme x) "[") eqn:L; cbn [negb]; [|cbn; auto].
    destruct (nextM_unread_cons t x rest T U) as [N _].
    rewrite (bind_Return _ _ _ _ _ N).
    assert (Fx : found toks x) by (rewrite <- E; exact (found_unread t x rest U)).
    assert (K : SpecT toks
                  (lift (assertType x ty_operation (Some "[")) ;;;
                   expr <- expectExpr exprToJS ;;
                   c <- nextM ;;
                   lift (assertType c ty_operation (Some "]")) ;;;
                   ret (Some expr))
                  (operandOpt exprToJS toks)).
    { eapply SpecT_bind with (Q1 := fun _ => True).
      - intros s Ts Es. unfold lift, assertType, TokenType_eqb.
        destruct (TokenType_eq_dec (type x) ty_operation) as [Ex|NE]; cbn.
        + rewrite L. cbn. auto.
        + apply pt_type; [exact Fx|simpl; auto|exact NE].
      - intros _ _.
        eapply SpecT_bind; [apply SpecT_expectExpr|intros e Oe].
        eapply SpecT_bind; [apply SpecT_nextM|intros c Fc].
        eapply SpecT_bind with (Q1 := fun _ => True).
        + intros s Ts Es. unfold lift, assertType, TokenType_eqb.
          destruct (TokenType_eq_dec (type c) ty_operation) as [Ec|NE]; cbn.
          * destruct (lexeme_is (lexeme c) "]") eqn:Lc; cbn; [auto|].
            apply pt_value; assumption.
          * apply pt_type; [exact Fc|simpl; auto|exact NE].
        + intros _ _. apply SpecT_ret. exact Oe. }
    exact (K (advance t) T E).
Qed.

Lemma SpecT_expectVariable (toks : list Token) (ln : JsNumber) :
  SpecT toks (expectVariable exprToJS ln)
    (fun v => Forall (operand toks) (exprsOfVariable v)).
Proof.
  unfold expectVariable.
  eapply SpecT_bind; [apply SpecT_nextM|intros x Fx].
  eapply SpecT_bind; [apply SpecT_assertType; [exact Fx|simpl; auto]|intros ? ?].
  eapply SpecT_bind; [apply SpecT_acceptSubscript|intros o Oo].
  apply SpecT_ret. destruct o as [e|]; cbn; [constructor; [exact Oo|constructor]|constructor].
Qed.

Ltac st lem := eapply SpecT_bind; [apply lem|intros ? ?].

Ltac st_done :=
  apply SpecT_ret; cbn [exprsOf];
  repeat first [ assumption | apply Forall_app; split | apply Forall_cons | apply Forall_nil ].

(** [parse] on a tokenized tokenizer: the operands of the node it returns
    are translations of runs of scanned tokens of the token array, and the
    error it throws is one of the errors of the parser. *)
Lemma SpecT_parse (toks : list Token) (fuel : nat) (ln : JsNumber) :
  SpecT toks (parse exprToJS fuel ln) (fun n => Forall (operand toks) (exprsOf n)).
Proof.
  induction fuel as [|fuel IH]; [intros t _ _; exact I|].
  cbn [parse].
  eapply SpecT_bind; [apply SpecT_nextM|intros top Ft].
  eapply SpecT_bind; [apply SpecT_assertType; [exact Ft|simpl; auto]|intros ? Kt].
  destruct (lexeme_is (lexeme top) "PRINT") eqn:K1.
  { st SpecT_expectExpr. st SpecT_acceptLineMod. st_done. }
  destruct (lexeme_is (lexeme top) "LET") eqn:K2.
  { st SpecT_expectVariable. st SpecT_expectOperation. st SpecT_expectExpr. st_done. }
  destruct (lexeme_is (lexeme top) "REM") eqn:K3.
  { st SpecT_expectComment. st_done. }
  destruct (lexeme_is (lexeme top) "PAUSE") eqn:K4.
  { st SpecT_expectExpr. st_done. }
  destruct (lexeme_is (lexeme top) "INPUT") eqn:K5.
  { st SpecT_expectExpr. st SpecT_expectLineMod. st SpecT_expectVariable. st_done. }
  destruct (lexeme_is (lexeme top) "FOR") eqn:K6.
  { st SpecT_expectVariable. st SpecT_expectOperation. st SpecT_expectExpr.
    eapply SpecT_bind; [apply SpecT_expectKeyword; simpl; auto|intros ? ?].
    st SpecT_expectExpr. st SpecT_acceptKeyword.
    eapply SpecT_bind with (Q1 := operandOpt exprToJS toks).
    - match goal with |- context [match ?k with Some _ => _ | None => _ end] =>
        destruct k end.
      + st SpecT_expectExpr. apply SpecT_ret. assumption.
      + apply SpecT_ret. exact I.
    - intros step Hs. apply SpecT_ret. cbn [exprsOf].
      apply Forall_app. split; [assumption|].
      constructor; [assumption|]. constructor; [assumption|].
      destruct step; [constructor; [exact Hs|constructor]|constructor]. }
  destruct (lexeme_is (lexeme top) "NEXT") eqn:K7.
  { st SpecT_expectVariable. st_done. }
  destruct (lexeme_is (lexeme top) "GOTO") eqn:K8.
  { st SpecT_expectExpr. st_done. }
  destruct (lexeme_is (lexeme top) "END") eqn:K9.
  { st_done. }
  destruct (lexeme_is (lexeme top) "IF") eqn:K10.
  { st SpecT_expectExpr.
    eapply SpecT_bind; [apply SpecT_expectKeyword; simpl; auto|intros ? ?].
    eapply SpecT_bind; [apply IH|intros then_ Ht].
    st SpecT_acceptKeyword.
    eapply SpecT_bind
      with (Q1 := fun o => match o with
                           | Some n => Forall (operand toks) (exprsOf n)
                           | None => True
                           end).
    - match goal with |- context [match ?k with Some _ => _ | None => _ end] =>
        destruct k end.
      + eapply SpecT_bind; [apply IH|intros n Hn]. apply SpecT_ret. exact Hn.
      + apply SpecT_ret. exact I.
    - intros other Ho. apply SpecT_ret. cbn [exprsOf].
      constructor; [assumption|]. apply Forall_app. split; [exact Ht|].
      destruct other; [exact Ho|constructor]. }
  intros t T E. unfold throw. apply pt_unexpected; [exact Ft|exact Kt|].
  cbn [forallb STATEMENTS]. rewrite K1, K2, K3, K4, K5, K6, K7, K8, K9, K10. reflexivity.
Qed.

End ErrorsOfTheParser.

(* ------------------------------------------------------------------ *)
(** ** The operand positions *)

Lemma scanned_kw (a : string) : scanned (kw a) = false.
Proof. reflexivity. Qed.

Section OperandPositionsFacts.

Variable Expr : Type.
Variable exprToJS : list Token -> Result Expr.

(** One token read by [next]. *)
Lemma next_step {B : Type} (k : Token -> M B) (t : Tokenizer) (x : Token)
  (rest : list Token) :
  tokenized t = true -> unread t = x :: rest ->
  bind nextM k t = k x (advance t) /\
  tokenized (advance t) = true /\ unread (advance t) = rest.
Proof.
  intros T U. destruct (nextM_unread_cons t x rest T U) as [N U1].
  rewrite (bind_Return _ _ _ _ _ N). auto.
Qed.

(** An operand read whole by [expectExpr]. *)
Lemma run_step {B : Type} (k : Expr -> M B) (t : Tokenizer) (run rest : list Token) :
  Run exprToJS run -> tokenized t = true -> unread t = (run ++ rest)%list ->
  stops rest ->
  exists e, exprToJS run = Ok e /\
    bind (expectExpr exprToJS) k t = k e (atIndex (index t + length run) t) /\
    tokenized (atIndex (index t + length run) t) = true /\
    unread (atIndex (index t + length run) t) = rest.
Proof.
  intros (F & NE & e & X) T U [S1 S2]. exists e. split; [exact X|].
  split; [|split; [exact T|exact (unread_atIndex_app t (index t) run rest U)]].
  unfold bind.
  rewrite (expectExpr_on_run Expr exprToJS t run rest T U F NE S1 S2), X. reflexivity.
Qed.

(** A scan that takes no token. *)
Lemma empty_step {B : Type} (k : Expr -> M B) (t : Tokenizer) :
  tokenized t = true -> emptyScan (unread t) ->
  bind (expectExpr exprToJS) k t = Throw (Error ExpectedExpression).
Proof.
  intros T [R O]. rewrite (expectExpr_then Expr exprToJS k t T), O, R. reflexivity.
Qed.

(** A variable with its subscript, read whole by [expectVariable]. *)
Lemma expectVariable_subscripted (ln : JsNumber) (t : Tokenizer) (x : string)
  (inner after : list Token) (e : Expr) :
  tokenized t = true ->
  unread t = (var x :: op "[" :: inner ++ op "]" :: after)%list ->
  forallb scanned inner = true -> inner <> [] -> exprToJS inner = Ok e ->
  expectVariable exprToJS ln t
  = Return (Variable_ ln (LString x) (Some e), atIndex (index t + 3 + length inner) t).
Proof.
  intros T U F NE X.
  destruct (nextM_unread_cons t _ _ T U) as [N1 U1].
  assert (T1 : tokenized (advance t) = true) by exact T.
  destruct (nextM_unread_cons (advance t) _ _ T1 U1) as [N2 U2].
  destruct (run_step (fun expr => c <- nextM ;;
                        lift (assertType c ty_operation (Some "]")) ;;;
                        ret (Some expr))
              (advance (advance t)) inner (op "]" :: after)
              (conj F (conj NE (ex_intro _ e X))) T U2
              (conj eq_refl eq_refl)) as (e' & X' & E3 & T3 & U3).
  rewrite X in X'. injection X' as <-.
  destruct (nextM_unread_cons _ _ _ T3 U3) as [N4 _].
  assert (S1 : acceptSubscript exprToJS (advance t)
               = Return (Some e, atIndex (index t + 3 + length inner) t)).
  { unfold acceptSubscript.
    rewrite (bind_Return _ _ _ _ _ (peekM_unread_cons _ _ _ T1 U1)).
    cbn [op lexeme lexeme_is String.eqb Ascii.eqb Bool.eqb negb].
    rewrite (bind_Return _ _ _ _ _ N2).
    erewrite bind_Return by reflexivity.
    rewrite E3, (bind_Return _ _ _ _ _ N4).
    erewrite bind_Return by reflexivity.
    unfold ret, advance, atIndex. cbn [index stmnt tokens tokenized lineno].
    do 3 f_equal. lia. }
  unfold expectVariable. rewrite (bind_Return _ _ _ _ _ N1).
  erewrite bind_Return by reflexivity.
  rewrite (bind_Return _ _ _ _ _ S1). reflexivity.
Qed.

(** A variable reference read whole by [expectVariable], before [=]. *)
Lemma varref_step {B : Type} (ln : JsNumber) (k : VariableNode Expr -> M B)
  (t : Tokenizer) (v rest : list Token) :
  VarRef exprToJS v -> tokenized t = true -> unread t = (v ++ op "=" :: rest)%list ->
  exists vn,
    bind (expectVariable exprToJS ln) k t = k vn (atIndex (index t + length v) t) /\
    tokenized (atIndex (index t + length v) t) = true /\
    unread (atIndex (index t + length v) t) = op "=" :: rest.
Proof.
  intros V T U.
  assert (U' : unread (atIndex (index t + length v) t) = op "=" :: rest)
    by exact (unread_atIndex_app t (index t) v _ U).
  destruct V as [x|x inner R].
  - exists (Variable_ ln (LString x) None). split; [|split; [exact T|exact U']].
    rewrite (bind_Return _ _ _ _ _
               (expectVariable_plain Expr exprToJS ln t (var x) (op "=" :: rest)
                  T U eq_refl eq_refl)).
    cbn [length]. rewrite Nat.add_1_r. reflexivity.
  - destruct R as (F & NE & e & X).
    exists (Variable_ ln (LString x) (Some e)). split; [|split; [exact T|exact U']].
    cbn [app] in U. rewrite <- app_assoc in U. cbn [app] in U.
    rewrite (bind_Return _ _ _ _ _
               (expectVariable_subscripted ln t x inner (op "=" :: rest) e T U F NE X)).
    cbn [length]. rewrite length_app. cbn [length].
    replace (index t + S (S (length inner + 1))) with (index t + 3 + length inner) by lia.
    reflexivity.
Qed.

Lemma operation_step {B : Type} (k : Lexeme -> M B) (t : Tokenizer) (rest : list Token) :
  tokenized t = true -> unread t = op "=" :: rest ->
  bind (expectOperation "=") k t = k (LString "=") (advance t) /\
  tokenized (advance t) = true /\ unread (advance t) = rest.
Proof.
  intros T U. destruct (nextM_unread_cons t _ _ T U) as [N U1].
  split; [|split; [exact T|exact U1]].
  assert (E : expectOperation "=" t = Return (LString "=", advance t)).
  { unfold expectOperation. rewrite (bind_Return _ _ _ _ _ N). reflexivity. }
  rewrite (bind_Return _ _ _ _ _ E). reflexivity.
Qed.

Lemma acceptKeyword_kw (keyword a : string) (t : Tokenizer) (rest : list Token) :
  tokenized t = true -> unread t = kw a :: rest ->
  acceptKeyword keyword t = Return (Some (kw a), advance t).
Proof.
  intros T U. destruct (nextM_unread_cons t _ _ T U) as [N U1].
  unfold acceptKeyword.
  rewrite (bind_Return _ _ _ _ _ (peekM_unread_cons t _ _ T U)).
  cbn [kw type]. change (TokenType_eqb ty_keyword ty_keyword) with true. cbv iota.
  rewrite (bind_Return _ _ _ _ _ N). reflexivity.
Qed.

Lemma keyword_step {B : Type} (keyword a : string) (k : Lexeme -> M B) (t : Tokenizer)
  (rest : list Token) :
  tokenized t = true -> unread t = kw a :: rest ->
  bind (expectKeyword keyword) k t = k (LString a) (advance t) /\
  tokenized (advance t) = true /\ unread (advance t) = rest.
Proof.
  intros T U. split; [|split; [exact T|exact (unread_advance _ _ _ U)]].
  assert (E : expectKeyword keyword t = Return (LString a, advance t)).
  { unfold expectKeyword.
    rewrite (bind_Return _ _ _ _ _ (acceptKeyword_kw keyword a t rest T U)). reflexivity. }
  rewrite (bind_Return _ _ _ _ _ E). reflexivity.
Qed.

Lemma accept_step {B : Type} (keyword a : string) (k : option Token -> M B)
  (t : Tokenizer) (rest : list Token) :
  tokenized t = true -> unread t = kw a :: rest ->
  bind (acceptKeyword keyword) k t = k (Some (kw a)) (advance t) /\
  tokenized (advance t) = true /\ unread (advance t) = rest.
Proof.
  intros T U. split; [|split; [exact T|exact (unread_advance _ _ _ U)]].
  rewrite (bind_Return _ _ _ _ _ (acceptKeyword_kw keyword a t rest T U)). reflexivity.
Qed.

Lemma linemod_step {B : Type} (l : Lexeme) (k : bool -> M B) (t : Tokenizer)
  (rest : list Token) :
  tokenized t = true -> unread t = mkToken ty_linemod l :: rest ->
  bind expectLineMod k t = k true (advance t) /\
  tokenized (advance t) = true /\ unread (advance t) = rest.
Proof.
  intros T U. split; [|split; [exact T|exact (unread_advance _ _ _ U)]].
  assert (E : expectLineMod t = Return (true, advance t)).
  { unfold expectLineMod.
    rewrite (bind_Return _ _ _ _ _ (acceptLineMod_run t T)), U. reflexivity. }
  rewrite (bind_Return _ _ _ _ _ E). reflexivity.
Qed.

(** An empty subscript. *)
Lemma subscript_step {B : Type} (ln : JsNumber) (k : VariableNode Expr -> M B)
  (t : Tokenizer) (x : string) (rest : list Token) :
  tokenized t = true -> unread t = var x :: op "[" :: rest -> emptyScan rest ->
  bind (expectVariable exprToJS ln) k t = Throw (Error ExpectedExpression).
Proof.
  intros T U Em. destruct (nextM_unread_cons t _ _ T U) as [N1 U1].
  assert (T1 : tokenized (advance t) = true) by exact T.
  destruct (nextM_unread_cons (advance t) _ _ T1 U1) as [N2 U2].
  apply bind_Throw. unfold expectVariable. rewrite (bind_Return _ _ _ _ _ N1).
  erewrite bind_Return by reflexivity.
  apply bind_Throw. unfold acceptSubscript.
  rewrite (bind_Return _ _ _ _ _ (peekM_unread_cons _ _ _ T1 U1)).
  cbn [op lexeme lexeme_is String.eqb Ascii.eqb Bool.eqb negb].
  rewrite (bind_Return _ _ _ _ _ N2).
  erewrite bind_Return by reflexivity.
  apply empty_step; [exact T|]. rewrite U2. exact Em.
Qed.

Lemma stops_kw (a : string) (rest : list Token) : stops (kw a :: rest).
Proof. split; reflexivity. Qed.

Lemma stops_linemod (l : Lexeme) (rest : list Token) :
  stops (mkToken ty_linemod l :: rest).
Proof. split; reflexivity. Qed.

(** The head of [parse] at a keyword. *)
Ltac parse_head T U :=
  cbn [parse];
  rewrite (proj1 (next_step _ _ _ _ T U));
  erewrite bind_Return by reflexivity;
  cbn [kw lexeme lexeme_is String.eqb Ascii.eqb Bool.eqb].

(** Where the tokens from the cursor on lead to an operand and the scan
    takes no token there, [parse] throws [Expected expression]. *)
Lemma Leads_throws (pre : list Token) :
  Leads exprToJS pre ->
  forall (fuel : nat) (ln : JsNumber) (t : Tokenizer) (rest : list Token),
    tokenized t = true -> unread t = (pre ++ rest)%list -> emptyScan rest ->
    length pre <= fuel ->
    parse exprToJS fuel ln t = Throw (Error ExpectedExpression).
Proof.
  induction 1 as [k K|k x K|k v K V|run l x R|v frm a V R|v frm to a b V R1 R2
                  |cond pre a R L IH|cond s pre a b R P L IH];
    intros fuel ln t rest T U Em Lf;
    (destruct fuel as [|fuel]; [cbn [length] in Lf; lia|]);
    cbn [app] in U;
    assert (T1 : tokenized (advance t) = true) by exact T;
    pose proof (unread_advance _ _ _ U) as U1.
  - simpl in K.
    destruct K as [<-|[<-|[<-|[<-|[<-|[]]]]]]; parse_head T U;
      apply empty_step; try exact T1; rewrite U1; exact Em.
  - simpl in K.
    destruct K as [<-|[<-|[<-|[]]]]; parse_head T U;
      apply (subscript_step ln _ (advance t) x rest T1 U1 Em).
  - rewrite <- app_assoc in U1. cbn [app] in U1.
    destruct (varref_step ln (fun _ => ret tt) (advance t) v rest V T1 U1)
      as (_ & _ & T2 & U2).
    destruct (operation_step (fun _ => ret tt) _ rest T2 U2) as (_ & T3 & U3).
    simpl in K. destruct K as [<-|[<-|[]]]; parse_head T U.
    + destruct (varref_step ln
                  (fun variable => expectOperation "=" ;;;
                                   e <- expectExpr exprToJS ;;
                                   ret (LET ln variable e))
                  (advance t) v rest V T1 U1) as (vn & E2 & _).
      rewrite E2. rewrite (proj1 (operation_step _ _ rest T2 U2)).
      apply empty_step; [exact T3|rewrite U3; exact Em].
    + destruct (varref_step ln
                  (fun variable => expectOperation "=" ;;;
                                   frm <- expectExpr exprToJS ;;
                                   expectKeyword "TO" ;;;
                                   to <- expectExpr exprToJS ;;
                                   k <- acceptKeyword "STEP" ;;
                                   step <- match k with
                                           | Some _ => (e <- expectExpr exprToJS ;; ret (Some e))
                                           | None => ret None
                                           end ;;
                                   ret (FOR ln variable frm to step))
                  (advance t) v rest V T1 U1) as (vn & E2 & _).
      rewrite E2. rewrite (proj1 (operation_step _ _ rest T2 U2)).
      apply empty_step; [exact T3|rewrite U3; exact Em].
  - parse_head T U.
    rewrite <- app_assoc in U1. cbn [app] in U1.
    destruct (run_step (fun expr => expectLineMod ;;;
                                    v <- expectVariable exprToJS ln ;;
                                    ret (INPUT ln expr v))
                (advance t) run _ R T1 U1 (stops_linemod _ _)) as (e & _ & E2 & T2 & U2).
    rewrite E2.
    destruct (linemod_step l (fun _ => v <- expectVariable exprToJS ln ;;
                                       ret (INPUT ln e v)) _ _ T2 U2) as (E3 & T3 & U3).
    rewrite E3. exact (subscript_step ln _ _ x rest T3 U3 Em).
  - parse_head T U.
    rewrite <- app_assoc in U1. cbn [app] in U1. rewrite <- app_assoc in U1. cbn [app] in U1.
    destruct (varref_step ln
                (fun variable => expectOperation "=" ;;;
                                 frm <- expectExpr exprToJS ;;
                                 expectKeyword "TO" ;;;
                                 to <- expectExpr exprToJS ;;
                                 k <- acceptKeyword "STEP" ;;
                                 step <- match k with
                                         | Some _ => (e <- expectExpr exprToJS ;; ret (Some e))
                                         | None => ret None
                                         end ;;
                                 ret (FOR ln variable frm to step))
                (advance t) v _ V T1 U1) as (vn & E2 & T2 & U2).
    rewrite E2. destruct (operation_step (fun _ => ret tt) _ _ T2 U2) as (_ & T3 & U3).
    rewrite (proj1 (operation_step _ _ _ T2 U2)).
    match goal with |- bind (expectExpr exprToJS) ?k ?s = _ =>
      destruct (run_step k s frm _ R T3 U3 (stops_kw _ _)) as (e1 & _ & E4 & T4 & U4)
    end.
    rewrite E4.
    match goal with |- bind (expectKeyword _) ?k ?s = _ =>
      destruct (keyword_step "TO" a k s _ T4 U4) as (E5 & T5 & U5)
    end.
    rewrite E5. apply empty_step; [exact T5|rewrite U5; exact Em].
  - parse_head T U.
    repeat (rewrite <- app_assoc in U1; cbn [app] in U1).
    destruct (varref_step ln
                (fun variable => expectOperation "=" ;;;
                                 frm <- expectExpr exprToJS ;;
                                 expectKeyword "TO" ;;;
                                 to <- expectExpr exprToJS ;;
                                 k <- acceptKeyword "STEP" ;;
                                 step <- match k with
                                         | Some _ => (e <- expectExpr exprToJS ;; ret (Some e))
                                         | None => ret None
                                         end ;;
                                 ret (FOR ln variable frm to step))
                (advance t) v _ V T1 U1) as (vn & E2 & T2 & U2).
    rewrite E2. destruct (operation_step (fun _ => ret tt) _ _ T2 U2) as (_ & T3 & U3).
    rewrite (proj1 (operation_step _ _ _ T2 U2)).
    match goal with |- bind (expectExpr exprToJS) ?k ?s = _ =>
      destruct (run_step k s frm _ R1 T3 U3 (stops_kw _ _)) as (e1 & _ & E4 & T4 & U4)
    end.
    rewrite E4.
    match goal with |- bind (expectKeyword _) ?k ?s = _ =>
      destruct (keyword_step "TO" a k s _ T4 U4) as (E5 & T5 & U5)
    end.
    rewrite E5.
    match goal with |- bind (expectExpr exprToJS) ?k ?s = _ =>
      destruct (run_step k s to _ R2 T5 U5 (stops_kw _ _)) as (e2 & _ & E6 & T6 & U6)
    end.
    rewrite E6.
    match goal with |- bind (acceptKeyword _) ?k ?s = _ =>
      destruct (accept_step "STEP" b k s _ T6 U6) as (E7 & T7 & U7)
    end.
    rewrite E7. apply bind_Throw.
    apply empty_step; [exact T7|rewrite U7; exact Em].
  - parse_head T U.
    repeat (rewrite <- app_assoc in U1; cbn [app] in U1).
    match goal with |- bind (expectExpr exprToJS) ?k ?s = _ =>
      destruct (run_step k s cond _ R T1 U1 (stops_kw _ _)) as (e1 & _ & E2 & T2 & U2)
    end.
    rewrite E2.
    match goal with |- bind (expectKeyword _) ?k ?s = _ =>
      destruct (keyword_step "THEN" a k s _ T2 U2) as (E3 & T3 & U3)
    end.
    rewrite E3. apply bind_Throw.
    apply (IH fuel ln _ rest T3 U3 Em).
    cbn [length] in Lf. rewrite length_app in Lf. cbn [length] in Lf. lia.
  - parse_head T U.
    repeat (rewrite <- app_assoc in U1; cbn [app] in U1).
    match goal with |- bind (expectExpr exprToJS) ?k ?s = _ =>
      destruct (run_step k s cond _ R T1 U1 (stops_kw _ _)) as (e1 & _ & E2 & T2 & U2)
    end.
    rewrite E2.
    match goal with |- bind (expectKeyword _) ?k ?s = _ =>
      destruct (keyword_step "THEN" a k s _ T2 U2) as (E3 & T3 & U3)
    end.
    rewrite E3.
    cbn [length] in Lf. rewrite !length_app in Lf. cbn [length] in Lf.
    rewrite length_app in Lf. cbn [length] in Lf.
    match goal with |- bind (parse _ _ _) ?k ?s = _ =>
      destruct (P fuel ln s b (pre ++ rest)%list T3 U3 ltac:(lia)) as (n & E4);
      pose proof (unread_atIndex_app s (index s) _ _ U3) as U4
    end.
    rewrite (bind_Return _ _ _ _ _ E4).
    match goal with |- bind (acceptKeyword _) ?k ?s = _ =>
      destruct (accept_step "else" b k s _ T U4) as (E5 & T5 & U5)
    end.
    rewrite E5. apply bind_Throw. apply bind_Throw.
    apply (IH fuel ln _ rest T5 U5 Em). lia.
Qed.

End OperandPositionsFacts.

(* ------------------------------------------------------------------ *)
(** ** Errors and operands *)

Section ErrorsAndOperands.

Variable Expr : Type.
Variable exprToJS : list Token -> Result Expr.

Lemma unread_length_le (t : Tokenizer) (pre rest : list Token) :
  unread t = (pre ++ rest)%list -> length pre <= length (tokens t) - index t.
Proof.
  intros U. pose proof (unread_length t) as L. rewrite U, length_app in L.
  unfold remaining in L. lia.
Qed.

(** C4.  Every operand position requires an expression of one token at
    least.  Where the tokens from the cursor on lead the parser to an operand
    ([Leads]: after the keyword of [PRINT], [PAUSE], [INPUT], [GOTO] and
    [IF], after the [=] of [LET] and [FOR], after the keywords that follow
    the first and the second operand of [FOR], inside a subscript, and in
    the statements of an [IF]) and the scan takes no token there, the
    statement parser throws [Expected expression]; so does [expectExpr]
    itself wherever it is called.  When the statement parser returns a node,
    every expression of the node is the translation of a run of scanned
    tokens of the token array, one token at least. *)
Theorem C4_empty_expression_fails :
  (forall pre rest ln t,
     Leads exprToJS pre -> tokenized t = true -> unread t = (pre ++ rest)%list ->
     emptyScan rest ->
     parseStatement exprToJS ln t = Throw (Error ExpectedExpression)) /\
  (forall t,
     tokenized t = true -> emptyScan (unread t) ->
     expectExpr exprToJS t = Throw (Error ExpectedExpression)) /\
  (forall ln t n,
     parseStatement exprToJS ln t = Return n ->
     Forall (operand exprToJS (tokens t)) (exprsOf n)).
Proof.
  split; [|split].
  - intros pre rest ln t L T U Em. unfold parseStatement.
    rewrite (Leads_throws Expr exprToJS pre L _ ln t rest T U Em); [reflexivity|].
    pose proof (unread_length_le t pre rest U). lia.
  - intros t T [R O]. rewrite (expectExpr_scan Expr exprToJS t T), O, R. reflexivity.
  - intros ln t n H. unfold parseStatement in H.
    destruct (tokenized t) eqn:T.
    + pose proof (SpecT_parse Expr exprToJS (tokens t)
                    (S (length (tokens t) - index t)) ln t T eq_refl) as S0.
      destruct (parse exprToJS _ ln t) as [[n' t']|e|]; try discriminate H.
      injection H as <-. apply S0.
    + cbn [parse] in H. unfold bind, nextM, next, assertTokenized in H.
      rewrite T in H. discriminate H.
Qed.

Variable FUNCTIONS : list string.


End ErrorsAndOperands.

(** The statement [END] is read whole. *)
Lemma Parses_END {Expr : Type} (exprToJS : list Token -> Result Expr) :
  Parses exprToJS [kw "END"].
Proof.
  intros fuel ln t b rest T U L. destruct fuel as [|fuel]; [simpl in L; lia|].
  exists (END ln). destruct (nextM_unread_cons t _ _ T U) as [N _].
  cbn [parse]. rewrite (bind_Return _ _ _ _ _ N). cbn [length].
  rewrite Nat.add_1_r. reflexivity.
Qed.

(** C4 at the tokens of [10 LET A = ], of [10 PAUSE], of [10 IF A THEN GOTO]
    and of [10 IF A THEN END ELSE PRINT], and at the line [10 LET A = ]. *)
Lemma C4_witness :
  parseStatement tokensOf (Int 10) (tokenizerAt 10 [kw "LET"; var "A"; op "="])
  = Throw (Error ExpectedExpression) /\
  parseStatement tokensOf (Int 10) (tokenizerAt 10 [kw "PAUSE"])
  = Throw (Error ExpectedExpression) /\
  parseStatement tokensOf (Int 10)
    (tokenizerAt 10 [kw "IF"; var "A"; kw "THEN"; kw "GOTO"])
  = Throw (Error ExpectedExpression) /\
  parseStatement tokensOf (Int 10)
    (tokenizerAt 10 [kw "IF"; var "A"; kw "THEN"; kw "END"; kw "ELSE"; kw "PRINT"])
  = Throw (Error ExpectedExpression) /\
  parseLine tokensOf sampleFunctions "10 LET A = " = Throw (Error ExpectedExpression).
Proof.
  split; [|split; [|split; [|split]]].
  - exact (proj1 (C4_empty_expression_fails _ tokensOf)
             [kw "LET"; var "A"; op "="] [] (Int 10)
             (tokenizerAt 10 [kw "LET"; var "A"; op "="])
             (leads_assigned _ tokensOf "LET" [var "A"] (or_introl eq_refl)
                (vr_plain _ tokensOf "A"))
             eq_refl eq_refl (conj eq_refl eq_refl)).
  - exact (proj1 (C4_empty_expression_fails _ tokensOf)
             [kw "PAUSE"] [] (Int 10) (tokenizerAt 10 [kw "PAUSE"])
             (leads_keyword _ tokensOf "PAUSE" (or_intror (or_introl eq_refl)))
             eq_refl eq_refl (conj eq_refl eq_refl)).
  - refine (proj1 (C4_empty_expression_fails _ tokensOf)
              [kw "IF"; var "A"; kw "THEN"; kw "GOTO"] [] (Int 10)
              (tokenizerAt 10 [kw "IF"; var "A"; kw "THEN"; kw "GOTO"])
              (leads_then _ tokensOf [var "A"] [kw "GOTO"] "THEN"
                 (conj eq_refl (conj _ (ex_intro _ [var "A"] eq_refl)))
                 (leads_keyword _ tokensOf "GOTO"
                    (or_intror (or_intror (or_intror (or_introl eq_refl))))))
              eq_refl eq_refl (conj eq_refl eq_refl)).
    discriminate.
  - refine (proj1 (C4_empty_expression_fails _ tokensOf)
              [kw "IF"; var "A"; kw "THEN"; kw "END"; kw "ELSE"; kw "PRINT"] [] (Int 10)
              (tokenizerAt 10 [kw "IF"; var "A"; kw "THEN"; kw "END"; kw "ELSE"; kw "PRINT"])
              (leads_else _ tokensOf [var "A"] [kw "END"] [kw "PRINT"] "THEN" "ELSE"
                 (conj eq_refl (conj _ (ex_intro _ [var "A"] eq_refl)))
                 (Parses_END tokensOf)
                 (leads_keyword _ tokensOf "PRINT" (or_introl eq_refl)))
              eq_refl eq_refl (conj eq_refl eq_refl)).
    discriminate.
  - reflexivity.
Defined.


Section TokenizedLineAgain.

Variable FUNCTIONS : list string.

(** X3.  When [tokenize] returns, the line begins with digits that [LINE]
    captures; the first token is the line-number token, whose lexeme is the
    number that [parseInt] gives for those digits and is the line number the
    tokenizer holds; no other token is a line-number token or the sentinel;
    the text is used up, the cursor is at the start and the tokenizer is
    tokenized. *)
Theorem X3_tokenized_line (line : string) (t : Tokenizer) :
  tokenize FUNCTIONS (newTokenizer line) = Return t ->
  exists m toks,
    reLINE line = Some m /\
    tokens t = mkToken ty_lineno (LNumber (Int (parseInt (m1 m)))) :: toks /\
    Forall (fun tok => type tok <> ty_lineno /\ type tok <> ty_eof) toks /\
    lineno t = Int (parseInt (m1 m)) /\ stmnt t = EmptyString /\
    index t = 0 /\ tokenized t = true.
Proof.
  intros H. pose proof (tokenize_outcome FUNCTIONS line) as O. rewrite H in O.
  destruct O as (m & toks & R & Tk & L & T & I & Ln & S).
  exists m, toks. repeat split; auto.
  eapply Forall_impl; [|exact L]. intros tok [A B]. auto.
Qed.

End TokenizedLineAgain.

Lemma X3_witness :
  exists m toks,
    reLINE sampleLine = Some m /\
    tokens sampleTokenized = mkToken ty_lineno (LNumber (Int (parseInt (m1 m)))) :: toks /\
    Forall (fun tok => type tok <> ty_lineno /\ type tok <> ty_eof) toks /\
    lineno sampleTokenized = Int (parseInt (m1 m)) /\
    stmnt sampleTokenized = EmptyString /\
    index sampleTokenized = 0 /\ tokenized sampleTokenized = true.
Proof. exact (X3_tokenized_line sampleFunctions sampleLine _ sampleLine_tokenized). Defined.
